(** * comp_distance.py: pairwise TF-IDF cosine scores between consecutive killmails

    A shallow embedding of
    [Trajectory_Mining/Text_Analysis/Feature_Space/comp_distance.py].

    The script loads a table of killmails, groups the rows by [character_id],
    orders each group by [killmail_id], scores every row against its
    predecessor with two bag-of-words cosine similarities and writes the
    groups back, concatenated.

    Conventions of the embedding:
    - a Python call that may raise is a function into [result];
    - an [items] cell is either a Python [float] (what a missing cell is) or a
      list of two-element items, both elements being strings;
    - a Python [str] is a [string] whose characters are read as the code
      points U+0000..U+00FF;
    - the calls into pandas, scikit-learn and [ast] are embedded by what the
      libraries document and do for the arguments the script passes;
    - float64 arithmetic is a parameter ([Float64Model]) with two instances:
      [RealModel], exact arithmetic on the reals, which is what every float64
      operation rounds, and [IEEEModel], IEEE 754 binary64 on Rocq's
      primitive floats, one rounding per operation. *)

From Stdlib Require Import PrimFloat.
From Stdlib Require FloatOps FloatAxioms SpecFloat.
From Stdlib Require Import List ZArith Bool Ascii String Arith Lia.
From Stdlib Require Import Permutation Sorted.
From Stdlib Require Import Reals Lra.
From Stdlib Require OrderedTypeEx.
Import ListNotations.

(** ** Exceptions and fallible computations *)

Inductive exn : Type :=
| TypeError (msg : string)
| ValueError (msg : string)
| KeyError (msg : string)
| IndexError (msg : string).

Inductive result (A : Type) : Type :=
| Ok (a : A)
| Raise (e : exn).

Arguments Ok {A} a.
Arguments Raise {A} e.

Definition bind {A B : Type} (c : result A) (k : A -> result B) : result B :=
  match c with
  | Ok a => k a
  | Raise e => Raise e
  end.

Notation "x <- c ;; k" := (bind c (fun x => k))
  (at level 61, c at next level, right associativity).

(** [for x in xs: ...] with a body that may raise, collecting the values. *)
Fixpoint mapM {A B : Type} (f : A -> result B) (xs : list A) : result (list B) :=
  match xs with
  | [] => Ok []
  | x :: rest =>
      y <- f x ;;
      ys <- mapM f rest ;;
      Ok (y :: ys)
  end.

(** ** Arrays

    [s.iloc[i]] and [a[i]] on a one-dimensional array, slices and
    [flatten]. *)

Definition item_at {A : Type} (a : list A) (i : nat) : result A :=
  match nth_error a i with
  | Some x => Ok x
  | None => Raise (IndexError "index out of bounds")
  end.

(** [m[a:b]] on the rows of a matrix. *)
Definition slice {A : Type} (a b : nat) (m : list A) : list A :=
  firstn (b - a) (skipn a m).

(** [a.flatten()] *)
Definition flatten {A : Type} (a : list (list A)) : list A := List.concat a.

(** ** Python values of the script *)

(** One entry of an item list: [x[0]] is the long text, [x[1]] the short. *)
Definition item : Type := (string * string)%type.

(** What an [items] cell holds when it reaches the similarity functions. *)
Inductive pyitems : Type :=
| PyFloat (f : float)
| PyList (l : list item).

(** A score as the script stores it: the [int] that the guards return, the
    [numpy.float64] that [linear_kernel] yields, or [np.nan]. *)
Inductive pynum (F : Type) : Type :=
| PyInt (z : Z)
| NpFloat64 (x : F)
| NpNaN.

Arguments PyInt {F} z.
Arguments NpFloat64 {F} x.
Arguments NpNaN {F}.

(** [type(v) == float] *)
Definition type_is_float (v : pyitems) : bool :=
  match v with
  | PyFloat _ => true
  | PyList _ => false
  end.

(** [len(v)] *)
Definition len (v : pyitems) : result nat :=
  match v with
  | PyList l => Ok (List.length l)
  | PyFloat _ => Raise (TypeError "object of type 'float' has no len()")
  end.

(** The elements that [for x in v] visits. *)
Definition elements (v : pyitems) : result (list item) :=
  match v with
  | PyList l => Ok l
  | PyFloat _ => Raise (TypeError "'float' object is not iterable")
  end.

(** [functools.reduce(function, sequence)] without an initial value. *)
Definition reduce {A : Type} (f : A -> A -> A) (sequence : list A) : result A :=
  match sequence with
  | [] => Raise (TypeError "reduce() of empty iterable with no initial value")
  | x :: rest => Ok (fold_left f rest x)
  end.

(** [lambda x, y: f'{x} {y}'] *)
Definition fmt (x y : string) : string := (x ++ " " ++ y)%string.

(** [reduce(lambda x, y: f'{x} {y}', [x[i] for x in los])], the line the
    source comments as "Create bag of words"; [field] is [fst] for [x[0]]
    and [snd] for [x[1]]. *)
Definition bag_of_words (field : item -> string) (los : pyitems) : result string :=
  xs <- elements los ;;
  reduce fmt (map field xs).

(** ** The default analyzer of [TfidfVectorizer]

    [lowercase=True] and [token_pattern=r"(?u)\b\w\w+\b"]: the document is
    lower-cased and its tokens are the maximal runs of word characters that
    are at least two characters long. *)

Definition in_range (lo hi n : N) : bool := (N.leb lo n && N.leb n hi)%bool.

(** [\w] on U+0000..U+00FF: [ch.isalnum() or ch == '_']. *)
Definition is_word_char (c : ascii) : bool :=
  let n := N_of_ascii c in
  (in_range 48 57 n || in_range 65 90 n || N.eqb n 95 || in_range 97 122 n
   || N.eqb n 170 || in_range 178 179 n || N.eqb n 181 || in_range 185 186 n
   || in_range 188 190 n || in_range 192 214 n || in_range 216 246 n
   || in_range 248 255 n)%bool.

(** [str.lower] on one character of U+0000..U+00FF. *)
Definition lower_char (c : ascii) : ascii :=
  let n := N_of_ascii c in
  if (in_range 65 90 n || in_range 192 214 n || in_range 216 222 n)%bool
  then ascii_of_N (n + 32)
  else c.

Fixpoint lower (s : string) : string :=
  match s with
  | EmptyString => EmptyString
  | String c s' => String (lower_char c) (lower s')
  end.

(** A finished run of word characters is a token when [\w\w+] fits it. *)
Definition emit (run : string) : list string :=
  if (2 <=? String.length run)%nat then [run] else [].

(** [token_pattern.findall]: [run] is the run of word characters read so far. *)
Fixpoint findall (run : string) (s : string) : list string :=
  match s with
  | EmptyString => emit run
  | String c s' =>
      if is_word_char c
      then findall (run ++ String c EmptyString)%string s'
      else emit run ++ findall EmptyString s'
  end.

(** [build_analyzer()(doc)]: preprocess, then tokenize; unigrams only. *)
Definition analyze (doc : string) : list string := findall EmptyString (lower doc).

(** ** Vocabulary

    [CountVectorizer] collects the distinct tokens of all documents; an
    empty vocabulary is an error. [_count_vocab] numbers a term when it
    meets it for the first time and sorts the entries of every row by these
    numbers ([X.sort_indices()]); [_sort_features] then renumbers the terms
    in sorted order ([sorted(vocabulary.items())]) and renames the indices
    of the stored entries, which leaves the entries where they are. *)

Fixpoint insert_sorted (t : string) (l : list string) : list string :=
  match l with
  | [] => [t]
  | u :: l' => if String.leb t u then t :: l else u :: insert_sorted t l'
  end.

Definition sort_terms (l : list string) : list string :=
  fold_right insert_sorted [] l.

Definition vocabulary (docs : list (list string)) : list string :=
  sort_terms (nodup string_dec (List.concat docs)).

(** The distinct tokens in the order of their first occurrence. *)
Fixpoint first_seen (tokens : list string) : list string :=
  match tokens with
  | [] => []
  | t :: rest => t :: filter (fun u => negb (String.eqb u t)) (first_seen rest)
  end.

(** The order in which the entries of a row are stored: the terms as
    [_count_vocab] numbers them, the documents being read one after the
    other. *)
Definition storage_order (docs : list (list string)) : list string :=
  first_seen (List.concat docs).

(** The order of [sorted] on terms, as a relation. *)
Definition term_le (a b : string) : Prop := String.leb a b = true.

(** ** Float64 arithmetic as a parameter *)

Record Float64Model : Type := {
  F :> Type;
  f_of_nat : nat -> F;          (* exact conversion of a count *)
  f_add : F -> F -> F;
  f_mul : F -> F -> F;
  f_div : F -> F -> F;
  f_sqrt : F -> F;
  f_log : F -> F;               (* [np.log] *)
  f_eq0 : F -> bool;            (* [x == 0.0] *)
  f_le : F -> F -> Prop
}.

Section Similarity.

Variable M : Float64Model.

Local Notation "x +. y" := (f_add M x y) (at level 50, left associativity).
Local Notation "x *. y" := (f_mul M x y) (at level 40, left associativity).
Local Notation "x /. y" := (f_div M x y) (at level 40, left associativity).

(** A row of a CSR matrix: the stored entries, in the order in which they
    are stored. A column is named by its term. The entries of a row are
    stored in the order of the first occurrence of their terms in the
    documents ([storage_order]), as [CountVectorizer] leaves them and as
    [X.data *= idf[X.indices]] and the row slices keep them. The order
    decides in which order the squares and the products are added, so it
    matters to the roundings of [IEEEModel]. *)
Definition row : Type := list (string * M).

(** Number of documents that contain the term ([_document_frequency]). *)
Definition document_frequency (docs : list (list string)) (t : string) : nat :=
  List.length (filter (fun d => existsb (String.eqb t) d) docs).

(** [idf = np.log((1 + n_samples) / (1 + df)) + 1] ([smooth_idf=True]). *)
Definition idf (docs : list (list string)) (t : string) : M :=
  f_log M (f_of_nat M (1 + List.length docs)
           /. f_of_nat M (1 + document_frequency docs t))
  +. f_of_nat M 1.

(** Term counts of one document, as a sparse row; [order] lists the terms
    in storage order. *)
Definition count_row (order : list string) (d : list string) : list (string * nat) :=
  flat_map (fun t =>
              let c := count_occ string_dec d t in
              if (c =? 0)%nat then [] else [(t, c)]) order.

(** The tf-idf weights: each stored count, as a float64, times the idf of
    its column. *)
Definition tfidf_row (docs : list (list string)) (r : list (string * nat)) : row :=
  map (fun e => (fst e, f_of_nat M (snd e) *. idf docs (fst e))) r.

(** [inplace_csr_row_normalize_l2]: sum of squares in storage order, square
    root, one division per stored entry; a row whose sum is zero is left. *)
Definition sum_squares (r : row) : M :=
  fold_left (fun acc e => acc +. snd e *. snd e) r (f_of_nat M 0).

Definition normalize_l2 (r : row) : row :=
  let s := sum_squares r in
  if f_eq0 M s then r
  else let n := f_sqrt M s in map (fun e => (fst e, snd e /. n)) r.

(** [TfidfVectorizer().fit_transform(raw_documents)] *)
Definition fit_transform (raw_documents : list string) : result (list row) :=
  let docs := map analyze raw_documents in
  match vocabulary docs with
  | [] => Raise (ValueError
                   "empty vocabulary; perhaps the documents only contain stop words")
  | _ :: _ =>
      Ok (map (fun d => normalize_l2
                          (tfidf_row docs (count_row (storage_order docs) d)))
              docs)
  end.

(** The entry of a row in the column of term [t]. *)
Fixpoint lookup (t : string) (r : row) : option M :=
  match r with
  | [] => None
  | (u, v) :: r' => if String.eqb t u then Some v else lookup t r'
  end.

(** One entry of the sparse product [X @ Y.T]: the products of the entries
    stored in both rows, added up in the storage order of [x]. *)
Definition dot (x y : row) : M :=
  fold_left (fun acc e =>
               match lookup (fst e) y with
               | Some b => acc +. snd e *. b
               | None => acc
               end) x (f_of_nat M 0).

(** [linear_kernel(X, Y)], dense. *)
Definition linear_kernel (X Y : list row) : list (list M) :=
  map (fun x => map (dot x) Y) X.

Definition get_long_text_cosine_distance (los1 los2 : pyitems) : result (pynum M) :=
  if (type_is_float los1 || type_is_float los2)%bool then Ok (PyInt 0) else
  n1 <- len los1 ;;
  if (n1 =? 0)%nat then Ok (PyInt 0) else
  n2 <- len los2 ;;
  if (n2 =? 0)%nat then Ok (PyInt 0) else
  doc1 <- bag_of_words fst los1 ;;
  doc2 <- bag_of_words fst los2 ;;
  tfidf <- fit_transform [doc1; doc2] ;;
  cos_dist <- item_at (flatten (linear_kernel (slice 0 1 tfidf) (slice 1 2 tfidf))) 0 ;;
  Ok (NpFloat64 cos_dist).

Definition get_short_text_cosine_distance (los1 los2 : pyitems) : result (pynum M) :=
  if (type_is_float los1 || type_is_float los2)%bool then Ok (PyInt 0) else
  n1 <- len los1 ;;
  if (n1 =? 0)%nat then Ok (PyInt 0) else
  n2 <- len los2 ;;
  if (n2 =? 0)%nat then Ok (PyInt 0) else
  doc1 <- bag_of_words snd los1 ;;
  doc2 <- bag_of_words snd los2 ;;
  tfidf <- fit_transform [doc1; doc2] ;;
  cos_dist <- item_at (flatten (linear_kernel (slice 0 1 tfidf) (slice 1 2 tfidf))) 0 ;;
  Ok (NpFloat64 cos_dist).

End Similarity.

(** ** The score as a function of the two token lists

    The same computation, with the rows written as functions on the
    vocabulary; the lemmas [fitted_row] and [score_of_lists] relate it to
    [fit_transform] and to the two similarity functions. *)

Section Score.

Variable M : Float64Model.

(** The row that stores [f t] in the column of each term [t] where [f] is
    defined, in the order of [vocab]. *)
Definition sparse (vocab : list string) (f : string -> option M) : row M :=
  flat_map (fun t => match f t with
                     | Some v => [(t, v)]
                     | None => []
                     end) vocab.

(** The tf-idf weight of a term in a document, before normalization. *)
Definition weight (docs : list (list string)) (d : list string) (t : string)
  : option M :=
  let c := count_occ string_dec d t in
  if (c =? 0)%nat then None
  else Some (f_mul M (f_of_nat M c) (idf M docs t)).

(** What [normalize_l2] does to each stored value of the row [r]. *)
Definition scale_of (r : row M) : M -> M :=
  let s := sum_squares M r in
  if f_eq0 M s then fun v => v
  else fun v => f_div M v (f_sqrt M s).

(** The weight of a term in a document, after normalization. *)
Definition unit_weight (docs : list (list string)) (vocab : list string)
  (d : list string) (t : string) : option M :=
  option_map (scale_of (sparse vocab (weight docs d))) (weight docs d t).

(** One step of the sparse product, column by column. *)
Definition dot_step (f g : string -> option M) (acc : M) (t : string) : M :=
  match f t, g t with
  | Some a, Some b => f_add M acc (f_mul M a b)
  | _, _ => acc
  end.

Definition score_of_tokens (d1 d2 : list string) : result (pynum M) :=
  match vocabulary [d1; d2] with
  | [] => Raise (ValueError
                   "empty vocabulary; perhaps the documents only contain stop words")
  | _ :: _ =>
      let order := storage_order [d1; d2] in
      Ok (NpFloat64
            (fold_left (dot_step (unit_weight [d1; d2] order d1)
                                 (unit_weight [d1; d2] order d2))
                       order (f_of_nat M 0)))
  end.

End Score.

(** ** Two models of float64 *)

(** Exact arithmetic: the value each float64 operation rounds. *)
Definition RealModel : Float64Model := {|
  F := R;
  f_of_nat := INR;
  f_add := Rplus;
  f_mul := Rmult;
  f_div := Rdiv;
  f_sqrt := sqrt;
  f_log := ln;
  f_eq0 := fun x => if Req_dec_T x 0 then true else false;
  f_le := Rle
|}.

(** A count as a float64; exact below [2^53]. *)
Fixpoint float_of_nat (n : nat) : float :=
  match n with
  | O => 0%float
  | S k => (float_of_nat k + 1)%float
  end.

(** [np.log] at the arguments a fit on two documents can pass to it:
    [(1 + 2) / (1 + df)] is [1.5] for [df = 1] and [1.0] for [df = 2]. *)
Definition float_log (x : float) : float :=
  if (x =? 1)%float then 0%float
  else if (x =? 1.5)%float then 0x1.9f323ecbf984cp-2%float
  else nan.

(** IEEE 754 binary64, round to nearest even, one rounding per operation. *)
Definition IEEEModel : Float64Model := {|
  F := float;
  f_of_nat := float_of_nat;
  f_add := PrimFloat.add;
  f_mul := PrimFloat.mul;
  f_div := PrimFloat.div;
  f_sqrt := PrimFloat.sqrt;
  f_log := float_log;
  f_eq0 := fun x => (x =? 0)%float;
  f_le := fun x y => (x <=? y)%float = true
|}.

(** Sums of reals, and the value of a column that may be empty. *)
Definition Rsum (l : list R) : R := fold_right Rplus 0%R l.

Definition val (o : option R) : R :=
  match o with
  | Some a => a
  | None => 0%R
  end.

(** ** Loader *)

(** A cell of an object column as [pd.read_csv] leaves it: the text of the
    field, or the float [nan] for an empty field. *)
Inductive csv_cell : Type :=
| CellStr (s : string)
| CellNaN.

(** A table by columns: label and data, in column order. *)
Definition DataFrame (A : Type) : Type := list (string * list A).

Definition has_label (labels : list string) (l : string) : bool :=
  existsb (String.eqb l) labels.

(** [df.drop(columns=labels)] with the default [errors='raise']: every
    label has to be a column of the table. The message of the exception,
    which lists labels, is shortened. *)
Definition drop_columns {A : Type} (labels : list string) (df : DataFrame A)
  : result (DataFrame A) :=
  match filter (fun l => negb (has_label (map fst df) l)) labels with
  | [] => Ok (filter (fun col => negb (has_label labels (fst col))) df)
  | _ :: _ => Raise (KeyError "labels not found in axis")
  end.

(** The three columns the script drops. *)
Definition isk_columns : list string :=
  ["HighSlotISK"; "MidSlotISK"; "LowSlotISK"]%string.

Section Loader.

(** Python's own parser and constant folder for the text of a literal
    ([ast.parse(s, mode='eval')] followed by the conversion of the tree),
    restricted to the values of the data model. *)
Variable parse_literal : string -> result pyitems.

(** [ast.literal_eval(node_or_string)]: a [str] is parsed; anything else
    that is not a syntax tree is a malformed node. *)
Definition literal_eval (node_or_string : csv_cell) : result pyitems :=
  match node_or_string with
  | CellStr s => parse_literal s
  | CellNaN => Raise (ValueError "malformed node or string: nan")
  end.

(** [series.apply(func)]: [func] on every cell, in order. *)
Definition apply {A B : Type} (func : A -> result B) (series : list A)
  : result (list B) :=
  mapM func series.

(** [df['items'].apply(literal_eval)] *)
Definition convert_items (col : list csv_cell) : result (list pyitems) :=
  apply literal_eval col.

End Loader.

(** ** Grouper *)

(** A row of the table after loading; [other] are the columns the script
    only passes through. A row whose [character_id] field is empty has
    none ([nan] in the table). *)
Record Row : Type := {
  killmail_id : Z;
  character_id : option Z;
  items : pyitems;
  other : list string
}.

Fixpoint insert_key (k : Z) (l : list Z) : list Z :=
  match l with
  | [] => [k]
  | j :: l' =>
      if (k <? j)%Z then k :: l
      else if (k =? j)%Z then l
      else j :: insert_key k l'
  end.

(** The row has the key [k]. *)
Definition has_key (k : Z) (r : Row) : bool :=
  match character_id r with
  | Some c => (c =? k)%Z
  | None => false
  end.

(** The row has a key. *)
Definition has_character (r : Row) : bool :=
  match character_id r with
  | Some _ => true
  | None => false
  end.

(** The keys of the rows that have one, in table order. *)
Definition present_keys (df : list Row) : list Z :=
  flat_map (fun r => match character_id r with
                     | Some c => [c]
                     | None => []
                     end) df.

(** The distinct grouping keys, in sorted order ([sort=True]); a missing
    key is no key ([dropna=True]). *)
Definition group_keys (df : list Row) : list Z :=
  fold_right insert_key [] (present_keys df).

(** [df.groupby('character_id')], as the [for name, gp in groupby] loop sees
    it: one group per key, keys ascending, rows in table order; the rows
    without a key are in no group. *)
Definition groupby (df : list Row) : list (Z * list Row) :=
  map (fun k => (k, filter (has_key k) df)) (group_keys df).

(** [values.take(indexer)] *)
Definition take {A : Type} (values : list A) (indexer : list nat) : list A :=
  flat_map (fun i => match nth_error values i with
                     | Some v => [v]
                     | None => []
                     end) indexer.

(** What [argsort] promises whatever its [kind]: its result lists every
    position once and the keys read in that order ascend. The default
    [kind='quicksort'] promises nothing on the order of equal keys. *)
Definition argsort_spec (argsort : list Z -> list nat) : Prop :=
  forall keys : list Z,
    Permutation (argsort keys) (seq 0 (List.length keys)) /\
    Sorted Z.le (take keys (argsort keys)).

(** [s.shift()]: every value one position down, [nan] in front. *)
Definition shift (s : list pyitems) : list pyitems :=
  match s with
  | [] => []
  | _ :: _ => PyFloat PrimFloat.nan :: removelast s
  end.

(** [pd.concat(objs)] on tables with the same columns. *)
Definition pd_concat {A : Type} (objs : list (list A)) : result (list A) :=
  match objs with
  | [] => Raise (ValueError "No objects to concatenate")
  | _ :: _ => Ok (List.concat objs)
  end.

(** ** Pairwise similarity engine and writer *)

Section Pipeline.

Variable M : Float64Model.

(** [numpy.argsort] behind [sort_values], default [kind]. *)
Variable argsort : list Z -> list nat.

(** A row of a processed group: the row and its two new cells. *)
Record ScoredRow : Type := {
  base : Row;
  cos_dist_st : pynum M;
  cos_dist_lt : pynum M
}.

(** [gp.sort_values(by=['killmail_id']).reset_index().drop('index', axis=1)]:
    with one key, pandas takes the rows in the order of
    [argsort(keys, kind='quicksort')]; the two calls that follow renumber
    the row labels, which the rows here do not carry. *)
Definition sort_values (gp : list Row) : list Row :=
  take gp (argsort (map killmail_id gp)).

(** The loop that fills [pairs]. *)
Definition make_pairs (gp : list Row) : result (list (pyitems * pyitems)) :=
  let items1 := map items gp in
  let items2 := shift (map items gp) in
  mapM (fun i =>
          los1 <- item_at items1 i ;;
          los2 <- item_at items2 i ;;
          Ok (los2, los1))
       (seq 1 (List.length gp - 1)).

(** The loop over [pairs] that appends to the two series. *)
Fixpoint distance_series (pairs : list (pyitems * pyitems))
  (cos_dist_lt cos_dist_st : list (pynum M))
  : result (list (pynum M) * list (pynum M)) :=
  match pairs with
  | [] => Ok (cos_dist_lt, cos_dist_st)
  | p :: rest =>
      lt <- get_long_text_cosine_distance M (fst p) (snd p) ;;
      st <- get_short_text_cosine_distance M (fst p) (snd p) ;;
      distance_series rest (cos_dist_lt ++ [lt]) (cos_dist_st ++ [st])
  end.

(** The two [gp.insert] calls: a column has to be as long as the table. *)
Definition insert_scores (gp : list Row) (lt st : list (pynum M))
  : result (list ScoredRow) :=
  if ((List.length lt =? List.length gp) && (List.length st =? List.length gp))%nat%bool
  then Ok (map (fun e => {| base := fst e; cos_dist_st := fst (snd e);
                            cos_dist_lt := snd (snd e) |})
               (combine gp (combine st lt)))
  else Raise (ValueError "Length of values does not match length of index").

(** The body of [for name, gp in groupby], from [pairs = []] on. *)
Definition score_group (gp : list Row) : result (list ScoredRow) :=
  pairs <- make_pairs gp ;;
  series <- distance_series pairs [NpNaN] [NpNaN] ;;
  insert_scores gp (fst series) (snd series).

(** The body of [for name, gp in groupby]. *)
Definition process_group (group : list Row) : result (list ScoredRow) :=
  score_group (sort_values group).

(** From the grouping to [df_res]. *)
Definition run (df : list Row) : result (list ScoredRow) :=
  groups <- mapM (fun g => process_group (snd g)) (groupby df) ;;
  pd_concat groups.

End Pipeline.

(** ** Vocabulary of the statements *)

(** The degenerate inputs of the two guards: a float, or a list of length
    zero. *)
Definition missing_or_empty (v : pyitems) : Prop :=
  match v with
  | PyFloat _ => True
  | PyList l => l = []
  end.

(** A score between 0 and 1, ends included. *)
Definition in_unit_interval (M : Float64Model) (v : pynum M) : Prop :=
  match v with
  | PyInt z => (0 <= z <= 1)%Z
  | NpFloat64 x => f_le M (f_of_nat M 0) x /\ f_le M x (f_of_nat M 1)
  | NpNaN => False
  end.

(** Two sorts that keep the promise of [argsort]: insertion that puts a key
    in front of the keys equal to it, or behind them. *)
Fixpoint insert_by (before : Z -> Z -> bool) (e : Z * nat) (l : list (Z * nat))
  : list (Z * nat) :=
  match l with
  | [] => [e]
  | x :: l' => if before (fst e) (fst x) then e :: l else x :: insert_by before e l'
  end.

Definition argsort_by (before : Z -> Z -> bool) (keys : list Z) : list nat :=
  map snd (fold_right (insert_by before) [] (combine keys (seq 0 (List.length keys)))).

(** Equal keys stay in table order. *)
Definition argsort_stable : list Z -> list nat := argsort_by Z.leb.

(** Equal keys come out in reverse table order. *)
Definition argsort_ties_reversed : list Z -> list nat := argsort_by Z.ltb.

(** A table without [LowSlotISK]. *)
Definition table_without_low_slot : DataFrame csv_cell :=
  [("killmail_id", [CellStr "1"]);
   ("character_id", [CellStr "90000001"]);
   ("items", [CellStr "[['Rifle', 'Gun']]"]);
   ("HighSlotISK", [CellStr "10.0"]);
   ("MidSlotISK", [CellStr "20.0"])]%string.

(** A table with the three columns. *)
Definition table_with_isk : DataFrame csv_cell :=
  [("killmail_id", [CellStr "1"]);
   ("HighSlotISK", [CellStr "10.0"]);
   ("character_id", [CellStr "90000001"]);
   ("MidSlotISK", [CellStr "20.0"]);
   ("LowSlotISK", [CellNaN]);
   ("items", [CellStr "[['Rifle', 'Gun']]"])]%string.

(** Rows with the same [killmail_id] are in the same order in both lists. *)
Definition keeps_tie_order (original sorted : list Row) : Prop :=
  forall k : Z,
    filter (fun r => (killmail_id r =? k)%Z) sorted
    = filter (fun r => (killmail_id r =? k)%Z) original.

(** Two killmails of one character under the same [killmail_id]. *)
Definition tied_group : list Row :=
  [ {| killmail_id := 7; character_id := Some 1%Z; items := PyList []; other := ["first"%string] |};
    {| killmail_id := 7; character_id := Some 1%Z; items := PyList []; other := ["second"%string] |} ].

(** Three killmails of one character, out of order. *)
Definition sample_group : list Row :=
  [ {| killmail_id := 30; character_id := Some 1%Z; items := PyList []; other := [] |};
    {| killmail_id := 10; character_id := Some 1%Z;
       items := PyList [("Heavy Pulse Laser", "Energy Turret");
                        ("Armor Plate", "Armor Reinforcer")]%string; other := [] |};
    {| killmail_id := 20; character_id := Some 1%Z;
       items := PyList [("Heavy Pulse Laser", "Energy Turret")%string]; other := [] |} ].

(** Killmails of two characters, interleaved. *)
Definition sample_table : list Row :=
  [ {| killmail_id := 5; character_id := Some 20%Z;
       items := PyList [("Rifle", "Gun")%string]; other := [] |};
    {| killmail_id := 2; character_id := Some 10%Z;
       items := PyList [("Rifle", "Gun")%string]; other := [] |};
    {| killmail_id := 1; character_id := Some 10%Z;
       items := PyList [("Rifle", "Gun")%string]; other := [] |};
    {| killmail_id := 4; character_id := Some 20%Z; items := PyList []; other := [] |} ].

(** Item lists of the examples. *)
Definition laser_only : list item :=
  [("Heavy Pulse Laser", "Energy Turret")]%string.

Definition laser_and_plate : list item :=
  [("Heavy Pulse Laser", "Energy Turret"); ("Armor Plate", "Armor Reinforcer")]%string.

Definition plate_and_laser : list item :=
  [("Armor Plate", "Armor Reinforcer"); ("Heavy Pulse Laser", "Energy Turret")]%string.

(** An item whose two texts hold no run of two word characters. *)
Definition one_letter_item : list item := [("X", "Y")]%string.

(** A float score within [2^-30] (less than [1e-9]) of 1. *)
Definition close_to_one (v : result (pynum IEEEModel)) : bool :=
  match v with
  | Ok (NpFloat64 x) => (PrimFloat.abs (x - 1) <=? 0x1p-30)%float
  | _ => false
  end.

(** The end-to-end example of the specification: character 100 with two
    killmails of the same single item, character 200 with one killmail. *)
Definition two_characters : list Row :=
  [ {| killmail_id := 3; character_id := Some 200%Z;
       items := PyList [("Armor", "Mod")%string]; other := [] |};
    {| killmail_id := 2; character_id := Some 100%Z;
       items := PyList [("Rifle", "Gun")%string]; other := [] |};
    {| killmail_id := 1; character_id := Some 100%Z;
       items := PyList [("Rifle", "Gun")%string]; other := [] |} ].

(** ** The sort behind [sort_values]

    [sort_values] is called without [kind], so the positions come from
    [numpy.argsort(keys, kind='quicksort')]: numpy's introsort on the array
    of positions ([aquicksort] in [npysort/quicksort]), which compares the
    keys at two positions with [<] only. A segment of more than 17
    positions is partitioned around the median of its first, middle and
    last key, the smaller part is continued and the larger one put on a
    stack; a segment of at most 17 positions is sorted by insertion; a
    segment taken from the stack after more than [2 * floor(log2 n)]
    partitions is sorted by heapsort.

    A position of the array is written with its key, so that the array is a
    list of entries; a segment is the list of its entries, and the
    segments on the stack, which do not overlap, are sorted one by one. *)

Definition entry : Type := (Z * nat)%type.

(** [v[a] < v[b]] *)
Definition key_lt (a b : entry) : bool := (fst a <? fst b)%Z.

(** *** Insertion sort *)

(** The inner loop: [rp] is the sorted part in front of [x], last entry
    first; the entries with a key above that of [x] move one place up. *)
Fixpoint insert_back (x : entry) (rp : list entry) : list entry :=
  match rp with
  | [] => [x]
  | y :: rp' => if key_lt x y then y :: insert_back x rp' else x :: rp
  end.

Definition insertion_sort (seg : list entry) : list entry :=
  rev (fold_left (fun rp x => insert_back x rp) seg []).

(** *** Partition *)

(** The longest run of entries that satisfy [p] at the front of a list, and
    the rest. *)
Fixpoint span (p : entry -> bool) (l : list entry) : list entry * list entry :=
  match l with
  | [] => ([], [])
  | x :: l' =>
      if p x then let (a, b) := span p l' in (x :: a, b) else ([], l)
  end.

(** The three conditional swaps on the first, the middle and the last
    entry. *)
Definition median3 (x0 xm xr : entry) : entry * entry * entry :=
  let (l1, m1) := if key_lt xm x0 then (xm, x0) else (x0, xm) in
  let (m2, r2) := if key_lt xr m1 then (xr, m1) else (m1, xr) in
  let (l3, m3) := if key_lt m2 l1 then (m2, l1) else (l1, m2) in
  (l3, m3, r2).

(** The loop [for (;;) { do ++pi while (v[*pi] < vp); do --pj while
    (vp < v[*pj]); if (pi >= pj) break; swap }] on the entries [m] between
    the two pointers: the result is what is left in front of [pi] and from
    [pi] on when the loop ends. The entries with a key below the pivot's
    at the front stay; behind them [pi] stops; the entries with a key
    above the pivot's at the back stay; in front of them [pj] stops; when
    [pj] is behind [pi] the two entries are exchanged and the loop goes on
    between them. *)
Fixpoint hoare (fuel : nat) (vp : Z) (m : list entry) : list entry * list entry :=
  match fuel with
  | O => (m, [])
  | S fuel' =>
      let (s, rest) := span (fun a => (fst a <? vp)%Z) m in
      match rest with
      | [] => (s, [])
      | x :: r =>
          let (g, rest') := span (fun a => (vp <? fst a)%Z) (rev r) in
          match rest' with
          | [] => (s, x :: r)
          | y :: m' =>
              let (lo, hi) := hoare fuel' vp (rev m') in
              (s ++ y :: lo, hi ++ x :: rev g)
          end
      end
  end.

Definition no_entry : entry := (0%Z, 0%nat).

(** One partition of a segment of at least four entries: the part in front
    of the pivot, the pivot, the part behind it. The pivot is parked at the
    last place but one during the loop and exchanged with the entry at [pi]
    at the end. *)
Definition partition (seg : list entry) : list entry * entry * list entry :=
  let n := List.length seg in
  let m := (n - 1) / 2 in
  let '(l, p, r) := median3 (nth 0 seg no_entry) (nth m seg no_entry)
                            (nth (n - 1) seg no_entry) in
  let mid := firstn (m - 1) (skipn 1 seg) ++ nth (n - 2) seg no_entry
             :: firstn (n - 3 - m) (skipn (m + 1) seg) in
  let (lo, hi) := hoare (List.length mid) (fst p) mid in
  (l :: lo, p, match hi with
               | [] => [r]
               | h :: hs => hs ++ [h; r]
               end).

(** *** Heapsort, the fallback *)

(** [a[k]] and [a[k] = x] with [a = tosort - 1]: places count from 1. *)
Definition get1 (a : list entry) (k : nat) : entry := nth (k - 1) a no_entry.

Definition set1 (a : list entry) (k : nat) (x : entry) : list entry :=
  firstn (k - 1) a ++ x :: skipn k a.

(** The loop [for (i = l, j = l << 1; j <= n;) ...] followed by
    [a[i] = tmp]. *)
Fixpoint sift (fuel : nat) (a : list entry) (n : nat) (tmp : entry) (i : nat)
  : list entry :=
  match fuel with
  | O => set1 a i tmp
  | S fuel' =>
      let j := 2 * i in
      if j <=? n then
        let j := if (j <? n) && key_lt (get1 a j) (get1 a (j + 1))
                 then j + 1 else j in
        if key_lt tmp (get1 a j)
        then sift fuel' (set1 a i (get1 a j)) n tmp j
        else set1 a i tmp
      else set1 a i tmp
  end.

(** [for (l = n >> 1; l > 0; --l)] *)
Fixpoint heapify (l : nat) (a : list entry) (n : nat) : list entry :=
  match l with
  | O => a
  | S l' => heapify l' (sift n a n (get1 a l) l) n
  end.

(** [for (; n > 1;)] *)
Fixpoint extract (n : nat) (a : list entry) : list entry :=
  match n with
  | O => a
  | S n' =>
      if 1 <? n
      then extract n' (sift n' (set1 a n (get1 a 1)) n' (get1 a n) 1)
      else a
  end.

Definition aheapsort (a : list entry) : list entry :=
  let n := List.length a in
  extract n (heapify (n / 2) a n).

(** *** The driver *)

(** A segment with its depth budget. [check] says that the segment comes
    from the stack (or is the whole array), where the budget is tested;
    the part that the inner loop continues with is not tested. *)
Fixpoint sort_segment (fuel : nat) (check : bool) (cdepth : Z) (seg : list entry)
  : list entry :=
  if (check && (cdepth <? 0)%Z)%bool then aheapsort seg else
  match fuel with
  | O => insertion_sort seg
  | S fuel' =>
      if (16 <? List.length seg - 1)%nat then
        let '(L, p, R) := partition seg in
        let cd := (cdepth - 1)%Z in
        if (List.length L <? List.length R)%nat
        then sort_segment fuel' false cd L ++ p :: sort_segment fuel' true cd R
        else sort_segment fuel' true cd L ++ p :: sort_segment fuel' false cd R
      else insertion_sort seg
  end.

(** [npy_get_msb] *)
Definition npy_get_msb (n : nat) : Z := Z.log2 (Z.of_nat n).

(** [numpy.argsort(keys, kind='quicksort')] on integer keys. *)
Definition numpy_argsort (keys : list Z) : list nat :=
  let n := List.length keys in
  map snd (sort_segment n true (2 * npy_get_msb n) (combine keys (seq 0 n))).

(** Order of the keys, and what [aheapsort] maintains: positions are counted
    from 1 as in the C code ([a = tosort - 1]); position [k] of a heap holds
    a key at least as large as those of its children [2k] and [2k + 1]. *)
Definition key_le (a b : entry) : Prop := (fst a <= fst b)%Z.

Definition key_at (a : list entry) (k : nat) : Z := fst (get1 a k).

Definition heap_at (a : list entry) (n k : nat) : Prop :=
  (2 * k <= n -> (key_at a (2 * k) <= key_at a k)%Z) /\
  (2 * k + 1 <= n -> (key_at a (2 * k + 1) <= key_at a k)%Z).

Definition heap_from (a : list entry) (lo n : nat) : Prop :=
  forall k, lo <= k -> k <= n -> heap_at a n k.

(** ** Vocabulary of further statements *)

(** A list with at least one item: the inputs that pass both guards. *)
Definition has_items (los : pyitems) : Prop :=
  match los with
  | PyList (_ :: _) => True
  | _ => False
  end.

(** The tokens of the document that a similarity function builds from an
    item list; [field] selects the text. *)
Definition document_tokens (field : item -> string) (los : pyitems) : list string :=
  match los with
  | PyList l => analyze (String.concat " " (map field l))
  | PyFloat _ => []
  end.

(** The fit of [[doc1, doc2]] and the fit of [[doc2, doc1]] store the terms
    in the same order; [d1] and [d2] are the tokens of the two documents.
    It is so when the distinct tokens of one document, in the order of
    their first occurrence, are the first distinct tokens of the other. *)
Definition same_storage_order (d1 d2 : list string) : Prop :=
  storage_order [d1; d2] = storage_order [d2; d1].

(** The row of the first document in the matrix that [fit_transform]
    returns for two documents with the tokens [d1] and [d2]. *)
Definition first_row (M : Float64Model) (d1 d2 : list string) : row M :=
  normalize_l2 M (tfidf_row M [d1; d2] (count_row (storage_order [d1; d2]) d1)).

(** Both texts of an item in lower case. *)
Definition lower_item (x : item) : item := (lower (fst x), lower (snd x)).

(** The message of the vectorizer on a vocabulary without terms. *)
Definition empty_vocabulary : exn :=
  ValueError "empty vocabulary; perhaps the documents only contain stop words".

(** The message of [pd.concat] on an empty list. *)
Definition no_objects : exn := ValueError "No objects to concatenate".

(** An item list on which vectorization cannot fail: missing, empty, or with
    a token in each of its two documents. *)
Definition scorable (los : pyitems) : Prop :=
  has_items los ->
  document_tokens fst los <> [] /\ document_tokens snd los <> [].

(** Item lists of the examples. *)
Definition heavy_laser : list item :=
  [("Heavy Pulse Laser", "Large Energy Turret")]%string.

Definition pulse_laser : list item :=
  [("Pulse Laser", "Energy Turret")]%string.

Definition pulse_laser_and_plate : list item :=
  [("Pulse Laser", "Energy Turret"); ("Armor Plate", "Armor Reinforcer")]%string.

Definition two_lasers_first : list item :=
  [("Laser", "Turret"); ("Laser", "Turret");
   ("Armor", "Plate"); ("Shield", "Booster")]%string.

Definition two_armors_last : list item :=
  [("Shield", "Booster"); ("Laser", "Turret");
   ("Armor", "Plate"); ("Armor", "Plate")]%string.

Definition plate_only : list item :=
  [("Armor Plate", "Armor Reinforcer")]%string.

Definition laser_upper_case : list item :=
  [("HEAVY PULSE LASER", "ENERGY TURRET")]%string.

(** Two lists with items whose documents, for the chosen text, both hold no
    token. *)
Definition tokenless_pair (field : item -> string) (los1 los2 : pyitems) : Prop :=
  has_items los1 /\ has_items los2 /\
  document_tokens field los1 = [] /\ document_tokens field los2 = [].

(** What a similarity function does on two values of the data model, as
    the items and the tokens decide it: the integer 0 without items on one
    side, the [ValueError] of the vectorizer with items and no token, a
    float64 otherwise. *)
Definition outcome_by_tokens (M : Float64Model) (field : item -> string)
  (los1 los2 : pyitems) (res : result (pynum M)) : Prop :=
  (~ (has_items los1 /\ has_items los2) /\ res = Ok (PyInt 0)) \/
  (tokenless_pair field los1 los2 /\ res = Raise empty_vocabulary) \/
  (has_items los1 /\ has_items los2 /\ ~ tokenless_pair field los1 los2 /\
   exists x, res = Ok (NpFloat64 x)).

(** No token of the first document is a token of the second. *)
Definition no_shared_token (d1 d2 : list string) : Prop :=
  forall t, In t d1 -> ~ In t d2.

(** Two consecutive killmails of one character whose only item has texts of
    one letter. *)
Definition tokenless_table : list Row :=
  [ {| killmail_id := 1; character_id := Some 10%Z; items := PyList one_letter_item; other := [] |};
    {| killmail_id := 2; character_id := Some 10%Z; items := PyList one_letter_item; other := [] |} ].

(** A row without [character_id], and a table that holds it between two
    rows of two characters. *)
Definition keyless_row : Row :=
  {| killmail_id := 2; character_id := None;
     items := PyList [("Rifle", "Gun")%string]; other := [] |}.

Definition table_with_keyless_row : list Row :=
  [ {| killmail_id := 1; character_id := Some 10%Z;
       items := PyList [("Rifle", "Gun")%string]; other := [] |};
    keyless_row;
    {| killmail_id := 3; character_id := Some 20%Z;
       items := PyList [("Armor", "Mod")%string]; other := [] |} ].

(** ** The loader as a whole *)

(** A cell of the loaded table: a cell as read, or a converted [items]
    cell. *)
Inductive cell : Type :=
| Raw (c : csv_cell)
| Parsed (v : pyitems).

(** [df[label]]; the labels of a table read by [pd.read_csv] are distinct,
    so that the column is the first one under the label. *)
Definition getitem {A : Type} (label : string) (df : DataFrame A) : result (list A) :=
  match find (fun col => String.eqb (fst col) label) df with
  | Some col => Ok (snd col)
  | None => Raise (KeyError label)
  end.

(** [df[label] = values], for values as many as the table has rows: the
    column under the label is replaced where it stands, a new label is
    added at the end. *)
Definition setitem {A : Type} (label : string) (values : list A) (df : DataFrame A)
  : DataFrame A :=
  if has_label (map fst df) label
  then map (fun col => if String.eqb (fst col) label then (fst col, values) else col) df
  else df ++ [(label, values)].

(** The cells of a table as cells of the loaded table. *)
Definition as_objects (df : DataFrame csv_cell) : DataFrame cell :=
  map (fun col => (fst col, map Raw (snd col))) df.

Section Load.

Variable parse_literal : string -> result pyitems.

(** From [df.drop] to the assignment of the converted column. *)
Definition load (df : DataFrame csv_cell) : result (DataFrame cell) :=
  df1 <- drop_columns isk_columns df ;;
  col <- getitem "items" df1 ;;
  converted <- convert_items parse_literal col ;;
  Ok (setitem "items" (map Parsed converted) (as_objects df1)).

End Load.

(** A parser for the examples: it knows one text. *)
Definition parse_rifle (s : string) : result pyitems :=
  if String.eqb s "[['Rifle', 'Gun']]"
  then Ok (PyList [("Rifle", "Gun")%string])
  else Raise (ValueError "malformed node or string").

(** A table with the three columns and without [items]. *)
Definition table_without_items : DataFrame csv_cell :=
  [("killmail_id", [CellStr "1"]);
   ("HighSlotISK", [CellStr "10.0"]);
   ("MidSlotISK", [CellStr "20.0"]);
   ("LowSlotISK", [CellStr "30.0"])]%string.

(** ** The order of the rows of the table *)

(** No two rows of one character carry the same [killmail_id]. *)
Definition distinct_killmails (df : list Row) : Prop :=
  NoDup (map (fun r => (character_id r, killmail_id r)) df).

(** * Properties *)

(** ** The guards and the documents *)

Lemma append_assoc (a b c : string) : ((a ++ b) ++ c = a ++ (b ++ c))%string.
Proof.
  induction a as [|ch a IH]; simpl; [reflexivity | now rewrite IH].
Qed.

Lemma fold_fmt_concat (rest : list string) (x : string) :
  fold_left fmt rest x = String.concat " " (x :: rest).
Proof.
  revert x; induction rest as [|y rest IH]; intro x.
  - reflexivity.
  - cbn [fold_left]. rewrite IH. unfold fmt.
    destruct rest as [|z rest].
    + reflexivity.
    + cbn [String.concat]. now rewrite !append_assoc.
Qed.

(** C1. A pair with a float or a list of length zero on either side scores
    the integer 0 in both functions. Exceptions propagate through [bind], so
    the value [Ok (PyInt 0)] also says that neither [reduce] (which raises
    on an empty list) nor the vectorizer was evaluated. *)
Theorem degenerate_pair_scores_zero (M : Float64Model) (los1 los2 : pyitems) :
  missing_or_empty los1 \/ missing_or_empty los2 ->
  get_long_text_cosine_distance M los1 los2 = Ok (PyInt 0) /\
  get_short_text_cosine_distance M los1 los2 = Ok (PyInt 0).
Proof.
  unfold get_long_text_cosine_distance, get_short_text_cosine_distance.
  intros [H | H].
  - destruct los1 as [f | l]; cbn in H.
    + split; reflexivity.
    + subst l. destruct los2; split; reflexivity.
  - destruct los2 as [f | l]; cbn in H.
    + destruct los1; split; reflexivity.
    + subst l. destruct los1 as [f | [|x l1]]; split; reflexivity.
Qed.

Lemma degenerate_pair_scores_zero_witness :
  get_long_text_cosine_distance IEEEModel
    (PyFloat PrimFloat.nan) (PyList [("Rifle", "Gun")%string]) = Ok (PyInt 0) /\
  get_short_text_cosine_distance IEEEModel
    (PyFloat PrimFloat.nan) (PyList [("Rifle", "Gun")%string]) = Ok (PyInt 0).
Proof.
  apply (degenerate_pair_scores_zero IEEEModel
           (PyFloat PrimFloat.nan) (PyList [("Rifle", "Gun")%string])).
  left. simpl. exact I.
Defined.

(** C9. On a list with at least one item the document is built, by both
    functions, and is the chosen field of every item, in list order, joined
    by single spaces. *)
Theorem document_is_space_joined_fields (los : list item) :
  los <> [] ->
  bag_of_words fst (PyList los) = Ok (String.concat " " (map fst los)) /\
  bag_of_words snd (PyList los) = Ok (String.concat " " (map snd los)).
Proof.
  intro Hne. destruct los as [|x rest]; [contradiction|].
  unfold bag_of_words, reduce; cbn [elements bind map].
  now rewrite !fold_fmt_concat.
Qed.

Lemma document_is_space_joined_fields_witness :
  bag_of_words fst (PyList [("Heavy Pulse Laser", "Energy"); ("Armor Plate", "Armor")]%string)
    = Ok "Heavy Pulse Laser Armor Plate"%string /\
  bag_of_words snd (PyList [("Heavy Pulse Laser", "Energy"); ("Armor Plate", "Armor")]%string)
    = Ok "Energy Armor"%string.
Proof.
  apply (document_is_space_joined_fields
           [("Heavy Pulse Laser", "Energy"); ("Armor Plate", "Armor")]%string).
  discriminate.
Defined.

(** ** Tokens of a space-joined document *)

Lemma lower_app (a b : string) : lower (a ++ b) = (lower a ++ lower b)%string.
Proof. induction a as [|c a IH]; cbn; [reflexivity | now rewrite IH]. Qed.

Lemma findall_separator (a b : string) (c : ascii) :
  is_word_char c = false ->
  forall run, findall run (a ++ String c b) = findall run a ++ findall EmptyString b.
Proof.
  intro Hc. induction a as [|x a IH]; intro run; cbn [String.append findall].
  - now rewrite Hc.
  - destruct (is_word_char x); [apply IH|].
    rewrite IH. now rewrite app_assoc.
Qed.

Lemma analyze_join (x y : string) :
  analyze (x ++ " " ++ y) = analyze x ++ analyze y.
Proof.
  unfold analyze. rewrite lower_app. cbn [lower String.append].
  change (lower_char " ") with " "%char.
  now apply findall_separator.
Qed.

Lemma analyze_concat (l : list string) :
  analyze (String.concat " " l) = flat_map analyze l.
Proof.
  induction l as [|x l IH]; [reflexivity|].
  destruct l as [|y l].
  - cbn [String.concat flat_map]. now rewrite app_nil_r.
  - change (String.concat " " (x :: y :: l))
      with (x ++ " " ++ String.concat " " (y :: l))%string.
    rewrite analyze_join, IH. reflexivity.
Qed.

(** The tokens of the document depend on the items as a multiset. *)
Lemma analyze_Permutation (l l' : list string) :
  Permutation l l' ->
  Permutation (analyze (String.concat " " l)) (analyze (String.concat " " l')).
Proof.
  intro H. rewrite !analyze_concat. now apply Permutation_flat_map.
Qed.

(** ** The order of the vocabulary *)

Lemma leb_trans (a b c : string) :
  String.leb a b = true -> String.leb b c = true -> String.leb a c = true.
Proof.
  unfold String.leb. revert b c.
  induction a as [|x a IH]; intros [|y b] [|z c]; cbn [String.compare];
    try reflexivity; try discriminate.
  unfold Ascii.compare.
  destruct (N.compare_spec (N_of_ascii x) (N_of_ascii y)) as [Hxy|Hxy|Hxy];
    destruct (N.compare_spec (N_of_ascii y) (N_of_ascii z)) as [Hyz|Hyz|Hyz];
    destruct (N.compare_spec (N_of_ascii x) (N_of_ascii z)) as [Hxz|Hxz|Hxz];
    try reflexivity; try discriminate; try lia.
  apply IH.
Qed.

Lemma insert_sorted_Permutation (t : string) (l : list string) :
  Permutation (insert_sorted t l) (t :: l).
Proof.
  induction l as [|u l IH]; cbn [insert_sorted]; [reflexivity|].
  destruct (String.leb t u); [reflexivity|].
  rewrite IH. apply perm_swap.
Qed.

Lemma sort_terms_Permutation (l : list string) : Permutation (sort_terms l) l.
Proof.
  induction l as [|t l IH]; cbn [sort_terms fold_right]; [reflexivity|].
  rewrite insert_sorted_Permutation. now constructor.
Qed.

Lemma insert_sorted_HdRel (a t : string) (l : list string) :
  term_le a t -> HdRel term_le a l -> HdRel term_le a (insert_sorted t l).
Proof.
  intros Hat Hal. destruct l as [|u l]; cbn [insert_sorted].
  - now constructor.
  - destruct (String.leb t u); constructor; [assumption|]. now inversion Hal.
Qed.

Lemma insert_sorted_Sorted (t : string) (l : list string) :
  Sorted term_le l -> Sorted term_le (insert_sorted t l).
Proof.
  induction 1 as [|u l Hs IH Hhd]; cbn [insert_sorted].
  - repeat constructor.
  - destruct (String.leb t u) eqn:Htu.
    + constructor; [now constructor | now constructor].
    + constructor; [assumption|]. apply insert_sorted_HdRel; [|assumption].
      destruct (String.leb_total t u) as [H|H]; [congruence | exact H].
Qed.

Lemma sort_terms_Sorted (l : list string) : StronglySorted term_le (sort_terms l).
Proof.
  apply Sorted_StronglySorted.
  - intros a b c. apply leb_trans.
  - induction l as [|t l IH]; cbn [sort_terms fold_right]; [constructor|].
    now apply insert_sorted_Sorted.
Qed.

(** A list in order is determined by its elements. *)
Lemma sorted_Permutation_eq (l l' : list string) :
  StronglySorted term_le l -> StronglySorted term_le l' ->
  Permutation l l' -> l = l'.
Proof.
  intros Hl. revert l'. induction Hl as [|a l Hs IH Hall]; intros l' Hl' Hperm.
  - apply Permutation_nil in Hperm. now subst.
  - destruct l' as [|b l'].
    + symmetry in Hperm. apply Permutation_nil in Hperm. discriminate.
    + inversion Hl' as [|b0 l0 Hs' Hall']; subst.
      assert (Hab : a = b).
      { rewrite Forall_forall in Hall, Hall'.
        assert (Ha : In a (b :: l')) by (apply (Permutation_in _ Hperm); now left).
        assert (Hb : In b (a :: l))
          by (apply (Permutation_in _ (Permutation_sym Hperm)); now left).
        destruct Ha as [->|Ha]; [reflexivity|].
        destruct Hb as [->|Hb]; [reflexivity|].
        apply String.leb_antisym; [now apply Hall | now apply Hall']. }
      subst b. f_equal. apply IH; [assumption|].
      now apply Permutation_cons_inv in Hperm.
Qed.

Lemma sort_terms_canonical (l l' : list string) :
  Permutation l l' -> sort_terms l = sort_terms l'.
Proof.
  intro H. apply sorted_Permutation_eq; try apply sort_terms_Sorted.
  now rewrite !sort_terms_Permutation.
Qed.

Lemma vocabulary_NoDup (docs : list (list string)) : NoDup (vocabulary docs).
Proof.
  unfold vocabulary.
  apply (Permutation_NoDup (Permutation_sym (sort_terms_Permutation _))).
  apply NoDup_nodup.
Qed.

Lemma vocabulary_In (docs : list (list string)) (t : string) :
  In t (vocabulary docs) <-> In t (List.concat docs).
Proof.
  unfold vocabulary. rewrite <- (nodup_In string_dec (List.concat docs) t). split.
  - apply Permutation_in, sort_terms_Permutation.
  - apply Permutation_in, Permutation_sym, sort_terms_Permutation.
Qed.

(** The vocabulary depends on the set of tokens only. *)
Lemma vocabulary_ext (docs docs' : list (list string)) :
  (forall t, In t (List.concat docs) <-> In t (List.concat docs')) ->
  vocabulary docs = vocabulary docs'.
Proof.
  intro H. unfold vocabulary. apply sort_terms_canonical.
  apply NoDup_Permutation; try apply NoDup_nodup.
  intro t. now rewrite !nodup_In.
Qed.

Lemma vocabulary_swap (d1 d2 : list string) :
  vocabulary [d1; d2] = vocabulary [d2; d1].
Proof.
  apply vocabulary_ext. intro t. cbn [List.concat].
  rewrite !app_nil_r, !in_app_iff. tauto.
Qed.

Lemma vocabulary_nil (docs : list (list string)) :
  vocabulary docs = [] <-> List.concat docs = [].
Proof.
  split; intro H.
  - destruct (List.concat docs) as [|t ts] eqn:Hc; [reflexivity|].
    assert (Hin : In t (vocabulary docs)) by (apply vocabulary_In; rewrite Hc; now left).
    rewrite H in Hin. destruct Hin.
  - unfold vocabulary. now rewrite H.
Qed.

(** ** The storage order *)

Lemma first_seen_In (l : list string) (t : string) :
  In t (first_seen l) <-> In t l.
Proof.
  induction l as [|u l IH]; cbn [first_seen]; [reflexivity|].
  cbn [In]. rewrite filter_In, IH. split.
  - intros [H | [H _]]; [now left | now right].
  - intros [H | H]; [now left|].
    destruct (String.eqb_spec t u) as [Heq | Hne]; [left; now symmetry|].
    right. split; [assumption | reflexivity].
Qed.

Lemma first_seen_NoDup (l : list string) : NoDup (first_seen l).
Proof.
  induction l as [|u l IH]; cbn [first_seen]; constructor.
  - intro Hin. apply filter_In in Hin. destruct Hin as [_ Hne].
    now rewrite String.eqb_refl in Hne.
  - now apply NoDup_filter.
Qed.

Lemma filter_filter {A : Type} (p q : A -> bool) (l : list A) :
  filter p (filter q l) = filter (fun x => q x && p x)%bool l.
Proof.
  induction l as [|x l IH]; [reflexivity|].
  cbn [filter]. destruct (q x); cbn [filter andb]; [|exact IH].
  destruct (p x); now rewrite IH.
Qed.

(** Behind the terms of a first document come the new terms of the second,
    in the order of their first occurrence. *)
Lemma first_seen_app (a b : list string) :
  first_seen (a ++ b)
  = first_seen a ++ filter (fun u => negb (existsb (String.eqb u) a)) (first_seen b).
Proof.
  induction a as [|t a IH]; cbn [app first_seen existsb].
  - symmetry. apply filter_true.
  - cbn [app]. f_equal. rewrite IH, filter_app, filter_filter. f_equal.
    apply filter_ext. intro u. now rewrite negb_orb, andb_comm.
Qed.

Lemma storage_order_In (docs : list (list string)) (t : string) :
  In t (storage_order docs) <-> In t (List.concat docs).
Proof. apply first_seen_In. Qed.

Lemma storage_order_NoDup (docs : list (list string)) : NoDup (storage_order docs).
Proof. apply first_seen_NoDup. Qed.

(** With every term of the second document in the first, the storage order
    is that of the first document. *)
Lemma storage_order_incl (d1 d2 : list string) :
  incl d2 d1 -> storage_order [d1; d2] = first_seen d1.
Proof.
  intro Hincl. unfold storage_order. cbn [List.concat].
  rewrite app_nil_r, first_seen_app.
  rewrite (filter_ext_in _ (fun _ => false) (first_seen d2)).
  - rewrite filter_false. apply app_nil_r.
  - intros u Hu. apply first_seen_In, Hincl in Hu.
    apply negb_false_iff, existsb_exists. exists u. split; [assumption|].
    apply String.eqb_refl.
Qed.

(** ** Rows as functions on the vocabulary *)

Section Rows.

Variable M : Float64Model.

Lemma sparse_cons (t : string) (V : list string) (f : string -> option M) :
  sparse M (t :: V) f
  = match f t with Some v => [(t, v)] | None => [] end ++ sparse M V f.
Proof. reflexivity. Qed.

Lemma sparse_ext (V : list string) (f g : string -> option M) :
  (forall t, In t V -> f t = g t) -> sparse M V f = sparse M V g.
Proof.
  induction V as [|t V IH]; intro H; [reflexivity|].
  rewrite !sparse_cons, (H t) by now left.
  f_equal. apply IH. intros u Hu. apply H. now right.
Qed.

Lemma sparse_map (h : M -> M) (V : list string) (f : string -> option M) :
  map (fun e => (fst e, h (snd e))) (sparse M V f)
  = sparse M V (fun t => option_map h (f t)).
Proof.
  induction V as [|t V IH]; [reflexivity|].
  rewrite !sparse_cons, map_app, IH. now destruct (f t).
Qed.

Lemma weighted_row (docs : list (list string)) (V d : list string) :
  tfidf_row M docs (count_row V d) = sparse M V (weight M docs d).
Proof.
  unfold tfidf_row, count_row. induction V as [|t V IH]; [reflexivity|].
  rewrite sparse_cons. cbn [flat_map]. rewrite map_app, IH. f_equal.
  unfold weight. now destruct (count_occ string_dec d t =? 0)%nat.
Qed.

Lemma normalize_l2_map (r : row M) :
  normalize_l2 M r = map (fun e => (fst e, scale_of M r (snd e))) r.
Proof.
  unfold normalize_l2, scale_of. destruct (f_eq0 M (sum_squares M r)); [|reflexivity].
  rewrite <- (map_id r) at 1. apply map_ext. now intros [t v].
Qed.

(** The row of a document in the matrix that [fit_transform] returns. *)
Lemma fitted_row (docs : list (list string)) (V d : list string) :
  normalize_l2 M (tfidf_row M docs (count_row V d))
  = sparse M V (unit_weight M docs V d).
Proof.
  rewrite weighted_row, normalize_l2_map, sparse_map. reflexivity.
Qed.

Lemma lookup_sparse_notin (V : list string) (g : string -> option M) (t : string) :
  ~ In t V -> lookup M t (sparse M V g) = None.
Proof.
  induction V as [|u V IH]; intro Hn; [reflexivity|].
  rewrite sparse_cons.
  assert (Hne : t <> u) by (intro; subst; apply Hn; now left).
  assert (HV : ~ In t V) by (intro; apply Hn; now right).
  apply String.eqb_neq in Hne.
  destruct (g u); cbn [app lookup]; [rewrite Hne|]; now apply IH.
Qed.

Lemma lookup_sparse (V : list string) (g : string -> option M) (t : string) :
  In t V -> lookup M t (sparse M V g) = g t.
Proof.
  induction V as [|u V IH]; intro Hin; [destruct Hin|].
  rewrite sparse_cons.
  destruct (String.eqb_spec t u) as [Heq|Hne].
  - subst u. destruct (g t) as [v|] eqn:Hg; cbn [app lookup].
    + now rewrite String.eqb_refl.
    + destruct (in_dec string_dec t V) as [Hu|Hu].
      * now apply IH.
      * now apply lookup_sparse_notin.
  - destruct Hin as [Heq|Hin]; [congruence|].
    apply String.eqb_neq in Hne.
    destruct (g u); cbn [app lookup]; [rewrite Hne|]; now apply IH.
Qed.

Lemma dot_sparse_sub (V U : list string) (f g : string -> option M) (acc : M) :
  incl U V ->
  fold_left (fun a e => match lookup M (fst e) (sparse M V g) with
                        | Some b => f_add M a (f_mul M (snd e) b)
                        | None => a
                        end) (sparse M U f) acc
  = fold_left (dot_step M f g) U acc.
Proof.
  revert acc. induction U as [|t U IH]; intros acc Hincl; [reflexivity|].
  rewrite sparse_cons, fold_left_app. cbn [fold_left].
  rewrite <- IH by (intros u Hu; apply Hincl; now right).
  f_equal. unfold dot_step.
  destruct (f t) as [a|]; cbn [fold_left fst snd]; [|reflexivity].
  rewrite lookup_sparse by (apply Hincl; now left). reflexivity.
Qed.

Lemma dot_sparse (V : list string) (f g : string -> option M) :
  dot M (sparse M V f) (sparse M V g)
  = fold_left (dot_step M f g) V (f_of_nat M 0).
Proof. unfold dot. apply dot_sparse_sub. apply incl_refl. Qed.

(** What [fit_transform], the slices, [linear_kernel], [flatten] and the
    index compute from two documents. *)
Lemma score_of_documents (doc1 doc2 : string) :
  (tfidf <- fit_transform M [doc1; doc2] ;;
   cos_dist <- item_at (flatten (linear_kernel M (slice 0 1 tfidf) (slice 1 2 tfidf))) 0 ;;
   Ok (NpFloat64 cos_dist))
  = score_of_tokens M (analyze doc1) (analyze doc2).
Proof.
  unfold fit_transform, score_of_tokens. cbn [map].
  destruct (vocabulary [analyze doc1; analyze doc2]) as [|t V] eqn:HV; [reflexivity|].
  cbn [bind slice Nat.sub skipn firstn linear_kernel map flatten List.concat app
       item_at nth_error].
  rewrite !fitted_row, dot_sparse. reflexivity.
Qed.

(** Both similarity functions on two lists with at least one item. *)
Lemma score_of_lists (field : item -> string) (x1 x2 : item) (l1 l2 : list item) :
  (doc1 <- bag_of_words field (PyList (x1 :: l1)) ;;
   doc2 <- bag_of_words field (PyList (x2 :: l2)) ;;
   tfidf <- fit_transform M [doc1; doc2] ;;
   cos_dist <- item_at (flatten (linear_kernel M (slice 0 1 tfidf) (slice 1 2 tfidf))) 0 ;;
   Ok (NpFloat64 cos_dist))
  = score_of_tokens M
      (analyze (String.concat " " (map field (x1 :: l1))))
      (analyze (String.concat " " (map field (x2 :: l2)))).
Proof.
  unfold bag_of_words, reduce. cbn [elements bind map].
  rewrite !fold_fmt_concat. apply score_of_documents.
Qed.

Lemma get_long_nonempty (x1 x2 : item) (l1 l2 : list item) :
  get_long_text_cosine_distance M (PyList (x1 :: l1)) (PyList (x2 :: l2))
  = score_of_tokens M
      (analyze (String.concat " " (map fst (x1 :: l1))))
      (analyze (String.concat " " (map fst (x2 :: l2)))).
Proof.
  unfold get_long_text_cosine_distance.
  cbn [type_is_float orb len List.length Nat.eqb bind].
  apply (score_of_lists fst).
Qed.

Lemma get_short_nonempty (x1 x2 : item) (l1 l2 : list item) :
  get_short_text_cosine_distance M (PyList (x1 :: l1)) (PyList (x2 :: l2))
  = score_of_tokens M
      (analyze (String.concat " " (map snd (x1 :: l1))))
      (analyze (String.concat " " (map snd (x2 :: l2)))).
Proof.
  unfold get_short_text_cosine_distance.
  cbn [type_is_float orb len List.length Nat.eqb bind].
  apply (score_of_lists snd).
Qed.

End Rows.
(** ** Symmetry *)

Section Symmetry.

Variable M : Float64Model.
Hypothesis mul_comm : forall x y : M, f_mul M x y = f_mul M y x.

Lemma document_frequency_swap (d1 d2 : list string) (t : string) :
  document_frequency [d1; d2] t = document_frequency [d2; d1] t.
Proof.
  unfold document_frequency. cbn [filter].
  destruct (existsb (String.eqb t) d1), (existsb (String.eqb t) d2); reflexivity.
Qed.

Lemma weight_swap (d1 d2 d : list string) (t : string) :
  weight M [d1; d2] d t = weight M [d2; d1] d t.
Proof.
  unfold weight, idf. now rewrite (document_frequency_swap d1 d2).
Qed.

Lemma unit_weight_swap (d1 d2 V d : list string) (t : string) :
  unit_weight M [d1; d2] V d t = unit_weight M [d2; d1] V d t.
Proof.
  unfold unit_weight. rewrite (weight_swap d1 d2).
  rewrite (sparse_ext M V (weight M [d1; d2] d) (weight M [d2; d1] d));
    [reflexivity|]. intros u _. apply weight_swap.
Qed.

Lemma fold_dot_step_swap (f g f' g' : string -> option M) (V : list string) :
  (forall t, f t = f' t) -> (forall t, g t = g' t) ->
  forall acc, fold_left (dot_step M f g) V acc = fold_left (dot_step M g' f') V acc.
Proof.
  intros Hf Hg. induction V as [|t V IH]; intro acc; [reflexivity|].
  cbn [fold_left]. rewrite IH. f_equal.
  unfold dot_step. rewrite <- Hf, <- Hg.
  destruct (f t), (g t); try reflexivity. now rewrite mul_comm.
Qed.

(** With the same storage order in both fits, the same products are added
    in the same order. *)
Lemma score_of_tokens_sym (d1 d2 : list string) :
  same_storage_order d1 d2 ->
  score_of_tokens M d1 d2 = score_of_tokens M d2 d1.
Proof.
  unfold same_storage_order, score_of_tokens. intro Hsame.
  rewrite (vocabulary_swap d1 d2).
  destruct (vocabulary [d2; d1]) as [|t V]; [reflexivity|].
  cbv zeta. rewrite Hsame. do 2 f_equal.
  apply fold_dot_step_swap; intro u; apply unit_weight_swap.
Qed.

End Symmetry.

(** IEEE 754 multiplication is commutative. *)
Lemma float_mul_comm (x y : float) : PrimFloat.mul x y = PrimFloat.mul y x.
Proof.
  apply FloatAxioms.Prim2SF_inj. rewrite !FloatAxioms.mul_spec.
  unfold FloatAxioms.SF64mul, SpecFloat.SFmul.
  destruct (FloatOps.Prim2SF x) as [sx|sx| |sx mx ex],
           (FloatOps.Prim2SF y) as [sy|sy| |sy my ey];
    try reflexivity; try (now rewrite xorb_comm).
  now rewrite xorb_comm, Pos.mul_comm, Z.add_comm.
Qed.

(** C10, as the code has it. In every float64 model with a commutative
    multiplication (IEEE 754, the reals), each similarity function gives
    the same result, value or exception, when its arguments are exchanged,
    provided the two fits store the terms in the same order; the guards
    make it so for a missing or an empty list. Otherwise the two calls add
    the same kind of products in different orders. *)
Theorem similarity_is_symmetric (M : Float64Model) (los1 los2 : pyitems)
  (Hcomm : forall x y : M, f_mul M x y = f_mul M y x) :
  (same_storage_order (document_tokens fst los1) (document_tokens fst los2) ->
   get_long_text_cosine_distance M los1 los2
   = get_long_text_cosine_distance M los2 los1) /\
  (same_storage_order (document_tokens snd los1) (document_tokens snd los2) ->
   get_short_text_cosine_distance M los1 los2
   = get_short_text_cosine_distance M los2 los1) /\
  (~ has_items los1 \/ ~ has_items los2 ->
   get_long_text_cosine_distance M los1 los2
   = get_long_text_cosine_distance M los2 los1 /\
   get_short_text_cosine_distance M los1 los2
   = get_short_text_cosine_distance M los2 los1).
Proof.
  destruct los1 as [f1|[|x1 l1]], los2 as [f2|[|x2 l2]];
    try (repeat split; reflexivity).
  split; [|split].
  - intro Hsame. rewrite !get_long_nonempty.
    now apply score_of_tokens_sym.
  - intro Hsame. rewrite !get_short_nonempty.
    now apply score_of_tokens_sym.
  - intros [H | H]; exfalso; apply H; exact I.
Qed.

Lemma similarity_is_symmetric_witness :
  get_long_text_cosine_distance IEEEModel
    (PyList pulse_laser) (PyList pulse_laser_and_plate)
  = get_long_text_cosine_distance IEEEModel
      (PyList pulse_laser_and_plate) (PyList pulse_laser) /\
  get_short_text_cosine_distance IEEEModel
    (PyList pulse_laser) (PyList pulse_laser_and_plate)
  = get_short_text_cosine_distance IEEEModel
      (PyList pulse_laser_and_plate) (PyList pulse_laser).
Proof.
  destruct (similarity_is_symmetric IEEEModel
              (PyList pulse_laser) (PyList pulse_laser_and_plate) float_mul_comm)
    as (Hlong & Hshort & _).
  split; [apply Hlong | apply Hshort]; vm_compute; reflexivity.
Defined.

(** C10, as stated, fails in the float arithmetic of the script: with the
    long texts [laser laser armor shield] and [shield laser armor armor]
    the two orders of the arguments differ in the last bit, in both
    functions. *)
Lemma similarity_not_symmetric_in_float64 :
  get_long_text_cosine_distance IEEEModel
    (PyList two_lasers_first) (PyList two_armors_last)
  = Ok (NpFloat64 0x1.aaaaaaaaaaaadp-1%float) /\
  get_long_text_cosine_distance IEEEModel
    (PyList two_armors_last) (PyList two_lasers_first)
  = Ok (NpFloat64 0x1.aaaaaaaaaaaacp-1%float) /\
  get_short_text_cosine_distance IEEEModel
    (PyList two_lasers_first) (PyList two_armors_last)
  = Ok (NpFloat64 0x1.aaaaaaaaaaaadp-1%float) /\
  get_short_text_cosine_distance IEEEModel
    (PyList two_armors_last) (PyList two_lasers_first)
  = Ok (NpFloat64 0x1.aaaaaaaaaaaacp-1%float).
Proof. repeat split; vm_compute; reflexivity. Qed.
(** ** Documents with the same tokens *)

Section TokenBags.

Variable M : Float64Model.

Lemma existsb_Permutation (t : string) (d d' : list string) :
  Permutation d d' -> existsb (String.eqb t) d = existsb (String.eqb t) d'.
Proof.
  intro H. apply eq_true_iff_eq. rewrite !existsb_exists. split.
  - intros [x [Hin Hx]]. exists x. split; [now apply (Permutation_in _ H) | assumption].
  - intros [x [Hin Hx]]. exists x. split;
      [now apply (Permutation_in _ (Permutation_sym H)) | assumption].
Qed.

Lemma document_frequency_bags (d1 d2 d1' d2' : list string) (t : string) :
  Permutation d1 d1' -> Permutation d2 d2' ->
  document_frequency [d1; d2] t = document_frequency [d1'; d2'] t.
Proof.
  intros H1 H2. unfold document_frequency. cbn [filter].
  rewrite (existsb_Permutation t d1 d1' H1), (existsb_Permutation t d2 d2' H2).
  destruct (existsb (String.eqb t) d1'), (existsb (String.eqb t) d2'); reflexivity.
Qed.

Lemma weight_bags (d1 d2 d1' d2' d e : list string) (t : string) :
  Permutation d1 d1' -> Permutation d2 d2' -> Permutation d e ->
  weight M [d1; d2] d t = weight M [d1'; d2'] e t.
Proof.
  intros H1 H2 H. unfold weight, idf.
  rewrite (document_frequency_bags d1 d2 d1' d2' t H1 H2).
  now rewrite (proj1 (Permutation_count_occ string_dec d e) H t).
Qed.

Lemma unit_weight_bags (d1 d2 d1' d2' d e V : list string) (t : string) :
  Permutation d1 d1' -> Permutation d2 d2' -> Permutation d e ->
  unit_weight M [d1; d2] V d t = unit_weight M [d1'; d2'] V e t.
Proof.
  intros H1 H2 H. unfold unit_weight.
  rewrite (weight_bags d1 d2 d1' d2' d e t H1 H2 H).
  rewrite (sparse_ext M V (weight M [d1; d2] d) (weight M [d1'; d2'] e));
    [reflexivity|]. intros u _. now apply weight_bags.
Qed.

Lemma fold_dot_step_ext (f g f' g' : string -> option M) (V : list string) :
  (forall t, f t = f' t) -> (forall t, g t = g' t) ->
  forall acc, fold_left (dot_step M f g) V acc = fold_left (dot_step M f' g') V acc.
Proof.
  intros Hf Hg. induction V as [|t V IH]; intro acc; [reflexivity|].
  cbn [fold_left]. rewrite IH. f_equal. unfold dot_step. now rewrite Hf, Hg.
Qed.

Lemma vocabulary_bags (d1 d2 d1' d2' : list string) :
  Permutation d1 d1' -> Permutation d2 d2' ->
  vocabulary [d1; d2] = vocabulary [d1'; d2'].
Proof.
  intros H1 H2. apply vocabulary_ext. intro t. cbn [List.concat].
  rewrite !app_nil_r, !in_app_iff. split; intros [H|H].
  - left. now apply (Permutation_in _ H1).
  - right. now apply (Permutation_in _ H2).
  - left. now apply (Permutation_in _ (Permutation_sym H1)).
  - right. now apply (Permutation_in _ (Permutation_sym H2)).
Qed.

End TokenBags.

Section SameBag.

Variable M : Float64Model.

Lemma fold_dot_step_square (f : string -> option M) (V : list string) (acc : M) :
  fold_left (dot_step M f f) V acc
  = fold_left (fun a e => f_add M a (f_mul M (snd e) (snd e))) (sparse M V f) acc.
Proof.
  revert acc. induction V as [|t V IH]; intro acc; [reflexivity|].
  rewrite sparse_cons, fold_left_app. cbn [fold_left]. rewrite IH.
  f_equal. unfold dot_step. now destruct (f t).
Qed.

(** Two documents with the same tokens have the same row, and the score is
    the sum of the squares of its entries as the normalization left them. *)
Lemma score_of_tokens_same_bag (d1 d2 : list string) :
  Permutation d1 d2 -> d1 <> [] ->
  score_of_tokens M d1 d2 = Ok (NpFloat64 (sum_squares M (first_row M d1 d2))).
Proof.
  intros Hperm Hne. unfold score_of_tokens, first_row.
  destruct (vocabulary [d1; d2]) as [|t0 V0] eqn:HV.
  - apply vocabulary_nil in HV. cbn [List.concat] in HV.
    destruct d1; [contradiction | discriminate].
  - cbv zeta. rewrite fitted_row. unfold sum_squares.
    rewrite <- fold_dot_step_square. do 2 f_equal.
    apply fold_dot_step_ext; intro u; [reflexivity|].
    symmetry. apply unit_weight_bags; [apply Permutation_refl .. | assumption].
Qed.

End SameBag.

(** ** Exact arithmetic: sums *)

Section Sums.

Local Open Scope R_scope.

Variable A : Type.

Lemma Rsum_nonneg (g : A -> R) (V : list A) :
  (forall t, 0 <= g t) -> 0 <= Rsum (map g V).
Proof.
  intro H. induction V as [|t V IH]; cbn [map Rsum fold_right]; [lra|].
  fold (Rsum (map g V)). specialize (H t). lra.
Qed.

Lemma Rsum_In_le (g : A -> R) (V : list A) (t0 : A) :
  (forall t, 0 <= g t) -> In t0 V -> g t0 <= Rsum (map g V).
Proof.
  intros H. induction V as [|t V IH]; intro Hin; [destruct Hin|].
  cbn [map Rsum fold_right]. fold (Rsum (map g V)).
  pose proof (Rsum_nonneg g V H) as Hs. pose proof (H t) as Ht.
  destruct Hin as [->|Hin]; [lra|]. specialize (IH Hin). lra.
Qed.

Lemma Rsum_scale (c : R) (g : A -> R) (V : list A) :
  Rsum (map (fun t => g t * c) V) = Rsum (map g V) * c.
Proof.
  induction V as [|t V IH]; cbn [map Rsum fold_right]; [lra|].
  fold (Rsum (map g V)). fold (Rsum (map (fun t => g t * c) V)). rewrite IH. lra.
Qed.

Lemma Rsum_ext (g h : A -> R) (V : list A) :
  (forall t, In t V -> g t = h t) -> Rsum (map g V) = Rsum (map h V).
Proof.
  intro H. f_equal. apply map_ext_in. exact H.
Qed.

Lemma Rsum_product_bound (x y : A -> R) (V : list A) :
  2 * Rsum (map (fun t => x t * y t) V)
  <= Rsum (map (fun t => x t * x t) V) + Rsum (map (fun t => y t * y t) V).
Proof.
  induction V as [|t V IH]; cbn [map Rsum fold_right]; [lra|].
  fold (Rsum (map (fun t => x t * y t) V)).
  fold (Rsum (map (fun t => x t * x t) V)).
  fold (Rsum (map (fun t => y t * y t) V)).
  pose proof (Rle_0_sqr (x t - y t)) as Hsq. unfold Rsqr in Hsq. lra.
Qed.

End Sums.

(** ** Exact arithmetic: the rows *)

Section Exact.

Local Open Scope R_scope.

Lemma fold_dot_Rsum (f g : string -> option R) (V : list string) (acc : R) :
  fold_left (dot_step RealModel f g) V acc
  = acc + Rsum (map (fun t => val (f t) * val (g t)) V).
Proof.
  revert acc. induction V as [|t V IH]; intro acc; cbn [fold_left map Rsum fold_right].
  - lra.
  - fold (Rsum (map (fun t => val (f t) * val (g t)) V)). rewrite IH.
    unfold dot_step. destruct (f t), (g t); cbn [val f_add f_mul RealModel]; lra.
Qed.

Lemma sum_squares_from (f : string -> option R) (V : list string) (acc : R) :
  fold_left (fun a e => f_add RealModel a (f_mul RealModel (snd e) (snd e)))
            (sparse RealModel V f) acc
  = acc + Rsum (map (fun t => val (f t) * val (f t)) V).
Proof.
  revert acc. induction V as [|t V IH]; intro acc.
  - cbn. lra.
  - rewrite sparse_cons, fold_left_app, IH.
    cbn [map Rsum fold_right]. fold (Rsum (map (fun t => val (f t) * val (f t)) V)).
    destruct (f t); cbn [fold_left val snd f_add f_mul RealModel]; lra.
Qed.

Lemma sum_squares_sparse (f : string -> option R) (V : list string) :
  sum_squares RealModel (sparse RealModel V f)
  = Rsum (map (fun t => val (f t) * val (f t)) V).
Proof.
  unfold sum_squares. rewrite sum_squares_from. cbn [f_of_nat RealModel INR]. lra.
Qed.

Lemma document_frequency_le (docs : list (list string)) (t : string) :
  (document_frequency docs t <= List.length docs)%nat.
Proof.
  unfold document_frequency. induction docs as [|d docs IH]; cbn [filter List.length];
    [lia|]. destruct (existsb (String.eqb t) d); cbn [List.length]; lia.
Qed.

Lemma idf_ge_1 (docs : list (list string)) (t : string) :
  1 <= idf RealModel docs t.
Proof.
  unfold idf. cbn [f_add f_log f_div f_of_nat RealModel].
  pose proof (document_frequency_le docs t) as Hdf.
  set (n := List.length docs) in *. set (df := document_frequency docs t) in *.
  assert (Hpos : 0 < INR (1 + df)) by (apply lt_0_INR; lia).
  assert (Hle : INR (1 + df) <= INR (1 + n)) by (apply le_INR; lia).
  assert (Hq : 1 <= INR (1 + n) / INR (1 + df)).
  { apply Rmult_le_reg_r with (r := INR (1 + df)); [assumption|].
    unfold Rdiv. rewrite Rmult_assoc, Rinv_l by lra. lra. }
  assert (Hln : 0 <= ln (INR (1 + n) / INR (1 + df))).
  { destruct Hq as [Hlt|Heq].
    - rewrite <- ln_1. left. apply ln_increasing; lra.
    - rewrite <- Heq, ln_1. lra. }
  change (INR 1) with 1. lra.
Qed.

Lemma weight_pos (docs : list (list string)) (d : list string) (t : string) (a : R) :
  weight RealModel docs d t = Some a -> 0 < a.
Proof.
  unfold weight. destruct (count_occ string_dec d t =? 0)%nat eqn:Hc; [discriminate|].
  intro H; injection H as <-. apply Nat.eqb_neq in Hc.
  cbn [f_mul f_of_nat RealModel].
  apply Rmult_lt_0_compat.
  - apply lt_0_INR. lia.
  - apply Rlt_le_trans with (r2 := 1); [apply Rlt_0_1 | apply idf_ge_1].
Qed.

Lemma weight_nonneg (docs : list (list string)) (d : list string) (t : string) :
  0 <= val (weight RealModel docs d t).
Proof.
  destruct (weight RealModel docs d t) as [a|] eqn:H; cbn [val]; [|lra].
  apply weight_pos in H. lra.
Qed.

(** The squares of a normalized row add up to 1, or to 0 when the row is
    empty; its entries are not negative. *)
Lemma unit_weight_norm (docs : list (list string)) (V d : list string) :
  let s := Rsum (map (fun t => val (weight RealModel docs d t)
                               * val (weight RealModel docs d t)) V) in
  let X := Rsum (map (fun t => val (unit_weight RealModel docs V d t)
                               * val (unit_weight RealModel docs V d t)) V) in
  (forall t, 0 <= val (unit_weight RealModel docs V d t)) /\
  (s = 0 -> X = 0) /\ (s <> 0 -> X = 1).
Proof.
  intros s X.
  assert (Hs0 : 0 <= s).
  { apply Rsum_nonneg. intro t. apply Rle_0_sqr. }
  assert (Hval : forall t,
             val (unit_weight RealModel docs V d t)
             = if Req_dec_T s 0 then val (weight RealModel docs d t)
               else val (weight RealModel docs d t) * / sqrt s).
  { intro t. unfold unit_weight, scale_of.
    rewrite sum_squares_sparse. fold s. cbn [f_eq0 RealModel].
    destruct (Req_dec_T s 0); destruct (weight RealModel docs d t);
      cbn [option_map val f_div f_sqrt RealModel]; unfold Rdiv; lra. }
  split; [|split].
  - intro t. rewrite Hval. pose proof (weight_nonneg docs d t) as Hw.
    destruct (Req_dec_T s 0); [assumption|].
    assert (Hsq : 0 < sqrt s) by (apply sqrt_lt_R0; lra).
    apply Rmult_le_pos; [assumption|]. left. now apply Rinv_0_lt_compat.
  - intro Hz. unfold X.
    transitivity (Rsum (map (fun t => val (weight RealModel docs d t)
                                      * val (weight RealModel docs d t)) V)).
    + apply Rsum_ext. intros t _. rewrite Hval.
      destruct (Req_dec_T s 0); [reflexivity | contradiction].
    + exact Hz.
  - intro Hnz. unfold X.
    assert (Hsq : 0 < sqrt s) by (apply sqrt_lt_R0; lra).
    transitivity (Rsum (map (fun t => val (weight RealModel docs d t)
                                      * val (weight RealModel docs d t)
                                      * (/ sqrt s * / sqrt s)) V)).
    + apply Rsum_ext. intros t _. rewrite Hval.
      destruct (Req_dec_T s 0); [contradiction | lra].
    + rewrite Rsum_scale. fold s.
      rewrite <- Rinv_mult, sqrt_sqrt by lra. apply Rinv_r. exact Hnz.
Qed.

End Exact.

(** ** Exact arithmetic: the score *)

Section ExactScore.

Local Open Scope R_scope.

Lemma score_of_tokens_bound (d1 d2 : list string) (v : pynum RealModel) :
  score_of_tokens RealModel d1 d2 = Ok v -> in_unit_interval RealModel v.
Proof.
  unfold score_of_tokens.
  destruct (vocabulary [d1; d2]) as [|t0 V0] eqn:HV; [discriminate|].
  cbv zeta. set (V := storage_order [d1; d2]). rewrite fold_dot_Rsum.
  intro H; injection H as <-. cbn [in_unit_interval f_le f_of_nat RealModel INR].
  destruct (unit_weight_norm [d1; d2] V d1) as (Hx & Hx0 & Hx1).
  destruct (unit_weight_norm [d1; d2] V d2) as (Hy & Hy0 & Hy1).
  set (x := fun t => val (unit_weight RealModel [d1; d2] V d1 t)) in *.
  set (y := fun t => val (unit_weight RealModel [d1; d2] V d2 t)) in *.
  change (0 <= 0 + Rsum (map (fun t => x t * y t) V)
          /\ 0 + Rsum (map (fun t => x t * y t) V) <= 1).
  assert (HX : Rsum (map (fun t => x t * x t) V) <= 1).
  { unfold x. cbv beta.
    destruct (Req_dec (Rsum (map (fun t => val (weight RealModel [d1; d2] d1 t)
                                           * val (weight RealModel [d1; d2] d1 t)) V)) 0)
      as [Hz|Hnz]; [rewrite (Hx0 Hz) | rewrite (Hx1 Hnz)]; lra. }
  assert (HY : Rsum (map (fun t => y t * y t) V) <= 1).
  { unfold y. cbv beta.
    destruct (Req_dec (Rsum (map (fun t => val (weight RealModel [d1; d2] d2 t)
                                           * val (weight RealModel [d1; d2] d2 t)) V)) 0)
      as [Hz|Hnz]; [rewrite (Hy0 Hz) | rewrite (Hy1 Hnz)]; lra. }
  pose proof (Rsum_product_bound string x y V) as Hxy.
  assert (H0 : 0 <= Rsum (map (fun t => x t * y t) V)).
  { apply Rsum_nonneg. intro t. apply Rmult_le_pos; [apply Hx | apply Hy]. }
  lra.
Qed.

Lemma weight_Permutation (docs : list (list string)) (d1 d2 : list string) (t : string) :
  Permutation d1 d2 -> weight RealModel docs d1 t = weight RealModel docs d2 t.
Proof.
  intro H. unfold weight.
  now rewrite (proj1 (Permutation_count_occ string_dec d1 d2) H t).
Qed.

Lemma unit_weight_Permutation (docs : list (list string)) (V d1 d2 : list string) (t : string) :
  Permutation d1 d2 ->
  unit_weight RealModel docs V d1 t = unit_weight RealModel docs V d2 t.
Proof.
  intro H. unfold unit_weight. rewrite (weight_Permutation docs d1 d2 t H).
  rewrite (sparse_ext RealModel V (weight RealModel docs d1) (weight RealModel docs d2));
    [reflexivity|]. intros u _. now apply weight_Permutation.
Qed.

Lemma score_of_tokens_identical (d1 d2 : list string) :
  Permutation d1 d2 -> d1 <> [] ->
  score_of_tokens RealModel d1 d2 = Ok (NpFloat64 1).
Proof.
  intros Hperm Hne. unfold score_of_tokens.
  destruct (vocabulary [d1; d2]) as [|t0 V0] eqn:HV.
  - apply vocabulary_nil in HV. cbn [List.concat] in HV.
    destruct d1; [contradiction | discriminate].
  - cbv zeta. set (V := storage_order [d1; d2]). rewrite fold_dot_Rsum.
    cbn [f_of_nat RealModel INR]. do 2 f_equal.
    destruct (unit_weight_norm [d1; d2] V d1) as (Hx & _ & Hx1).
    rewrite (Rsum_ext string _
               (fun t => val (unit_weight RealModel [d1; d2] V d1 t)
                         * val (unit_weight RealModel [d1; d2] V d1 t)) V).
    + rewrite Hx1; [lra|].
      destruct d1 as [|t d1]; [contradiction|].
      assert (HtV : In t V).
      { apply storage_order_In. cbn [List.concat].
        apply in_app_iff. left. now left. }
      destruct (weight RealModel [t :: d1; d2] (t :: d1) t) as [a|] eqn:Hw.
      * pose proof (weight_pos _ _ _ _ Hw) as Ha.
        pose proof (Rsum_In_le string
                      (fun u => val (weight RealModel [t :: d1; d2] (t :: d1) u)
                                * val (weight RealModel [t :: d1; d2] (t :: d1) u))
                      V t (fun u => Rle_0_sqr _) HtV) as Hle.
        cbn beta in Hle. rewrite Hw in Hle. cbn [val] in Hle.
        assert (0 < a * a) by now apply Rmult_lt_0_compat. lra.
      * exfalso. unfold weight in Hw. cbn [count_occ] in Hw.
        destruct (string_dec t t); [|congruence].
        cbn [Nat.eqb] in Hw. discriminate.
    + intros u _. now rewrite (unit_weight_Permutation [d1; d2] V d1 d2 u Hperm).
Qed.

Lemma get_long_identical (l1 l2 : list item) :
  Permutation l1 l2 ->
  analyze (String.concat " " (map fst l1)) <> [] ->
  get_long_text_cosine_distance RealModel (PyList l1) (PyList l2) = Ok (NpFloat64 1).
Proof.
  intros Hperm Htok.
  destruct l1 as [|x1 l1]; [contradiction Htok; reflexivity|].
  destruct l2 as [|x2 l2]; [apply Permutation_sym, Permutation_nil in Hperm; discriminate|].
  rewrite get_long_nonempty. apply score_of_tokens_identical; [|assumption].
  apply analyze_Permutation. now apply Permutation_map.
Qed.

End ExactScore.
(** ** Range and identical lists *)

(** Both similarity functions on two lists with items, in terms of the
    tokens of the two documents. *)
Lemma get_long_tokens (M : Float64Model) (los1 los2 : pyitems) :
  has_items los1 -> has_items los2 ->
  get_long_text_cosine_distance M los1 los2
  = score_of_tokens M (document_tokens fst los1) (document_tokens fst los2).
Proof.
  destruct los1 as [f1|[|x1 l1]], los2 as [f2|[|x2 l2]]; try (intros []; fail);
    try (intros _ []; fail).
  intros _ _. apply get_long_nonempty.
Qed.

Lemma get_short_tokens (M : Float64Model) (los1 los2 : pyitems) :
  has_items los1 -> has_items los2 ->
  get_short_text_cosine_distance M los1 los2
  = score_of_tokens M (document_tokens snd los1) (document_tokens snd los2).
Proof.
  destruct los1 as [f1|[|x1 l1]], los2 as [f2|[|x2 l2]]; try (intros []; fail);
    try (intros _ []; fail).
  intros _ _. apply get_short_nonempty.
Qed.

(** A document with a token comes from a list with items. *)
Lemma tokens_have_items (field : item -> string) (los : pyitems) :
  document_tokens field los <> [] -> has_items los.
Proof.
  destruct los as [f|[|x l]]; intro H; try exact I; now contradiction H.
Qed.

(** In exact arithmetic, whenever either function returns, the value is the
    integer 0 or a real number between 0 and 1, ends included. *)
Lemma exact_score_in_unit_interval (los1 los2 : pyitems) (v : pynum RealModel) :
  get_long_text_cosine_distance RealModel los1 los2 = Ok v \/
  get_short_text_cosine_distance RealModel los1 los2 = Ok v ->
  in_unit_interval RealModel v.
Proof.
  intro H.
  assert (Hzero : forall w : pynum RealModel,
            @Ok (pynum RealModel) (PyInt 0) = Ok w -> in_unit_interval RealModel w).
  { intros w Hw. injection Hw as <-. cbn. lia. }
  destruct los1 as [f1|[|x1 l1]], los2 as [f2|[|x2 l2]];
    try (destruct H as [H|H]; apply Hzero; exact H).
  rewrite get_long_nonempty, get_short_nonempty in H.
  destruct H as [H|H]; now apply score_of_tokens_bound in H.
Qed.

(** *** Three tokens, once each *)

Lemma first_seen_NoDup_id (l : list string) : NoDup l -> first_seen l = l.
Proof.
  induction 1 as [|t l Hnotin Hnd IH]; [reflexivity|].
  cbn [first_seen]. rewrite IH. f_equal.
  rewrite (filter_ext_in _ (fun _ => true) l); [apply filter_true|].
  intros u Hu. apply negb_true_iff, String.eqb_neq. intro Heq. now subst.
Qed.

Lemma count_row_once (V d : list string) :
  NoDup d -> incl V d -> count_row V d = map (fun t => (t, 1%nat)) V.
Proof.
  intros Hnd Hincl. unfold count_row.
  induction V as [|t V IH]; [reflexivity|].
  cbn [flat_map map].
  rewrite (proj1 (NoDup_count_occ' string_dec d) Hnd t) by (apply Hincl; now left).
  cbn [Nat.eqb app]. f_equal. apply IH. intros u Hu. apply Hincl. now right.
Qed.

Lemma document_frequency_both (d1 d2 : list string) (t : string) :
  In t d1 -> In t d2 -> document_frequency [d1; d2] t = 2%nat.
Proof.
  intros H1 H2. unfold document_frequency. cbn [filter].
  assert (E : forall d, In t d -> existsb (String.eqb t) d = true).
  { intros d Hd. apply existsb_exists. exists t. split; [assumption|].
    apply String.eqb_refl. }
  now rewrite (E d1 H1), (E d2 H2).
Qed.

(** The tf-idf weight of a term that both documents hold once is [1.0]:
    its idf is [ln (3 / 3) + 1]. *)
Lemma tfidf_row_once (d1 d2 V : list string) :
  incl V d1 -> incl V d2 ->
  tfidf_row IEEEModel [d1; d2] (map (fun t => (t, 1%nat)) V)
  = map (fun t => (t, 1%float)) V.
Proof.
  intros H1 H2. unfold tfidf_row. rewrite map_map. apply map_ext_in.
  intros t Ht. cbn [fst snd]. f_equal. unfold idf.
  rewrite (document_frequency_both d1 d2 t) by (apply H1 || apply H2; assumption).
  vm_compute. reflexivity.
Qed.

Lemma score_of_three_tokens (d1 d2 : list string) :
  NoDup d1 -> List.length d1 = 3%nat -> Permutation d1 d2 ->
  score_of_tokens IEEEModel d1 d2 = Ok (NpFloat64 0x1.0000000000001p+0%float).
Proof.
  intros Hnd Hlen Hperm.
  assert (Hne : d1 <> []) by (intro; subst; discriminate Hlen).
  assert (Hincl : incl d2 d1).
  { intros u Hu. now apply (Permutation_in _ (Permutation_sym Hperm)). }
  rewrite (score_of_tokens_same_bag IEEEModel d1 d2 Hperm Hne). do 2 f_equal.
  unfold first_row.
  rewrite (storage_order_incl d1 d2 Hincl), (first_seen_NoDup_id d1 Hnd).
  rewrite (count_row_once d1 d1 Hnd (incl_refl d1)).
  rewrite (tfidf_row_once d1 d2 d1 (incl_refl d1)).
  - destruct d1 as [|t1 [|t2 [|t3 [|t4 d1]]]]; try discriminate Hlen.
    vm_compute. reflexivity.
  - intros u Hu. now apply (Permutation_in _ Hperm).
Qed.

(** C7 fails in the float arithmetic of the script. Whenever the two
    documents hold the same three distinct tokens, once each and in any
    order, the stored values are [1 / sqrt 3] rounded, their squares
    [0.33333333333333337] add up to [1 + 2^-52], and the function returns
    [1.0000000000000002], which is above 1. *)
Theorem score_exceeds_one_in_float64 (los1 los2 : pyitems) :
  (NoDup (document_tokens fst los1) ->
   List.length (document_tokens fst los1) = 3%nat ->
   Permutation (document_tokens fst los1) (document_tokens fst los2) ->
   get_long_text_cosine_distance IEEEModel los1 los2
   = Ok (NpFloat64 0x1.0000000000001p+0%float)) /\
  (NoDup (document_tokens snd los1) ->
   List.length (document_tokens snd los1) = 3%nat ->
   Permutation (document_tokens snd los1) (document_tokens snd los2) ->
   get_short_text_cosine_distance IEEEModel los1 los2
   = Ok (NpFloat64 0x1.0000000000001p+0%float)) /\
  ~ in_unit_interval IEEEModel (NpFloat64 0x1.0000000000001p+0%float).
Proof.
  assert (Hitems : forall field : item -> string,
            List.length (document_tokens field los1) = 3%nat ->
            Permutation (document_tokens field los1) (document_tokens field los2) ->
            has_items los1 /\ has_items los2).
  { intros field Hlen Hperm. split; apply (tokens_have_items field).
    - intro H. rewrite H in Hlen. discriminate Hlen.
    - intro H. rewrite H in Hperm. apply Permutation_sym, Permutation_nil in Hperm.
      rewrite Hperm in Hlen. discriminate Hlen. }
  split; [|split].
  - intros Hnd Hlen Hperm. destruct (Hitems fst Hlen Hperm) as [H1 H2].
    rewrite (get_long_tokens IEEEModel los1 los2 H1 H2).
    now apply score_of_three_tokens.
  - intros Hnd Hlen Hperm. destruct (Hitems snd Hlen Hperm) as [H1 H2].
    rewrite (get_short_tokens IEEEModel los1 los2 H1 H2).
    now apply score_of_three_tokens.
  - intros [_ H]. vm_compute in H. discriminate H.
Qed.

(** The failing input of C7: one item with three words in each text,
    against itself. *)
Lemma score_exceeds_one_in_float64_witness :
  get_long_text_cosine_distance IEEEModel (PyList heavy_laser) (PyList heavy_laser)
  = Ok (NpFloat64 0x1.0000000000001p+0%float) /\
  get_short_text_cosine_distance IEEEModel (PyList heavy_laser) (PyList heavy_laser)
  = Ok (NpFloat64 0x1.0000000000001p+0%float).
Proof.
  destruct (score_exceeds_one_in_float64 (PyList heavy_laser) (PyList heavy_laser))
    as (Hlong & Hshort & _).
  split; [apply Hlong | apply Hshort];
    try (vm_compute; reflexivity);
    try apply Permutation_refl;
    vm_compute; repeat constructor; cbn [In]; intuition discriminate.
Defined.

(** *** Identical lists *)



(** Two lists with items whose chosen texts hold no token: the vectorizer
    raises. *)
Lemma empty_vocabulary_raises (M : Float64Model) (x1 x2 : item) (l1 l2 : list item) :
  analyze (String.concat " " (map fst (x1 :: l1))) = [] ->
  analyze (String.concat " " (map fst (x2 :: l2))) = [] ->
  get_long_text_cosine_distance M (PyList (x1 :: l1)) (PyList (x2 :: l2))
  = Raise (ValueError "empty vocabulary; perhaps the documents only contain stop words").
Proof.
  intros H1 H2. rewrite get_long_nonempty, H1, H2. reflexivity.
Qed.


(** The same two lists in the float arithmetic of the script: the scores
    are 1 up to rounding. *)
Example float_scores_of_identical_lists :
  close_to_one (get_long_text_cosine_distance IEEEModel
                  (PyList laser_and_plate) (PyList plate_and_laser)) = true /\
  close_to_one (get_short_text_cosine_distance IEEEModel
                  (PyList laser_and_plate) (PyList plate_and_laser)) = true.
Proof. split; vm_compute; reflexivity. Qed.

(** ** Exact arithmetic: the order of the arguments *)

Section ExactOrder.

Local Open Scope R_scope.

Lemma Rsum_Permutation (l l' : list R) : Permutation l l' -> Rsum l = Rsum l'.
Proof.
  induction 1 as [|x l l' _ IH|x y l|l l' l'' _ IH1 _ IH2]; unfold Rsum in *;
    cbn [fold_right]; lra.
Qed.

(** In exact arithmetic the normalization does not depend on the order in
    which the entries of a row are stored. *)
Lemma unit_weight_order (docs : list (list string)) (V V' d : list string) (t : string) :
  Permutation V V' ->
  unit_weight RealModel docs V d t = unit_weight RealModel docs V' d t.
Proof.
  intro Hperm. unfold unit_weight, scale_of. rewrite !sum_squares_sparse.
  rewrite (Rsum_Permutation
             (map (fun u => val (weight RealModel docs d u)
                            * val (weight RealModel docs d u)) V)
             (map (fun u => val (weight RealModel docs d u)
                            * val (weight RealModel docs d u)) V'))
    by now apply Permutation_map.
  reflexivity.
Qed.

Lemma storage_order_swap (d1 d2 : list string) :
  Permutation (storage_order [d1; d2]) (storage_order [d2; d1]).
Proof.
  apply NoDup_Permutation; try apply storage_order_NoDup.
  intro t. rewrite !storage_order_In. cbn [List.concat].
  rewrite !app_nil_r, !in_app_iff. tauto.
Qed.

Lemma score_of_tokens_exact_sym (d1 d2 : list string) :
  score_of_tokens RealModel d1 d2 = score_of_tokens RealModel d2 d1.
Proof.
  unfold score_of_tokens. rewrite (vocabulary_swap d1 d2).
  destruct (vocabulary [d2; d1]) as [|t0 V0]; [reflexivity|].
  cbv zeta. rewrite !fold_dot_Rsum. do 3 f_equal.
  pose proof (storage_order_swap d1 d2) as Hperm.
  set (V := storage_order [d1; d2]) in *. set (V' := storage_order [d2; d1]) in *.
  rewrite (Rsum_Permutation _ _
             (Permutation_map
                (fun t => val (unit_weight RealModel [d1; d2] V d1 t)
                          * val (unit_weight RealModel [d1; d2] V d2 t)) Hperm)).
  apply Rsum_ext. intros t _.
  rewrite (unit_weight_order [d1; d2] V V' d1 t Hperm).
  rewrite (unit_weight_order [d1; d2] V V' d2 t Hperm).
  rewrite (unit_weight_swap RealModel d1 d2 V' d1 t).
  rewrite (unit_weight_swap RealModel d1 d2 V' d2 t).
  apply Rmult_comm.
Qed.

(** In exact arithmetic both similarity functions are symmetric. *)
Lemma similarity_is_symmetric_in_exact_arithmetic (los1 los2 : pyitems) :
  get_long_text_cosine_distance RealModel los1 los2
  = get_long_text_cosine_distance RealModel los2 los1 /\
  get_short_text_cosine_distance RealModel los1 los2
  = get_short_text_cosine_distance RealModel los2 los1.
Proof.
  destruct los1 as [f1|[|x1 l1]], los2 as [f2|[|x2 l2]];
    try (split; reflexivity).
  rewrite !get_long_nonempty, !get_short_nonempty.
  split; apply score_of_tokens_exact_sym.
Qed.

End ExactOrder.

(** ** Loader *)

Lemma has_label_In (labels : list string) (l : string) :
  has_label labels l = true <-> In l labels.
Proof.
  unfold has_label. rewrite existsb_exists. split.
  - intros [x [Hin Heq]]. apply String.eqb_eq in Heq. now subst.
  - intro Hin. exists l. split; [assumption | apply String.eqb_refl].
Qed.

Lemma missing_labels_nil (have labels : list string) :
  filter (fun l => negb (has_label have l)) labels = [] <->
  (forall l, In l labels -> In l have).
Proof.
  induction labels as [|x labels IH]; cbn [filter].
  - split; [intros _ l [] | reflexivity].
  - destruct (has_label have x) eqn:Hx; cbn [negb].
    + rewrite IH. apply has_label_In in Hx. split.
      * intros H l [<- | Hl]; auto.
      * intros H l Hl. apply H. now right.
    + split; [discriminate|].
      intro H. assert (Hin : In x have) by (apply H; now left).
      apply has_label_In in Hin. congruence.
Qed.

(** C5, as the code has it. The drop goes through exactly when all three
    columns are in the table, and then returns the other columns in their
    order; when one of the three is not a column it raises [KeyError]. *)
Theorem drop_needs_all_three_columns (A : Type) (df : DataFrame A) :
  ((forall l, In l isk_columns -> In l (map fst df)) /\
   drop_columns isk_columns df
   = Ok (filter (fun col => negb (has_label isk_columns (fst col))) df))
  \/
  ((exists l, In l isk_columns /\ ~ In l (map fst df)) /\
   drop_columns isk_columns df = Raise (KeyError "labels not found in axis")).
Proof.
  unfold drop_columns.
  destruct (filter (fun l => negb (has_label (map fst df) l)) isk_columns)
    as [|m ms] eqn:Hmiss.
  - left. split; [|reflexivity]. now apply missing_labels_nil.
  - right. split; [|reflexivity].
    assert (Hin : In m (filter (fun l => negb (has_label (map fst df) l)) isk_columns))
      by (rewrite Hmiss; now left).
    apply filter_In in Hin. destruct Hin as [Hin Hneg].
    exists m. split; [assumption|].
    intro Hhave. apply has_label_In in Hhave. rewrite Hhave in Hneg. discriminate.
Qed.

(** C5, as the spec has it, fails: on a table without [LowSlotISK] the drop
    raises instead of leaving the table alone. *)
Lemma drop_raises_on_absent_column :
  drop_columns isk_columns table_without_low_slot
  = Raise (KeyError "labels not found in axis") /\
  ~ In "LowSlotISK"%string (map fst table_without_low_slot).
Proof.
  split; [reflexivity|].
  cbn. intros [H|[H|[H|[H|[H|[]]]]]]; discriminate H.
Qed.

Example drop_on_full_table :
  drop_columns isk_columns table_with_isk
  = Ok [("killmail_id", [CellStr "1"]);
        ("character_id", [CellStr "90000001"]);
        ("items", [CellStr "[['Rifle', 'Gun']]"])]%string.
Proof. reflexivity. Qed.

Lemma mapM_app_raise {A B : Type} (f : A -> result B) (xs ys : list A) (x : A) (e : exn) :
  f x = Raise e -> exists e', mapM f (xs ++ x :: ys) = Raise e'.
Proof.
  intro Hx. induction xs as [|a xs IH]; cbn [mapM app].
  - rewrite Hx. now exists e.
  - destruct (f a) as [b|e1]; cbn [bind].
    + destruct IH as [e' ->]. now exists e'.
    + now exists e1.
Qed.

(** C6, on the code. A missing cell reaches [literal_eval] as the float
    [nan], which is neither text nor a syntax tree: the conversion of the
    column raises, whatever the other cells hold. *)
Theorem conversion_raises_on_missing_cell
  (parse_literal : string -> result pyitems) (before after : list csv_cell) :
  literal_eval parse_literal CellNaN
  = Raise (ValueError "malformed node or string: nan") /\
  exists e, convert_items parse_literal (before ++ CellNaN :: after) = Raise e.
Proof.
  split; [reflexivity|].
  unfold convert_items, apply.
  now apply mapM_app_raise with (e := ValueError "malformed node or string: nan").
Qed.

(** ** Loops that may raise *)

Lemma mapM_Forall2 {A B : Type} (f : A -> result B) (xs : list A) (ys : list B) :
  mapM f xs = Ok ys <-> Forall2 (fun x y => f x = Ok y) xs ys.
Proof.
  revert ys; induction xs as [|x xs IH]; intro ys; cbn [mapM].
  - split.
    + intro H; injection H as <-; constructor.
    + intro H; inversion H; reflexivity.
  - split.
    + destruct (f x) as [y|e] eqn:Hx; cbn [bind]; [|discriminate].
      destruct (mapM f xs) as [ys'|e] eqn:Hxs; cbn [bind]; [|discriminate].
      intro H; injection H as <-. constructor; [assumption | now apply IH].
    + intro H; inversion H as [|x0 y xs0 ys' Hx Hrest]; subst.
      rewrite Hx; cbn [bind]. apply IH in Hrest. rewrite Hrest. reflexivity.
Qed.

Lemma Forall2_nth_error {A B : Type} (R : A -> B -> Prop) (xs : list A) (ys : list B) :
  Forall2 R xs ys ->
  forall j x, nth_error xs j = Some x -> exists y, nth_error ys j = Some y /\ R x y.
Proof.
  induction 1 as [|x0 y0 xs ys Hxy Hrest IH]; intros j x Hj.
  - destruct j; discriminate.
  - destruct j as [|j]; cbn in *.
    + injection Hj as <-. now exists y0.
    + now apply IH.
Qed.

Lemma Forall2_from_nth {A B : Type} (R : A -> B -> Prop) (xs : list A) (g : A -> B) :
  (forall x, In x xs -> R x (g x)) -> Forall2 R xs (map g xs).
Proof.
  induction xs as [|x xs IH]; intro H; cbn; constructor.
  - apply H; now left.
  - apply IH; intros y Hy; apply H; now right.
Qed.

(** ** Positions of a shifted series *)

Lemma nth_error_removelast {A : Type} (l : list A) (i : nat) :
  i < List.length l - 1 -> nth_error (removelast l) i = nth_error l i.
Proof.
  revert i; induction l as [|a l IH]; intros i Hi; cbn in Hi; [lia|].
  destruct l as [|b l]; [cbn in Hi; lia|].
  destruct i as [|i]; [reflexivity|].
  cbn [removelast nth_error]. apply IH. cbn [List.length] in *. lia.
Qed.

Lemma nth_error_shift (s : list pyitems) (i : nat) :
  1 <= i < List.length s -> nth_error (shift s) i = nth_error s (i - 1).
Proof.
  intros [H1 H2]. destruct s as [|a s]; [cbn in H2; lia|].
  unfold shift. destruct i as [|i]; [lia|].
  cbn [nth_error]. replace (S i - 1) with i by lia.
  apply nth_error_removelast. cbn [List.length] in *. lia.
Qed.

Lemma nth_error_seq (a k j : nat) :
  j < k -> nth_error (seq a k) j = Some (a + j).
Proof.
  revert a j; induction k as [|k IH]; intros a j Hj; [lia|].
  destruct j as [|j]; cbn; [f_equal; lia|].
  rewrite IH by lia. f_equal; lia.
Qed.

Lemma item_at_Ok {A : Type} (a : list A) (i : nat) (x : A) :
  item_at a i = Ok x <-> nth_error a i = Some x.
Proof.
  unfold item_at. destruct (nth_error a i); split; intro H;
    try discriminate; injection H as <-; reflexivity.
Qed.

(** ** The loops of the group body *)

Section GroupBody.

Variable M : Float64Model.

Lemma make_pairs_spec (gp : list Row) :
  exists pairs,
    make_pairs gp = Ok pairs /\
    List.length pairs = List.length gp - 1 /\
    forall i, 1 <= i < List.length gp ->
      exists prev cur,
        nth_error gp (i - 1) = Some prev /\
        nth_error gp i = Some cur /\
        nth_error pairs (i - 1) = Some (items prev, items cur).
Proof.
  set (l := map items gp).
  set (d := PyFloat PrimFloat.nan).
  set (g := fun i => (nth (i - 1) l d, nth i l d)).
  assert (Hlen : List.length l = List.length gp) by apply length_map.
  exists (map g (seq 1 (List.length gp - 1))). split; [|split].
  - unfold make_pairs. fold l. apply mapM_Forall2. apply Forall2_from_nth.
    intros i Hi. apply in_seq in Hi.
    assert (H1 : item_at l i = Ok (nth i l d)).
    { apply item_at_Ok. apply nth_error_nth'. lia. }
    assert (H2 : item_at (shift l) i = Ok (nth (i - 1) l d)).
    { apply item_at_Ok. rewrite nth_error_shift by lia. apply nth_error_nth'. lia. }
    rewrite H1; cbn [bind]. rewrite H2; cbn [bind]. reflexivity.
  - now rewrite length_map, length_seq.
  - intros i Hi.
    destruct (nth_error gp (i - 1)) as [prev|] eqn:Hp;
      [|apply nth_error_None in Hp; lia].
    destruct (nth_error gp i) as [cur|] eqn:Hc;
      [|apply nth_error_None in Hc; lia].
    exists prev, cur. split; [reflexivity|]. split; [reflexivity|].
    rewrite nth_error_map, nth_error_seq by lia. cbn [option_map].
    replace (1 + (i - 1)) with i by lia. unfold g, l. f_equal. f_equal.
    + apply nth_error_nth. rewrite nth_error_map, Hp. reflexivity.
    + apply nth_error_nth. rewrite nth_error_map, Hc. reflexivity.
Qed.

Lemma distance_series_spec (pairs : list (pyitems * pyitems)) :
  forall a b lt st,
    distance_series M pairs a b = Ok (lt, st) ->
    exists lt' st',
      lt = a ++ lt' /\ st = b ++ st' /\
      Forall2 (fun p v => get_long_text_cosine_distance M (fst p) (snd p) = Ok v)
              pairs lt' /\
      Forall2 (fun p v => get_short_text_cosine_distance M (fst p) (snd p) = Ok v)
              pairs st'.
Proof.
  induction pairs as [|p pairs IH]; intros a b lt st H; cbn [distance_series] in H.
  - injection H as <- <-. exists [], []. rewrite !app_nil_r. repeat split; constructor.
  - destruct (get_long_text_cosine_distance M (fst p) (snd p)) as [v|e] eqn:Hl;
      cbn [bind] in H; [|discriminate].
    destruct (get_short_text_cosine_distance M (fst p) (snd p)) as [w|e] eqn:Hs;
      cbn [bind] in H; [|discriminate].
    apply IH in H. destruct H as [lt' [st' [-> [-> [Hlt Hst]]]]].
    exists (v :: lt'), (w :: st'). rewrite <- !app_assoc. cbn [app].
    repeat split; constructor; assumption.
Qed.

Lemma distance_series_returns (pairs : list (pyitems * pyitems)) :
  forall lt' st' a b,
    Forall2 (fun p v => get_long_text_cosine_distance M (fst p) (snd p) = Ok v)
            pairs lt' ->
    Forall2 (fun p v => get_short_text_cosine_distance M (fst p) (snd p) = Ok v)
            pairs st' ->
    distance_series M pairs a b = Ok (a ++ lt', b ++ st').
Proof.
  induction pairs as [|p pairs IH]; intros lt' st' a b Hl Hs;
    inversion Hl; inversion Hs; subst; cbn [distance_series].
  - now rewrite !app_nil_r.
  - match goal with
    | [ H1 : get_long_text_cosine_distance _ _ _ = _,
        H2 : get_short_text_cosine_distance _ _ _ = _ |- _ ] =>
        rewrite H1, H2
    end.
    cbn [bind]. erewrite IH by eassumption. now rewrite <- !app_assoc.
Qed.

Lemma combine_map_fst {A B : Type} (a : list A) (b : list B) :
  List.length a = List.length b -> map fst (combine a b) = a.
Proof.
  revert b; induction a as [|x a IH]; intros [|y b] H; cbn in *;
    try reflexivity; try discriminate. f_equal. apply IH. lia.
Qed.

Lemma combine_map_snd {A B : Type} (a : list A) (b : list B) :
  List.length a = List.length b -> map snd (combine a b) = b.
Proof.
  revert b; induction a as [|x a IH]; intros [|y b] H; cbn in *;
    try reflexivity; try discriminate. f_equal. apply IH. lia.
Qed.

Lemma insert_scores_spec (gp : list Row) (lt st : list (pynum M)) (out : list (ScoredRow M)) :
  insert_scores M gp lt st = Ok out ->
  List.length lt = List.length gp /\ List.length st = List.length gp /\
  map (base M) out = gp /\
  map (cos_dist_lt M) out = lt /\
  map (cos_dist_st M) out = st.
Proof.
  unfold insert_scores.
  destruct (List.length lt =? List.length gp) eqn:H1; cbn [andb]; [|discriminate].
  destruct (List.length st =? List.length gp) eqn:H2; [|discriminate].
  apply Nat.eqb_eq in H1, H2. intro H; injection H as <-.
  assert (Hc : List.length st = List.length lt) by lia.
  assert (Hg : List.length gp = List.length (combine st lt))
    by (rewrite length_combine; lia).
  rewrite !map_map; cbn [base cos_dist_lt cos_dist_st].
  repeat split; try assumption.
  - now apply combine_map_fst.
  - rewrite <- (map_map snd snd), combine_map_snd by assumption.
    now apply combine_map_snd.
  - rewrite <- (map_map snd fst), combine_map_snd by assumption.
    now apply combine_map_fst.
Qed.

Lemma insert_scores_returns (gp : list Row) (lt st : list (pynum M)) :
  List.length lt = List.length gp -> List.length st = List.length gp ->
  exists out, insert_scores M gp lt st = Ok out.
Proof.
  intros H1 H2. unfold insert_scores.
  apply Nat.eqb_eq in H1, H2. rewrite H1, H2. cbn [andb]. eauto.
Qed.

End GroupBody.

(** ** Reordering by an indexer *)

Lemma take_cons {A : Type} (l : list A) (i : nat) (idx : list nat) :
  take l (i :: idx)
  = match nth_error l i with Some v => [v] | None => [] end ++ take l idx.
Proof. reflexivity. Qed.


Lemma take_seq_app {A : Type} (l2 : list A) :
  forall l1, take (l1 ++ l2) (seq (List.length l1) (List.length l2)) = l2.
Proof.
  induction l2 as [|x l2 IH]; intro l1; [reflexivity|].
  cbn [List.length seq]. rewrite take_cons.
  rewrite nth_error_app2, Nat.sub_diag by lia. cbn [nth_error app].
  f_equal. specialize (IH (l1 ++ [x])).
  rewrite <- app_assoc, length_app in IH. cbn [List.length app] in IH.
  now rewrite Nat.add_1_r in IH.
Qed.

Lemma take_seq {A : Type} (l : list A) : take l (seq 0 (List.length l)) = l.
Proof. exact (take_seq_app l []). Qed.

Lemma Permutation_take {A : Type} (l : list A) (idx idx' : list nat) :
  Permutation idx idx' -> Permutation (take l idx) (take l idx').
Proof. intro H. unfold take. now apply Permutation_flat_map. Qed.

Section Sorting.

Variable argsort : list Z -> list nat.
Hypothesis argsort_ok : argsort_spec argsort.

Lemma sort_values_Permutation (gp : list Row) :
  Permutation (sort_values argsort gp) gp.
Proof.
  unfold sort_values.
  destruct (argsort_ok (map killmail_id gp)) as [Hperm _].
  rewrite length_map in Hperm.
  apply (Permutation_take gp) in Hperm. now rewrite take_seq in Hperm.
Qed.


Lemma sort_values_length (gp : list Row) :
  List.length (sort_values argsort gp) = List.length gp.
Proof. apply Permutation_length, sort_values_Permutation. Qed.

End Sorting.

(** ** Two sorts that keep the promise of [argsort] *)

Section InsertionArgsort.

Variable before : Z -> Z -> bool.
Hypothesis before_true : forall a b, before a b = true -> (a <= b)%Z.
Hypothesis before_false : forall a b, before a b = false -> (b <= a)%Z.

Let by_key (x y : Z * nat) : Prop := (fst x <= fst y)%Z.

Lemma insert_by_Permutation (e : Z * nat) (l : list (Z * nat)) :
  Permutation (insert_by before e l) (e :: l).
Proof.
  induction l as [|x l IH]; cbn [insert_by]; [reflexivity|].
  destruct (before (fst e) (fst x)); [reflexivity|].
  rewrite IH. apply perm_swap.
Qed.

Lemma isort_Permutation (l : list (Z * nat)) :
  Permutation (fold_right (insert_by before) [] l) l.
Proof.
  induction l as [|e l IH]; cbn [fold_right]; [reflexivity|].
  rewrite insert_by_Permutation. now constructor.
Qed.

Lemma insert_by_HdRel (a e : Z * nat) (l : list (Z * nat)) :
  by_key a e -> HdRel by_key a l -> HdRel by_key a (insert_by before e l).
Proof.
  intros Hae Hal. destruct l as [|x l]; cbn [insert_by].
  - now constructor.
  - destruct (before (fst e) (fst x)); constructor; [assumption|].
    now inversion Hal.
Qed.

Lemma insert_by_Sorted (e : Z * nat) (l : list (Z * nat)) :
  Sorted by_key l -> Sorted by_key (insert_by before e l).
Proof.
  induction 1 as [|x l Hs IH Hhd]; cbn [insert_by].
  - repeat constructor.
  - destruct (before (fst e) (fst x)) eqn:Hb.
    + constructor; [now constructor|]. constructor. now apply before_true.
    + constructor; [assumption|]. apply insert_by_HdRel; [|assumption].
      now apply before_false.
Qed.

Lemma isort_Sorted (l : list (Z * nat)) :
  Sorted by_key (fold_right (insert_by before) [] l).
Proof.
  induction l as [|e l IH]; cbn [fold_right]; [constructor|].
  now apply insert_by_Sorted.
Qed.

Lemma Sorted_map_fst (l : list (Z * nat)) :
  Sorted by_key l -> Sorted Z.le (map fst l).
Proof.
  induction 1 as [|x l Hs IH Hhd]; cbn [map]; constructor; [assumption|].
  destruct Hhd; cbn [map]; constructor; assumption.
Qed.

Lemma In_combine_seq (keys : list Z) :
  forall a k i, In (k, i) (combine keys (seq a (List.length keys))) ->
                a <= i /\ nth_error keys (i - a) = Some k.
Proof.
  induction keys as [|k0 keys IH]; intros a k i Hin; [destruct Hin|].
  cbn [List.length seq combine] in Hin. destruct Hin as [Heq | Hin].
  - injection Heq as <- <-. rewrite Nat.sub_diag. split; [lia | reflexivity].
  - apply IH in Hin. destruct Hin as [Hle Hnth]. split; [lia|].
    replace (i - a) with (S (i - S a)) by lia. exact Hnth.
Qed.

Lemma take_tagged (keys : list Z) (s : list (Z * nat)) :
  (forall k i, In (k, i) s -> nth_error keys i = Some k) ->
  take keys (map snd s) = map fst s.
Proof.
  induction s as [|[k i] s IH]; intro H; [reflexivity|].
  cbn [map fst snd]. rewrite take_cons, (H k i) by now left.
  cbn [app]. f_equal. apply IH. intros k' i' Hin. apply H. now right.
Qed.

Lemma argsort_by_spec : argsort_spec (argsort_by before).
Proof.
  intro keys. unfold argsort_by.
  set (tagged := combine keys (seq 0 (List.length keys))).
  pose proof (isort_Permutation tagged) as Hperm.
  split.
  - rewrite (Permutation_map snd Hperm). unfold tagged.
    rewrite combine_map_snd by now rewrite length_seq. reflexivity.
  - rewrite take_tagged.
    + apply Sorted_map_fst, isort_Sorted.
    + intros k i Hin.
      apply (Permutation_in _ Hperm) in Hin. unfold tagged in Hin.
      apply In_combine_seq in Hin. destruct Hin as [_ Hn].
      now rewrite Nat.sub_0_r in Hn.
Qed.

End InsertionArgsort.

Lemma argsort_stable_spec : argsort_spec argsort_stable.
Proof.
  apply argsort_by_spec; intros a b H.
  - now apply Z.leb_le.
  - apply Z.leb_gt in H. lia.
Qed.


(** ** numpy's quicksort: insertion sort *)

Lemma key_lt_true (a b : entry) : key_lt a b = true <-> (fst a < fst b)%Z.
Proof. unfold key_lt. apply Z.ltb_lt. Qed.

Lemma key_lt_false (a b : entry) : key_lt a b = false <-> (fst b <= fst a)%Z.
Proof. unfold key_lt. apply Z.ltb_ge. Qed.

Lemma entry_eq_dec (a b : entry) : {a = b} + {a <> b}.
Proof. decide equality; [apply Nat.eq_dec | apply Z.eq_dec]. Qed.

Lemma StronglySorted_app {A : Type} (R : A -> A -> Prop) (l1 l2 : list A) :
  StronglySorted R l1 -> StronglySorted R l2 ->
  (forall a b, In a l1 -> In b l2 -> R a b) ->
  StronglySorted R (l1 ++ l2).
Proof.
  intros H1 H2 H. induction H1 as [|a l1 Hs IH Hall]; cbn [app]; [assumption|].
  constructor.
  - apply IH. intros x y Hx Hy. apply H; [now right | assumption].
  - apply Forall_app. split; [assumption|].
    apply Forall_forall. intros y Hy. apply H; [now left | assumption].
Qed.

Lemma StronglySorted_rev {A : Type} (R : A -> A -> Prop) (l : list A) :
  StronglySorted (fun a b => R b a) l -> StronglySorted R (rev l).
Proof.
  induction 1 as [|a l Hs IH Hall]; cbn [rev]; [constructor|].
  apply StronglySorted_app; [assumption | repeat constructor|].
  intros x y Hx [<- | []]. rewrite Forall_forall in Hall.
  apply Hall. now apply in_rev.
Qed.

Lemma insert_back_Permutation (x : entry) (rp : list entry) :
  Permutation (insert_back x rp) (x :: rp).
Proof.
  induction rp as [|y rp IH]; cbn [insert_back]; [reflexivity|].
  destruct (key_lt x y); [|reflexivity].
  rewrite IH. apply perm_swap.
Qed.

Lemma insert_back_sorted (x : entry) (rp : list entry) :
  StronglySorted (fun a b => key_le b a) rp ->
  StronglySorted (fun a b => key_le b a) (insert_back x rp).
Proof.
  induction 1 as [|y rp Hs IH Hall]; cbn [insert_back]; [repeat constructor|].
  destruct (key_lt x y) eqn:Hxy.
  - apply key_lt_true in Hxy. constructor; [assumption|].
    apply (Permutation_Forall (Permutation_sym (insert_back_Permutation x rp))).
    constructor; [unfold key_le; lia | assumption].
  - apply key_lt_false in Hxy. constructor; [now constructor|].
    constructor; [exact Hxy|].
    eapply Forall_impl; [|exact Hall]. unfold key_le. intros a Ha. lia.
Qed.

Lemma insertion_sort_rev_spec (seg rp : list entry) :
  StronglySorted (fun a b => key_le b a) rp ->
  StronglySorted (fun a b => key_le b a)
                 (fold_left (fun rp x => insert_back x rp) seg rp) /\
  Permutation (fold_left (fun rp x => insert_back x rp) seg rp) (rev seg ++ rp).
Proof.
  revert rp. induction seg as [|x seg IH]; intros rp Hs; cbn [fold_left rev app].
  - split; [assumption | reflexivity].
  - destruct (IH (insert_back x rp) (insert_back_sorted x rp Hs)) as [H1 H2].
    split; [assumption|]. rewrite H2, insert_back_Permutation, <- app_assoc.
    reflexivity.
Qed.

Lemma insertion_sort_sorted (seg : list entry) :
  StronglySorted key_le (insertion_sort seg).
Proof.
  unfold insertion_sort. apply StronglySorted_rev.
  apply (insertion_sort_rev_spec seg []). constructor.
Qed.

Lemma insertion_sort_Permutation (seg : list entry) :
  Permutation (insertion_sort seg) seg.
Proof.
  unfold insertion_sort. rewrite <- Permutation_rev.
  rewrite (proj2 (insertion_sort_rev_spec seg [] (SSorted_nil _))).
  rewrite app_nil_r. symmetry. apply Permutation_rev.
Qed.

(** Entries with the same key keep their order. *)
Lemma insert_back_stable (k : Z) (x : entry) (rp : list entry) :
  filter (fun e => (fst e =? k)%Z) (rev (insert_back x rp))
  = filter (fun e => (fst e =? k)%Z) (rev rp ++ [x]).
Proof.
  induction rp as [|y rp IH]; cbn [insert_back]; [reflexivity|].
  destruct (key_lt x y) eqn:Hxy; [|reflexivity].
  apply key_lt_true in Hxy. cbn [rev].
  rewrite !filter_app.
  etransitivity; [apply (f_equal (fun l => l ++ _) IH)|].
  cbv beta. rewrite !filter_app, <- !app_assoc. f_equal.
  cbn [filter].
  destruct (fst x =? k)%Z eqn:Hx, (fst y =? k)%Z eqn:Hy; try reflexivity.
  apply Z.eqb_eq in Hx, Hy. lia.
Qed.

Lemma insertion_sort_stable (k : Z) (seg : list entry) :
  filter (fun e => (fst e =? k)%Z) (insertion_sort seg)
  = filter (fun e => (fst e =? k)%Z) seg.
Proof.
  unfold insertion_sort.
  assert (H : forall rp,
             filter (fun e => (fst e =? k)%Z)
                    (rev (fold_left (fun rp x => insert_back x rp) seg rp))
             = filter (fun e => (fst e =? k)%Z) (rev rp ++ seg)).
  { induction seg as [|x seg IH]; intro rp; cbn [fold_left].
    - now rewrite app_nil_r.
    - rewrite IH, !filter_app.
      etransitivity;
        [apply (f_equal (fun l => l ++ _) (insert_back_stable k x rp))|].
      cbv beta. rewrite filter_app, <- app_assoc. f_equal.
      cbn [filter]. destruct (fst x =? k)%Z; reflexivity. }
  apply (H []).
Qed.

(** ** numpy's quicksort: partition around the median of three *)

Lemma count_occ_cons_if (a x : entry) (l : list entry) :
  count_occ entry_eq_dec (a :: l) x
  = (if entry_eq_dec a x then 1 else 0) + count_occ entry_eq_dec l x.
Proof. cbn [count_occ]. destruct (entry_eq_dec a x); reflexivity. Qed.

Ltac count_simpl :=
  repeat first [ rewrite count_occ_app | rewrite count_occ_rev
               | rewrite count_occ_cons_if ];
  cbn [count_occ].

Ltac count_simpl_in H :=
  repeat first [ rewrite count_occ_app in H | rewrite count_occ_rev in H
               | rewrite count_occ_cons_if in H ];
  cbn [count_occ] in H.

Ltac count_of H z :=
  let C := fresh "C" in
  pose proof (proj1 (Permutation_count_occ entry_eq_dec _ _) H z) as C;
  count_simpl_in C.

Ltac by_counts z :=
  apply (Permutation_count_occ entry_eq_dec); intro z; count_simpl.

Lemma span_spec (p : entry -> bool) (l a b : list entry) :
  span p l = (a, b) ->
  l = a ++ b /\ Forall (fun x => p x = true) a /\
  match b with [] => True | y :: _ => p y = false end.
Proof.
  revert a b. induction l as [|x l IH]; intros a b H; cbn [span] in H.
  - injection H as <- <-. repeat split. constructor.
  - destruct (p x) eqn:Hx.
    + destruct (span p l) as [a' b'] eqn:Hs. injection H as <- <-.
      destruct (IH a' b' eq_refl) as (-> & Hall & Hb).
      repeat split; [now constructor | assumption].
    + injection H as <- <-. repeat split; [constructor | assumption].
Qed.

Lemma hoare_spec (vp : Z) (fuel : nat) : forall m lo hi,
  List.length m <= fuel -> hoare fuel vp m = (lo, hi) ->
  Permutation (lo ++ hi) m /\
  Forall (fun a => (fst a <= vp)%Z) lo /\
  Forall (fun a => (vp <= fst a)%Z) hi.
Proof.
  induction fuel as [|fuel IH]; intros m lo hi Hlen H; cbn [hoare] in H.
  - injection H as <- <-. destruct m; [|cbn in Hlen; lia].
    repeat split; constructor.
  - destruct (span (fun a => (fst a <? vp)%Z) m) as [s rest] eqn:Hs.
    apply span_spec in Hs. destruct Hs as (-> & Hsall & Hhead).
    assert (Hs' : Forall (fun a => (fst a <= vp)%Z) s).
    { eapply Forall_impl; [|exact Hsall]. cbv beta. intros a Ha.
      apply Z.ltb_lt in Ha. lia. }
    destruct rest as [|x r].
    { injection H as <- <-. repeat split; [reflexivity | assumption | constructor]. }
    apply Z.ltb_ge in Hhead.
    destruct (span (fun a => (vp <? fst a)%Z) (rev r)) as [g rest'] eqn:Hg.
    apply span_spec in Hg. destruct Hg as (Hr & Hgall & Hhead').
    assert (Hg' : Forall (fun a => (vp <= fst a)%Z) (rev g)).
    { apply Forall_rev. eapply Forall_impl; [|exact Hgall]. cbv beta.
      intros a Ha. apply Z.ltb_lt in Ha. lia. }
    assert (Hrr : r = rev (g ++ rest')) by (rewrite <- Hr; now rewrite rev_involutive).
    destruct rest' as [|y m'].
    { injection H as <- <-. rewrite app_nil_r in Hrr. subst r.
      repeat split; [reflexivity | assumption | now constructor]. }
    apply Z.ltb_ge in Hhead'.
    destruct (hoare fuel vp (rev m')) as [lo' hi'] eqn:Hrec.
    injection H as <- <-.
    apply IH in Hrec.
    2:{ subst r. rewrite length_app in Hlen. cbn [List.length] in Hlen.
        rewrite !length_rev, length_app in Hlen. cbn [List.length] in Hlen.
        rewrite length_rev. lia. }
    destruct Hrec as (Hperm & Hlo & Hhi). subst r. repeat split.
    + by_counts z. count_of Hperm z. lia.
    + apply Forall_app. split; [assumption|]. now constructor.
    + apply Forall_app. split; [assumption|]. now constructor.
Qed.

Lemma median3_spec (x0 xm xr l p r : entry) :
  median3 x0 xm xr = (l, p, r) ->
  Permutation [l; p; r] [x0; xm; xr] /\ key_le l p /\ key_le p r.
Proof.
  unfold median3, key_le. intro H.
  destruct (key_lt xm x0) eqn:H1; cbv beta iota zeta in H;
    [apply key_lt_true in H1 | apply key_lt_false in H1].
  all: match type of H with context [if key_lt ?a ?b then _ else _] =>
         destruct (key_lt a b) eqn:H2; cbv beta iota zeta in H;
           [apply key_lt_true in H2 | apply key_lt_false in H2] end.
  all: match type of H with context [if key_lt ?a ?b then _ else _] =>
         destruct (key_lt a b) eqn:H3; cbv beta iota zeta in H;
           [apply key_lt_true in H3 | apply key_lt_false in H3] end.
  all: injection H as <- <- <-.
  all: repeat split; try lia.
  all: by_counts z; lia.
Qed.

Lemma skipn_nth (l : list entry) (i : nat) :
  i < List.length l -> skipn i l = nth i l no_entry :: skipn (S i) l.
Proof.
  revert i. induction l as [|x l IH]; intros i Hi; [cbn in Hi; lia|].
  destruct i as [|i]; [reflexivity|].
  cbn [skipn nth]. apply IH. cbn in Hi. lia.
Qed.

(** The five parts [aquicksort] reads a segment in: first entry, the entries
    before the middle, the middle one, the entries after it, and the last
    two. *)
Lemma segment_shape (seg : list entry) (m : nat) :
  1 <= m -> m + 3 <= List.length seg ->
  seg = nth 0 seg no_entry
        :: firstn (m - 1) (skipn 1 seg)
        ++ nth m seg no_entry
        :: firstn (List.length seg - 3 - m) (skipn (m + 1) seg)
        ++ [nth (List.length seg - 2) seg no_entry;
            nth (List.length seg - 1) seg no_entry].
Proof.
  intros Hm Hn. set (n := List.length seg) in *.
  assert (E1 : seg = nth 0 seg no_entry :: skipn 1 seg).
  { apply (skipn_nth seg 0). fold n. lia. }
  assert (E2 : skipn 1 seg = firstn (m - 1) (skipn 1 seg) ++ skipn m seg).
  { rewrite <- (firstn_skipn (m - 1) (skipn 1 seg)) at 1. f_equal.
    rewrite skipn_skipn. f_equal. lia. }
  assert (E3 : skipn m seg = nth m seg no_entry :: skipn (m + 1) seg).
  { rewrite Nat.add_1_r. apply skipn_nth. fold n. lia. }
  assert (E4 : skipn (m + 1) seg
               = firstn (n - 3 - m) (skipn (m + 1) seg) ++ skipn (n - 2) seg).
  { rewrite <- (firstn_skipn (n - 3 - m) (skipn (m + 1) seg)) at 1. f_equal.
    rewrite skipn_skipn. f_equal. lia. }
  assert (E5 : skipn (n - 2) seg
               = [nth (n - 2) seg no_entry; nth (n - 1) seg no_entry]).
  { rewrite (skipn_nth seg (n - 2)) by (fold n; lia). f_equal.
    replace (S (n - 2)) with (n - 1) by lia.
    rewrite (skipn_nth seg (n - 1)) by (fold n; lia). f_equal.
    apply skipn_all2. fold n. lia. }
  etransitivity; [exact E1|]. f_equal.
  etransitivity; [exact E2|]. f_equal.
  etransitivity; [exact E3|]. f_equal.
  etransitivity; [exact E4|]. f_equal. exact E5.
Qed.

Lemma partition_spec (seg L R : list entry) (p : entry) :
  4 <= List.length seg -> partition seg = (L, p, R) ->
  Permutation (L ++ p :: R) seg /\
  Forall (fun a => key_le a p) L /\ Forall (fun a => key_le p a) R.
Proof.
  intros Hn H. unfold partition in H.
  set (n := List.length seg) in *. set (m := (n - 1) / 2) in *.
  assert (Hm : 1 <= m /\ m + 3 <= n).
  { pose proof (Nat.div_mod_eq (n - 1) 2) as E.
    pose proof (Nat.mod_upper_bound (n - 1) 2) as U. fold m in E. lia. }
  destruct (median3 _ _ _) as [[l q] r] eqn:Hmed.
  apply median3_spec in Hmed. destruct Hmed as (Hp3 & Hlq & Hqr).
  match type of H with context [hoare ?f ?v ?x] =>
    destruct (hoare f v x) as [lo hi] eqn:Hh; apply hoare_spec in Hh;
      [|apply Nat.le_refl] end.
  destruct Hh as (Hperm & Hlo & Hhi).
  injection H as <- <- <-. repeat split.
  - pose proof (segment_shape seg m (proj1 Hm) (proj2 Hm)) as Hshape.
    fold n in Hshape.
    apply (Permutation_count_occ entry_eq_dec). intro z.
    rewrite Hshape at 1. count_simpl. count_of Hperm z. count_of Hp3 z.
    destruct hi as [|h hs]; count_simpl; count_simpl_in C; lia.
  - constructor; assumption.
  - unfold key_le. destruct hi as [|h hs]; [now repeat constructor|].
    apply Forall_app. inversion Hhi; subst.
    split; [assumption | now repeat constructor].
Qed.

Lemma partition_lengths (seg L R : list entry) (p : entry) :
  4 <= List.length seg -> partition seg = (L, p, R) ->
  List.length L < List.length seg /\ List.length R < List.length seg.
Proof.
  intros Hn H. destruct (partition_spec seg L R p Hn H) as (Hperm & _).
  apply Permutation_length in Hperm. rewrite length_app in Hperm.
  cbn [List.length] in Hperm. lia.
Qed.

(** ** numpy's quicksort: the heapsort it falls back on *)

Lemma length_set1 (a : list entry) (k : nat) (x : entry) :
  1 <= k -> k <= List.length a -> List.length (set1 a k x) = List.length a.
Proof.
  intros H1 H2. unfold set1.
  rewrite length_app, length_firstn. cbn [List.length].
  rewrite length_skipn. lia.
Qed.

Lemma nth_update (l : list entry) (i j : nat) (x : entry) :
  i < List.length l ->
  nth j (firstn i l ++ x :: skipn (S i) l) no_entry
  = if j =? i then x else nth j l no_entry.
Proof.
  revert i j. induction l as [|y l IH]; intros i j Hi; [cbn in Hi; lia|].
  destruct i as [|i]; cbn [firstn skipn app].
  - destruct j as [|j]; reflexivity.
  - destruct j as [|j]; [reflexivity|]. cbn [nth].
    rewrite IH by (cbn in Hi; lia). reflexivity.
Qed.

Lemma get1_set1 (a : list entry) (i k : nat) (x : entry) :
  1 <= i -> i <= List.length a -> 1 <= k ->
  get1 (set1 a i x) k = if k =? i then x else get1 a k.
Proof.
  intros Hi Hn Hk. unfold get1, set1.
  destruct i as [|i]; [lia|]. destruct k as [|k]; [lia|].
  cbn [Nat.sub]. rewrite !Nat.sub_0_r. rewrite nth_update by lia.
  reflexivity.
Qed.

Lemma key_at_set1 (a : list entry) (i k : nat) (x : entry) :
  1 <= i -> i <= List.length a -> 1 <= k ->
  key_at (set1 a i x) k = if k =? i then fst x else key_at a k.
Proof.
  intros Hi Hn Hk. unfold key_at. rewrite get1_set1 by assumption.
  destruct (k =? i); reflexivity.
Qed.

Lemma set1_get1 (a : list entry) (i : nat) :
  1 <= i -> i <= List.length a -> set1 a i (get1 a i) = a.
Proof.
  intros Hi Hn. unfold set1, get1. destruct i as [|i]; [lia|].
  cbn [Nat.sub]. rewrite Nat.sub_0_r.
  rewrite <- skipn_nth by lia. apply firstn_skipn.
Qed.

Lemma count_set1 (a : list entry) (i : nat) (x z : entry) :
  1 <= i -> i <= List.length a ->
  count_occ entry_eq_dec (set1 a i x) z + count_occ entry_eq_dec [get1 a i] z
  = count_occ entry_eq_dec a z + count_occ entry_eq_dec [x] z.
Proof.
  intros Hi Hn. rewrite <- (set1_get1 a i Hi Hn) at 3. unfold set1.
  count_simpl. lia.
Qed.

Lemma sift_eq (fuel : nat) (a : list entry) (n : nat) (tmp : entry) (i : nat) :
  sift (S fuel) a n tmp i
  = if 2 * i <=? n then
      let j := if (2 * i <? n) && key_lt (get1 a (2 * i)) (get1 a (2 * i + 1))
               then 2 * i + 1 else 2 * i in
      if key_lt tmp (get1 a j)
      then sift fuel (set1 a i (get1 a j)) n tmp j
      else set1 a i tmp
    else set1 a i tmp.
Proof. reflexivity. Qed.

(** Sifting [tmp] down from the hole at [i]: the array with [tmp] in the hole
    is a heap everywhere but at [i], and the parent of [i] dominates the
    children of [i]. *)
Lemma sift_spec (n lo : nat) (tmp : entry) : forall fuel a i,
  n <= List.length a -> 1 <= lo -> lo <= i -> i <= n -> n < fuel + i ->
  (forall k, lo <= k -> k <= n -> k <> i -> heap_at (set1 a i tmp) n k) ->
  (forall k c, lo <= k -> i = 2 * k \/ i = 2 * k + 1 ->
               c = 2 * i \/ c = 2 * i + 1 -> c <= n ->
               (key_at a c <= key_at a k)%Z) ->
  heap_from (sift fuel a n tmp i) lo n /\
  (forall z, count_occ entry_eq_dec (sift fuel a n tmp i) z
             = count_occ entry_eq_dec (set1 a i tmp) z) /\
  List.length (sift fuel a n tmp i) = List.length a /\
  (forall k, n < k -> get1 (sift fuel a n tmp i) k = get1 a k) /\
  (forall k, 1 <= k -> k <= n ->
             exists k0, 1 <= k0 /\ k0 <= n /\
                        get1 (sift fuel a n tmp i) k = get1 (set1 a i tmp) k0).
Proof.
  induction fuel as [|fuel IH]; intros a i Hn Hlo Hi Hin Hfuel H1 H2; [lia|].
  assert (Hstop : (2 * i <= n -> (key_at a (2 * i) <= fst tmp)%Z) ->
                  (2 * i + 1 <= n -> (key_at a (2 * i + 1) <= fst tmp)%Z) ->
                  heap_from (set1 a i tmp) lo n /\
                  (forall z, count_occ entry_eq_dec (set1 a i tmp) z
                             = count_occ entry_eq_dec (set1 a i tmp) z) /\
                  List.length (set1 a i tmp) = List.length a /\
                  (forall k, n < k -> get1 (set1 a i tmp) k = get1 a k) /\
                  (forall k, 1 <= k -> k <= n ->
                     exists k0, 1 <= k0 /\ k0 <= n /\
                                get1 (set1 a i tmp) k = get1 (set1 a i tmp) k0)).
  { intros Hc1 Hc2. repeat split.
    - destruct (Nat.eq_dec k i) as [->|Hk]; [|apply H1; assumption].
      intro Hc. rewrite !key_at_set1 by lia.
      replace (2 * i =? i) with false by (symmetry; apply Nat.eqb_neq; lia).
      rewrite Nat.eqb_refl. auto.
    - destruct (Nat.eq_dec k i) as [->|Hk]; [|apply H1; assumption].
      intro Hc. rewrite !key_at_set1 by lia.
      replace (2 * i + 1 =? i) with false by (symmetry; apply Nat.eqb_neq; lia).
      rewrite Nat.eqb_refl. auto.
    - apply length_set1; lia.
    - intros k Hk. rewrite get1_set1 by lia.
      replace (k =? i) with false by (symmetry; apply Nat.eqb_neq; lia).
      reflexivity.
    - intros k Hk1 Hk2. exists k. auto. }
  rewrite sift_eq. destruct (2 * i <=? n) eqn:E1.
  2:{ apply Nat.leb_gt in E1. apply Hstop; intro; lia. }
  apply Nat.leb_le in E1.
  set (j := if (2 * i <? n) && key_lt (get1 a (2 * i)) (get1 a (2 * i + 1))
            then 2 * i + 1 else 2 * i).
  assert (Hj : (j = 2 * i \/ j = 2 * i + 1) /\ j <= n /\
               (key_at a (2 * i) <= key_at a j)%Z /\
               (2 * i + 1 <= n -> (key_at a (2 * i + 1) <= key_at a j)%Z)).
  { subst j. unfold key_at.
    destruct (2 * i <? n) eqn:E2; cbn [andb].
    - apply Nat.ltb_lt in E2.
      destruct (key_lt _ _) eqn:E3;
        [apply key_lt_true in E3 | apply key_lt_false in E3];
        repeat split; try lia; auto.
    - apply Nat.ltb_ge in E2. repeat split; try lia; auto. }
  clearbody j. destruct Hj as (Hj & Hjn & Hj1 & Hj2). cbv zeta.
  destruct (key_lt tmp (get1 a j)) eqn:E4;
    [apply key_lt_true in E4 | apply key_lt_false in E4].
  2:{ fold (key_at a j) in E4. apply Hstop; intro; lia. }
  fold (key_at a j) in E4.
  set (a1 := set1 a i (get1 a j)).
  assert (Hlen1 : List.length a1 = List.length a) by (apply length_set1; lia).
  assert (Hij : i <> j) by lia.
  destruct (IH a1 j) as (G1 & G2 & G3 & G4 & G5); try lia.
  - (* the heap outside the new hole *)
    intros k Hk1 Hk2 Hkj. unfold a1.
    assert (Hkey : forall c, 1 <= c ->
              key_at (set1 (set1 a i (get1 a j)) j tmp) c
              = if c =? j then fst tmp
                else if c =? i then key_at a j else key_at a c).
    { intros c Hc. rewrite key_at_set1 by (rewrite ?length_set1; lia).
      destruct (c =? j); [reflexivity|].
      rewrite key_at_set1 by lia. reflexivity. }
    assert (Hold : forall c, 1 <= c ->
              key_at (set1 a i tmp) c = if c =? i then fst tmp else key_at a c).
    { intros c Hc. apply key_at_set1; lia. }
    destruct (Nat.eq_dec k i) as [->|Hki].
    + split; intro Hc; rewrite !Hkey by lia;
        rewrite Nat.eqb_refl;
        replace (i =? j) with false by (symmetry; apply Nat.eqb_neq; lia).
      * replace (2 * i =? i) with false by (symmetry; apply Nat.eqb_neq; lia).
        destruct (2 * i =? j); lia.
      * replace (2 * i + 1 =? i) with false
          by (symmetry; apply Nat.eqb_neq; lia).
        specialize (Hj2 Hc). destruct (2 * i + 1 =? j); lia.
    + destruct (H1 k Hk1 Hk2 Hki) as [O1 O2].
      split; intro Hc; rewrite !Hkey by lia.
      * specialize (O1 Hc). rewrite !Hold in O1 by lia.
        replace (k =? j) with false by (symmetry; apply Nat.eqb_neq; lia).
        replace (k =? i) with false in * by (symmetry; apply Nat.eqb_neq; lia).
        replace (2 * k =? j) with false
          by (symmetry; apply Nat.eqb_neq; lia).
        destruct (2 * k =? i) eqn:E5; [|exact O1].
        apply Nat.eqb_eq in E5. apply (H2 k j); lia.
      * specialize (O2 Hc). rewrite !Hold in O2 by lia.
        replace (k =? j) with false by (symmetry; apply Nat.eqb_neq; lia).
        replace (k =? i) with false in * by (symmetry; apply Nat.eqb_neq; lia).
        replace (2 * k + 1 =? j) with false
          by (symmetry; apply Nat.eqb_neq; lia).
        destruct (2 * k + 1 =? i) eqn:E5; [|exact O2].
        apply Nat.eqb_eq in E5. apply (H2 k j); lia.
  - (* the parent of the new hole dominates its children *)
    intros k c Hk Hpar Hc Hcn.
    assert (k = i) by lia. subst k. unfold a1.
    rewrite !key_at_set1 by lia. rewrite Nat.eqb_refl.
    replace (c =? i) with false by (symmetry; apply Nat.eqb_neq; lia).
    assert (Hji : lo <= j) by lia.
    destruct (H1 j Hji Hjn (not_eq_sym Hij)) as [O1 O2].
    rewrite !key_at_set1 in O1, O2 by lia.
    replace (j =? i) with false in * by (symmetry; apply Nat.eqb_neq; lia).
    replace (2 * j =? i) with false in * by (symmetry; apply Nat.eqb_neq; lia).
    replace (2 * j + 1 =? i) with false in *
      by (symmetry; apply Nat.eqb_neq; lia).
    destruct Hc as [-> | ->]; [apply O1 | apply O2]; lia.
  - split; [exact G1|]. split; [|split; [|split]].
    + intro z. rewrite G2. unfold a1.
      pose proof (count_set1 (set1 a i (get1 a j)) j tmp z) as C1.
      pose proof (count_set1 a i (get1 a j) z) as C2.
      pose proof (count_set1 a i tmp z) as C3.
      rewrite get1_set1 in C1 by lia.
      replace (j =? i) with false in C1 by (symmetry; apply Nat.eqb_neq; lia).
      rewrite length_set1 in C1 by lia.
      specialize (C1 ltac:(lia) ltac:(lia)).
      specialize (C2 ltac:(lia) ltac:(lia)).
      specialize (C3 ltac:(lia) ltac:(lia)). lia.
    + lia.
    + intros k Hk. rewrite G4 by assumption. unfold a1.
      rewrite get1_set1 by lia.
      replace (k =? i) with false by (symmetry; apply Nat.eqb_neq; lia).
      reflexivity.
    + intros k Hk1 Hk2. destruct (G5 k Hk1 Hk2) as (k0 & K1 & K2 & K3).
      rewrite K3. unfold a1.
      rewrite get1_set1 by (rewrite ?length_set1; lia).
      destruct (k0 =? j) eqn:E5.
      * exists i. rewrite get1_set1 by lia. rewrite Nat.eqb_refl.
        repeat split; lia.
      * rewrite get1_set1 by lia. destruct (k0 =? i) eqn:E6.
        -- exists j. rewrite get1_set1 by lia.
           replace (j =? i) with false by (symmetry; apply Nat.eqb_neq; lia).
           repeat split; lia.
        -- exists k0. rewrite get1_set1 by lia. rewrite E6.
           repeat split; lia.
Qed.

Lemma heapify_spec (n : nat) : forall l a,
  n <= List.length a -> l <= n -> heap_from a (l + 1) n ->
  heap_from (heapify l a n) 1 n /\
  (forall z, count_occ entry_eq_dec (heapify l a n) z
             = count_occ entry_eq_dec a z) /\
  List.length (heapify l a n) = List.length a.
Proof.
  induction l as [|l IH]; intros a Hn Hl Hheap; cbn [heapify].
  - split; [exact Hheap|]. split; reflexivity.
  - destruct (sift_spec n (S l) (get1 a (S l)) n a (S l))
      as (G1 & G2 & G3 & _); try lia.
    + intros k Hk1 Hk2 Hk3. rewrite set1_get1 by lia.
      apply Hheap; lia.
    + rewrite set1_get1 in G2 by lia.
      destruct (IH (sift n a n (get1 a (S l)) (S l))) as (I1 & I2 & I3);
        try lia.
      { rewrite Nat.add_1_r. exact G1. }
      split; [exact I1|]. split; [|lia].
      intro z. rewrite I2. apply G2.
Qed.

Lemma heap_root_max (a : list entry) (n : nat) :
  heap_from a 1 n ->
  forall k, 1 <= k -> k <= n -> (key_at a k <= key_at a 1)%Z.
Proof.
  intros Hheap k. induction k as [k IH] using lt_wf_ind. intros Hk1 Hk2.
  destruct (Nat.eq_dec k 1) as [->|Hne]; [lia|].
  pose proof (Nat.div_mod_eq k 2) as E.
  pose proof (Nat.mod_upper_bound k 2 ltac:(lia)) as U.
  set (p := k / 2) in *.
  assert (Hp : 1 <= p /\ p < k) by lia.
  specialize (IH p ltac:(lia) ltac:(lia) ltac:(lia)).
  destruct (Hheap p ltac:(lia) ltac:(lia)) as [O1 O2].
  assert (Hc : k = 2 * p \/ k = 2 * p + 1) by lia.
  destruct Hc as [Hc | Hc]; rewrite Hc at 1; [specialize (O1 ltac:(lia)) | specialize (O2 ltac:(lia))]; lia.
Qed.

Lemma extract_spec : forall n a,
  n <= List.length a -> heap_from a 1 n ->
  (forall k k', n < k -> k <= k' -> k' <= List.length a ->
                (key_at a k <= key_at a k')%Z) ->
  (forall k k', 1 <= k -> k <= n -> n < k' -> k' <= List.length a ->
                (key_at a k <= key_at a k')%Z) ->
  (forall k k', 1 <= k -> k <= k' -> k' <= List.length a ->
                (key_at (extract n a) k <= key_at (extract n a) k')%Z) /\
  (forall z, count_occ entry_eq_dec (extract n a) z
             = count_occ entry_eq_dec a z) /\
  List.length (extract n a) = List.length a.
Proof.
  induction n as [|n IH]; intros a Hn Hheap Hs1 Hs2; cbn [extract].
  { split; [|split; reflexivity]. intros k k' H1 H2 H3. apply Hs1; lia. }
  destruct (1 <? S n) eqn:E1.
  2:{ apply Nat.ltb_ge in E1. split; [|split; reflexivity].
      intros k k' H1 H2 H3.
      destruct (Nat.eq_dec k k') as [->|Hne]; [lia|].
      destruct (Nat.eq_dec k 1) as [->|Hk]; [apply Hs2 | apply Hs1]; lia. }
  apply Nat.ltb_lt in E1.
  set (a1 := set1 a (S n) (get1 a 1)). set (tmp := get1 a (S n)).
  assert (Hlen1 : List.length a1 = List.length a) by (apply length_set1; lia).
  assert (Hkey1 : forall c, 1 <= c ->
            key_at a1 c = if c =? S n then key_at a 1 else key_at a c).
  { intros c Hc. unfold a1. apply key_at_set1; lia. }
  assert (Hget1 : forall c, 1 <= c ->
            get1 a1 c = if c =? S n then get1 a 1 else get1 a c).
  { intros c Hc. unfold a1. apply get1_set1; lia. }
  destruct (sift_spec n 1 tmp n a1 1) as (G1 & G2 & G3 & G4 & G5); try lia.
  { intros k Hk1 Hk2 Hk3.
    destruct (Hheap k ltac:(lia) ltac:(lia)) as [O1 O2].
    split; intro Hc; rewrite !key_at_set1 by lia; rewrite !Hkey1 by lia.
    - replace (2 * k =? 1) with false by (symmetry; apply Nat.eqb_neq; lia).
      replace (k =? 1) with false by (symmetry; apply Nat.eqb_neq; lia).
      replace (2 * k =? S n) with false
        by (symmetry; apply Nat.eqb_neq; lia).
      replace (k =? S n) with false by (symmetry; apply Nat.eqb_neq; lia).
      apply O1. lia.
    - replace (2 * k + 1 =? 1) with false
        by (symmetry; apply Nat.eqb_neq; lia).
      replace (k =? 1) with false by (symmetry; apply Nat.eqb_neq; lia).
      replace (2 * k + 1 =? S n) with false
        by (symmetry; apply Nat.eqb_neq; lia).
      replace (k =? S n) with false by (symmetry; apply Nat.eqb_neq; lia).
      apply O2. lia. }
  set (r1 := sift n a1 n tmp 1) in *.
  assert (Hlow : forall k, 1 <= k -> k <= n ->
            exists k0, 1 <= k0 /\ k0 <= S n /\ key_at r1 k = key_at a k0).
  { intros k Hk1 Hk2. destruct (G5 k Hk1 Hk2) as (k0 & K1 & K2 & K3).
    unfold key_at at 1. rewrite K3. rewrite get1_set1 by lia.
    destruct (k0 =? 1) eqn:E2.
    - exists (S n). repeat split; lia.
    - apply Nat.eqb_neq in E2. rewrite Hget1 by lia.
      replace (k0 =? S n) with false by (symmetry; apply Nat.eqb_neq; lia).
      exists k0. repeat split; lia. }
  assert (Hhigh : forall k, n < k ->
            key_at r1 k = if k =? S n then key_at a 1 else key_at a k).
  { intros k Hk. unfold key_at at 1. rewrite G4 by assumption.
    rewrite Hget1 by lia. destruct (k =? S n); reflexivity. }
  destruct (IH r1) as (I1 & I2 & I3); try lia.
  - exact G1.
  - intros k k' H1 H2 H3. rewrite !Hhigh by lia.
    destruct (k =? S n) eqn:E2;
      [apply Nat.eqb_eq in E2 | apply Nat.eqb_neq in E2];
      (destruct (k' =? S n) eqn:E3;
         [apply Nat.eqb_eq in E3 | apply Nat.eqb_neq in E3]).
    + lia.
    + apply Hs2; lia.
    + lia.
    + apply Hs1; lia.
  - intros k k' H1 H2 H3 H4. rewrite (Hhigh k') by lia.
    destruct (Hlow k H1 H2) as (k0 & K1 & K2 & ->).
    destruct (k' =? S n) eqn:E3.
    + apply (heap_root_max a (S n) Hheap); lia.
    + apply Nat.eqb_neq in E3. apply Hs2; lia.
  - split; [|split; [|lia]].
    + intros k k' H1 H2 H3. apply I1; lia.
    + intro z. rewrite I2, G2.
      pose proof (count_set1 a1 1 tmp z ltac:(lia) ltac:(lia)) as C1.
      pose proof (count_set1 a (S n) (get1 a 1) z ltac:(lia) ltac:(lia)) as C2.
      fold a1 in C2. rewrite Hget1 in C1 by lia.
      replace (1 =? S n) with false in C1
        by (symmetry; apply Nat.eqb_neq; lia).
      fold tmp in C2. lia.
Qed.

Lemma key_at_tail (x : entry) (l : list entry) (k : nat) :
  1 <= k -> key_at (x :: l) (S k) = key_at l k.
Proof.
  intro Hk. unfold key_at, get1.
  replace (S k - 1) with (S (k - 1)) by lia. reflexivity.
Qed.

Lemma sorted_by_position (l : list entry) :
  (forall k k', 1 <= k -> k <= k' -> k' <= List.length l ->
                (key_at l k <= key_at l k')%Z) ->
  StronglySorted key_le l.
Proof.
  induction l as [|x l IH]; intro H; constructor.
  - apply IH. intros k k' H1 H2 H3.
    specialize (H (S k) (S k') ltac:(lia) ltac:(lia) ltac:(cbn; lia)).
    rewrite !key_at_tail in H by lia. exact H.
  - apply Forall_forall. intros y Hy.
    destruct (In_nth l y no_entry Hy) as (i & Hi & <-).
    specialize (H 1 (S (S i)) ltac:(lia) ltac:(lia) ltac:(cbn; lia)).
    rewrite (key_at_tail x l (S i)) in H by lia. unfold key_le.
    unfold key_at, get1 in H. cbn [Nat.sub nth] in H.
    rewrite ?Nat.sub_0_r in H. exact H.
Qed.

Lemma aheapsort_spec (a : list entry) :
  StronglySorted key_le (aheapsort a) /\ Permutation (aheapsort a) a.
Proof.
  unfold aheapsort. set (n := List.length a).
  pose proof (Nat.div_mod_eq n 2) as E.
  pose proof (Nat.mod_upper_bound n 2 ltac:(lia)) as U.
  destruct (heapify_spec n (n / 2) a) as (G1 & G2 & G3); try (fold n; lia).
  { intros k Hk1 Hk2. split; intro; lia. }
  fold n in G3.
  destruct (extract_spec n (heapify (n / 2) a n)) as (I1 & I2 & I3);
    [ lia | exact G1 | intros; lia | intros; lia | ].
  split.
  - apply sorted_by_position. intros k k' H1 H2 H3. apply I1; lia.
  - apply (Permutation_count_occ entry_eq_dec). intro z.
    rewrite I2. apply G2.
Qed.

(** ** The score columns of a partition *)

Lemma Forall2_choose {A B : Type} (R : A -> B -> Prop) (xs : list A) :
  (forall x, In x xs -> exists y, R x y) -> exists ys, Forall2 R xs ys.
Proof.
  induction xs as [|x xs IH]; intro H.
  - exists []. constructor.
  - destruct (H x (or_introl eq_refl)) as [y Hy].
    destruct IH as [ys Hys]; [intros z Hz; apply H; now right|].
    exists (y :: ys). now constructor.
Qed.

Section ScoreColumns.

Variable M : Float64Model.

Lemma score_group_columns (gp : list Row) (out : list (ScoredRow M)) :
  score_group M gp = Ok out ->
  gp <> [] /\
  map (base M) out = gp /\
  List.length (map (cos_dist_lt M) out) = List.length gp /\
  List.length (map (cos_dist_st M) out) = List.length gp /\
  nth_error (map (cos_dist_lt M) out) 0 = Some NpNaN /\
  nth_error (map (cos_dist_st M) out) 0 = Some NpNaN /\
  forall i, 1 <= i < List.length gp ->
    exists prev cur lt st,
      nth_error gp (i - 1) = Some prev /\
      nth_error gp i = Some cur /\
      nth_error (map (cos_dist_lt M) out) i = Some lt /\
      nth_error (map (cos_dist_st M) out) i = Some st /\
      get_long_text_cosine_distance M (items prev) (items cur) = Ok lt /\
      get_short_text_cosine_distance M (items prev) (items cur) = Ok st.
Proof.
  unfold score_group. intro H.
  destruct (make_pairs_spec gp) as [pairs [Hp [Hlen Hnth]]].
  rewrite Hp in H; cbn [bind] in H.
  destruct (distance_series M pairs [NpNaN] [NpNaN]) as [[lt st]|e] eqn:Hd;
    cbn [bind fst snd] in H; [|discriminate].
  apply distance_series_spec in Hd.
  destruct Hd as [lt' [st' [-> [-> [Hl Hs]]]]].
  apply insert_scores_spec in H.
  destruct H as [H1 [H2 [Hb [Hcl Hcs]]]].
  rewrite Hcl, Hcs. cbn [app] in *.
  split; [intro Hnil; rewrite Hnil in H1; discriminate H1|].
  repeat split; try assumption; try reflexivity.
  intros i Hi. destruct (Hnth i Hi) as [prev [cur [Hprev [Hcur Hpair]]]].
  destruct (Forall2_nth_error _ _ _ Hl _ _ Hpair) as [v [Hv Hgl]].
  destruct (Forall2_nth_error _ _ _ Hs _ _ Hpair) as [w [Hw Hgs]].
  exists prev, cur, v, w. cbn [fst snd] in Hgl, Hgs.
  destruct i as [|j]; [lia|].
  replace (S j - 1) with j in * by lia. cbn [nth_error].
  repeat split; assumption.
Qed.

Lemma score_group_returns (gp : list Row) :
  gp <> [] ->
  (forall i, 1 <= i < List.length gp ->
     exists prev cur lt st,
       nth_error gp (i - 1) = Some prev /\
       nth_error gp i = Some cur /\
       get_long_text_cosine_distance M (items prev) (items cur) = Ok lt /\
       get_short_text_cosine_distance M (items prev) (items cur) = Ok st) ->
  exists out, score_group M gp = Ok out.
Proof.
  intros Hne Hall. unfold score_group.
  destruct (make_pairs_spec gp) as [pairs [Hp [Hlen Hnth]]].
  rewrite Hp; cbn [bind].
  assert (Hpair : forall p, In p pairs ->
            (exists v, get_long_text_cosine_distance M (fst p) (snd p) = Ok v) /\
            (exists w, get_short_text_cosine_distance M (fst p) (snd p) = Ok w)).
  { intros p Hin. apply In_nth_error in Hin. destruct Hin as [j Hj].
    assert (Hjlt : j < List.length pairs)
      by (apply nth_error_Some; rewrite Hj; discriminate).
    assert (Hi : 1 <= S j < List.length gp) by lia.
    destruct (Hnth _ Hi) as [prev [cur [Hprev [Hcur Hpj]]]].
    destruct (Hall _ Hi) as [prev' [cur' [lt [st [Hprev' [Hcur' [Hgl Hgs]]]]]]].
    replace (S j - 1) with j in * by lia.
    rewrite Hj in Hpj. injection Hpj as ->.
    rewrite Hprev in Hprev'. injection Hprev' as <-.
    rewrite Hcur in Hcur'. injection Hcur' as <-.
    cbn [fst snd]. eauto. }
  destruct (@Forall2_choose _ _
              (fun p v => get_long_text_cosine_distance M (fst p) (snd p) = Ok v) pairs)
    as [lt' Hl]; [intros p Hin; now apply Hpair|].
  destruct (@Forall2_choose _ _
              (fun p v => get_short_text_cosine_distance M (fst p) (snd p) = Ok v) pairs)
    as [st' Hs]; [intros p Hin; now apply Hpair|].
  rewrite (distance_series_returns M pairs lt' st' [NpNaN] [NpNaN] Hl Hs); cbn [bind fst snd].
  apply Forall2_length in Hl, Hs.
  assert (Hpos : 0 < List.length gp) by (destruct gp; [contradiction | cbn; lia]).
  apply insert_scores_returns; cbn [app List.length]; lia.
Qed.

End ScoreColumns.

(** C3. A partition of [n >= 1] rows, in its sorted order [gp]. The group
    body returns exactly when no similarity call on two adjacent rows
    raises; and when it returns, both score columns have [n] entries, entry
    0 is [nan], and entry [i], for [1 <= i < n], is what the similarity
    function returns on the items of rows [i - 1] and [i]. *)
Theorem score_columns_of_partition
  (M : Float64Model) (argsort : list Z -> list nat) (group : list Row) :
  argsort_spec argsort ->
  group <> [] ->
  let gp := sort_values argsort group in
  let n := List.length group in
  ((exists out, process_group M argsort group = Ok out) <->
   (forall i, 1 <= i < n ->
      exists prev cur lt st,
        nth_error gp (i - 1) = Some prev /\
        nth_error gp i = Some cur /\
        get_long_text_cosine_distance M (items prev) (items cur) = Ok lt /\
        get_short_text_cosine_distance M (items prev) (items cur) = Ok st)) /\
  (forall out, process_group M argsort group = Ok out ->
     map (base M) out = gp /\
     List.length (map (cos_dist_lt M) out) = n /\
     List.length (map (cos_dist_st M) out) = n /\
     nth_error (map (cos_dist_lt M) out) 0 = Some NpNaN /\
     nth_error (map (cos_dist_st M) out) 0 = Some NpNaN /\
     forall i, 1 <= i < n ->
       exists prev cur lt st,
         nth_error gp (i - 1) = Some prev /\
         nth_error gp i = Some cur /\
         nth_error (map (cos_dist_lt M) out) i = Some lt /\
         nth_error (map (cos_dist_st M) out) i = Some st /\
         get_long_text_cosine_distance M (items prev) (items cur) = Ok lt /\
         get_short_text_cosine_distance M (items prev) (items cur) = Ok st).
Proof.
  intros Hspec Hne gp n. unfold process_group. fold gp.
  assert (Hn : List.length gp = n) by now apply sort_values_length.
  assert (Hgp : gp <> []).
  { intro H. rewrite H in Hn. subst n. destruct group; [contradiction | discriminate]. }
  assert (Hcols : forall out, score_group M gp = Ok out ->
            map (base M) out = gp /\
            List.length (map (cos_dist_lt M) out) = n /\
            List.length (map (cos_dist_st M) out) = n /\
            nth_error (map (cos_dist_lt M) out) 0 = Some NpNaN /\
            nth_error (map (cos_dist_st M) out) 0 = Some NpNaN /\
            forall i, 1 <= i < n ->
              exists prev cur lt st,
                nth_error gp (i - 1) = Some prev /\
                nth_error gp i = Some cur /\
                nth_error (map (cos_dist_lt M) out) i = Some lt /\
                nth_error (map (cos_dist_st M) out) i = Some st /\
                get_long_text_cosine_distance M (items prev) (items cur) = Ok lt /\
                get_short_text_cosine_distance M (items prev) (items cur) = Ok st).
  { intros out Hout. apply score_group_columns in Hout.
    rewrite Hn in Hout. tauto. }
  split; [|exact Hcols]. split.
  - intros [out Hout] i Hi.
    destruct (Hcols out Hout) as (_ & _ & _ & _ & _ & Hpos).
    destruct (Hpos i Hi) as (prev & cur & lt & st & H1 & H2 & _ & _ & H3 & H4).
    now exists prev, cur, lt, st.
  - intro Hall. apply score_group_returns; [assumption|]. now rewrite Hn.
Qed.

Lemma score_columns_of_partition_witness :
  exists out,
    process_group IEEEModel argsort_stable sample_group = Ok out /\
    map killmail_id (map (base IEEEModel) out) = [10; 20; 30]%Z /\
    List.length (map (cos_dist_lt IEEEModel) out) = 3 /\
    List.length (map (cos_dist_st IEEEModel) out) = 3 /\
    nth_error (map (cos_dist_lt IEEEModel) out) 0 = Some NpNaN /\
    nth_error (map (cos_dist_st IEEEModel) out) 0 = Some NpNaN /\
    nth_error (map (cos_dist_lt IEEEModel) out) 2 = Some (PyInt 0).
Proof.
  assert (Hrun : exists out,
             process_group IEEEModel argsort_stable sample_group = Ok out /\
             map killmail_id (map (base IEEEModel) out) = [10; 20; 30]%Z /\
             nth_error (map (cos_dist_lt IEEEModel) out) 2 = Some (PyInt 0)).
  { eexists. split; [vm_compute; reflexivity|]. split; reflexivity. }
  destruct Hrun as [out [Hrun [Hids H2]]]. exists out.
  destruct (score_columns_of_partition IEEEModel argsort_stable sample_group
              argsort_stable_spec) as [_ Hcols]; [discriminate|].
  destruct (Hcols out Hrun) as (_ & Hlt & Hst & H0l & H0s & _).
  repeat split; assumption.
Defined.

Lemma process_group_Permutation
  (M : Float64Model) (argsort : list Z -> list nat)
  (group : list Row) (out : list (ScoredRow M)) :
  argsort_spec argsort ->
  process_group M argsort group = Ok out ->
  Permutation (map (base M) out) group.
Proof.
  intros Hspec Hout. unfold process_group in Hout.
  apply score_group_columns in Hout. destruct Hout as (_ & -> & _).
  now apply sort_values_Permutation.
Qed.




(** ** Grouping *)

Lemma insert_key_In (k x : Z) (l : list Z) :
  In x (insert_key k l) <-> x = k \/ In x l.
Proof.
  induction l as [|j l IH]; cbn [insert_key].
  - cbn. intuition.
  - destruct (k <? j)%Z; [cbn; intuition|].
    destruct (k =? j)%Z eqn:Hkj.
    + apply Z.eqb_eq in Hkj. subst j. cbn. intuition.
    + cbn [In]. rewrite IH. intuition.
Qed.

Lemma insert_key_HdRel (a k : Z) (l : list Z) :
  (a < k)%Z -> HdRel Z.lt a l -> HdRel Z.lt a (insert_key k l).
Proof.
  intros Hak Hal. destruct l as [|j l]; cbn [insert_key].
  - now constructor.
  - destruct (k <? j)%Z; [now constructor|].
    destruct (k =? j)%Z; [assumption|].
    constructor. now inversion Hal.
Qed.

Lemma insert_key_Sorted (k : Z) (l : list Z) :
  Sorted Z.lt l -> Sorted Z.lt (insert_key k l).
Proof.
  induction 1 as [|j l Hs IH Hhd]; cbn [insert_key].
  - repeat constructor.
  - destruct (k <? j)%Z eqn:Hlt.
    + apply Z.ltb_lt in Hlt. constructor; [now constructor | now constructor].
    + destruct (k =? j)%Z eqn:Heq; [now constructor|].
      apply Z.ltb_ge in Hlt. apply Z.eqb_neq in Heq.
      constructor; [assumption|]. apply insert_key_HdRel; [lia | assumption].
Qed.

Lemma has_key_true (k : Z) (r : Row) :
  has_key k r = true <-> character_id r = Some k.
Proof.
  unfold has_key. destruct (character_id r) as [c|].
  - rewrite Z.eqb_eq. split; congruence.
  - split; discriminate.
Qed.

Lemma present_keys_In (df : list Row) (k : Z) :
  In k (present_keys df) <-> In (Some k) (map character_id df).
Proof.
  unfold present_keys. induction df as [|r df IH]; cbn [flat_map map In].
  - reflexivity.
  - rewrite in_app_iff, IH. destruct (character_id r) as [c|]; cbn [In].
    + split.
      * intros [[H | []] | H]; [left; now f_equal | now right].
      * intros [H | H]; [left; left; congruence | now right].
    + split; [tauto|]. intros [H | H]; [discriminate | now right].
Qed.

Lemma group_keys_In (df : list Row) (k : Z) :
  In k (group_keys df) <-> In (Some k) (map character_id df).
Proof.
  rewrite <- present_keys_In.
  unfold group_keys. induction (present_keys df) as [|c cs IH]; cbn [fold_right].
  - reflexivity.
  - rewrite insert_key_In, IH. cbn. intuition.
Qed.

Lemma group_keys_Sorted (df : list Row) : Sorted Z.lt (group_keys df).
Proof.
  unfold group_keys. induction (present_keys df) as [|c cs IH]; cbn [fold_right].
  - constructor.
  - now apply insert_key_Sorted.
Qed.

Lemma group_keys_StronglySorted (df : list Row) : StronglySorted Z.lt (group_keys df).
Proof.
  apply Sorted_StronglySorted; [|apply group_keys_Sorted].
  intros a b c. apply Z.lt_trans.
Qed.

Lemma StronglySorted_lt_NoDup (l : list Z) : StronglySorted Z.lt l -> NoDup l.
Proof.
  induction 1 as [|a l Hs IH Hall]; constructor; [|assumption].
  intro Hin. rewrite Forall_forall in Hall. specialize (Hall a Hin). lia.
Qed.

Lemma map_fst_groupby (df : list Row) : map fst (groupby df) = group_keys df.
Proof. unfold groupby. rewrite map_map. cbn [fst]. apply map_id. Qed.

Lemma filter_cons_if {A : Type} (p : A -> bool) (x : A) (l : list A) :
  filter p (x :: l) = if p x then x :: filter p l else filter p l.
Proof. reflexivity. Qed.

(** A row without a key is in no group. *)
Lemma groups_skip_keyless (r : Row) (df : list Row) (ks : list Z) :
  (forall k, In k ks -> has_key k r = false) ->
  flat_map (fun k => filter (has_key k) (r :: df)) ks
  = flat_map (fun k => filter (has_key k) df) ks.
Proof.
  induction ks as [|k ks IH]; intro H; [reflexivity|].
  cbn [flat_map]. rewrite filter_cons_if, (H k) by now left.
  f_equal. apply IH. intros j Hj. apply H. now right.
Qed.

(** A row with a key is in the group of its key, in front. *)
Lemma groups_take_keyed (r : Row) (c : Z) (df : list Row) (ks : list Z) :
  character_id r = Some c -> NoDup ks -> In c ks ->
  Permutation (flat_map (fun k => filter (has_key k) (r :: df)) ks)
              (r :: flat_map (fun k => filter (has_key k) df) ks).
Proof.
  intros Hc. induction ks as [|k ks IH]; intros Hnd Hin; [destruct Hin|].
  inversion Hnd as [|k0 ks0 Hnotin Hnd']; subst.
  cbn [flat_map]. rewrite filter_cons_if.
  destruct (has_key k r) eqn:Hk.
  - apply has_key_true in Hk. assert (k = c) by congruence. subst k.
    cbn [app]. constructor.
    rewrite groups_skip_keyless; [reflexivity|].
    intros j Hj. destruct (has_key j r) eqn:Hj'; [|reflexivity].
    apply has_key_true in Hj'. exfalso. apply Hnotin. congruence.
  - destruct Hin as [Heq | Hin].
    + subst k. exfalso. apply has_key_true in Hc. congruence.
    + rewrite (IH Hnd' Hin). symmetry. apply Permutation_middle.
Qed.

(** Every row with a key is in exactly one group. *)
Lemma groups_partition_table (df : list Row) (keys : list Z) :
  NoDup keys ->
  (forall r k, In r df -> character_id r = Some k -> In k keys) ->
  Permutation (flat_map (fun k => filter (has_key k) df) keys)
              (filter has_character df).
Proof.
  intros Hnd. induction df as [|r df IH]; intro Hcover.
  - clear Hnd Hcover. induction keys as [|k keys IHk]; [reflexivity | exact IHk].
  - assert (IH' : Permutation (flat_map (fun k => filter (has_key k) df) keys)
                              (filter has_character df)).
    { apply IH. intros x k Hx. apply Hcover. now right. }
    rewrite (filter_cons_if has_character). unfold has_character at 1.
    destruct (character_id r) as [c|] eqn:Hc.
    + rewrite (groups_take_keyed r c df keys Hc Hnd)
        by (apply (Hcover r c); [now left | assumption]).
      now constructor.
    + rewrite groups_skip_keyless; [exact IH'|].
      intros k _. unfold has_key. now rewrite Hc.
Qed.

Lemma concat_groupby_Permutation (df : list Row) :
  Permutation (List.concat (map snd (groupby df))) (filter has_character df).
Proof.
  unfold groupby. rewrite map_map. cbn [snd]. rewrite <- flat_map_concat_map.
  apply groups_partition_table.
  - apply StronglySorted_lt_NoDup, group_keys_StronglySorted.
  - intros r k Hr Hk. apply group_keys_In. rewrite <- Hk. now apply in_map.
Qed.

(** ** Concatenation of blocks *)

Lemma Permutation_concat {A : Type} (xs ys : list (list A)) :
  Forall2 (@Permutation A) xs ys -> Permutation (List.concat xs) (List.concat ys).
Proof.
  induction 1 as [|x y xs ys Hxy Hrest IH]; cbn [List.concat]; [reflexivity|].
  now apply Permutation_app.
Qed.

Lemma StronglySorted_block (k : Z) (b c : list Z) :
  Forall (eq k) b -> Forall (Z.le k) c -> StronglySorted Z.le c ->
  StronglySorted Z.le (b ++ c).
Proof.
  intros Hb Hc Hs. induction Hb as [|x b Hx Hb IH]; cbn [app]; [assumption|].
  subst x. constructor; [assumption|].
  apply Forall_app. split; [|assumption].
  eapply Forall_impl; [|exact Hb]. intros a <-. lia.
Qed.

Lemma StronglySorted_blocks (ks : list Z) (blocks : list (list Z)) :
  Forall2 (fun k b => Forall (eq k) b) ks blocks ->
  StronglySorted Z.lt ks ->
  StronglySorted Z.le (List.concat blocks) /\
  forall k0, Forall (Z.lt k0) ks -> Forall (Z.le k0) (List.concat blocks).
Proof.
  induction 1 as [|k b ks blocks Hkb Hrest IH]; intro Hs; cbn [List.concat].
  - split; [constructor | intros; constructor].
  - inversion Hs as [|k1 ks1 Hs' Hall]; subst.
    destruct (IH Hs') as [Hsorted Hbound]. split.
    + apply StronglySorted_block with (k := k); try assumption.
      now apply Hbound.
    + intros k0 Hk0. inversion Hk0 as [|k2 ks2 Hlt Hk0']; subst.
      apply Forall_app. split.
      * eapply Forall_impl; [|exact Hkb]. intros a <-. lia.
      * now apply Hbound.
Qed.

(** ** The writer *)

Section Writer.

Variable M : Float64Model.
Variable argsort : list Z -> list nat.
Hypothesis argsort_ok : argsort_spec argsort.

Lemma groupby_rows_have_key (df : list Row) :
  Forall (fun g => Forall (fun r => character_id r = Some (fst g)) (snd g)) (groupby df).
Proof.
  unfold groupby. apply Forall_map. apply Forall_forall. intros k _. cbn [fst snd].
  apply Forall_forall. intros r Hr. apply filter_In in Hr.
  now apply has_key_true.
Qed.

Lemma processed_groups_Permutation (gs : list (Z * list Row)) (parts : list (list (ScoredRow M))) :
  Forall2 (fun g part => process_group M argsort (snd g) = Ok part) gs parts ->
  Forall2 (@Permutation Row) (map (map (base M)) parts) (map snd gs).
Proof.
  induction 1 as [|g part gs parts Hg Hrest IH]; cbn [map]; constructor; [|assumption].
  now apply (process_group_Permutation M argsort (snd g) part argsort_ok).
Qed.

Lemma processed_groups_blocks (gs : list (Z * list Row)) (parts : list (list (ScoredRow M))) :
  Forall (fun g => Forall (fun r => character_id r = Some (fst g)) (snd g)) gs ->
  Forall2 (fun g part => process_group M argsort (snd g) = Ok part) gs parts ->
  Forall2 (fun k b => Forall (eq (Some k)) b)
          (map fst gs)
          (map (map (fun r => character_id (base M r))) parts).
Proof.
  intros Hkeys H. induction H as [|g part gs parts Hg Hrest IH]; cbn [map];
    constructor.
  - inversion Hkeys as [|g0 gs0 Hk Hks]; subst.
    pose proof (process_group_Permutation M argsort (snd g) part argsort_ok Hg) as Hperm.
    rewrite Forall_forall in Hk. apply Forall_forall. intros c Hc.
    apply in_map_iff in Hc. destruct Hc as [r [<- Hr]].
    symmetry. apply Hk. apply (Permutation_in _ Hperm). now apply in_map.
  - apply IH. now inversion Hkeys.
Qed.

End Writer.

(** Blocks of present keys are blocks of keys. *)
Lemma blocks_of_present_keys (ks : list Z) (blocks : list (list (option Z))) :
  Forall2 (fun k b => Forall (eq (Some k)) b) ks blocks ->
  exists zblocks,
    map (map Some) zblocks = blocks /\
    Forall2 (fun k b => Forall (eq k) b) ks zblocks.
Proof.
  induction 1 as [|k b ks blocks Hb Hrest IH].
  - exists []. split; constructor.
  - destruct IH as [zblocks [Hmap Hz]].
    exists (map (fun _ => k) b :: zblocks). split.
    + cbn [map]. rewrite Hmap. f_equal. rewrite map_map.
      rewrite <- (map_id b) at 2. apply map_ext_in.
      intros c Hc. rewrite Forall_forall in Hb. now apply Hb.
    + constructor; [|assumption]. apply Forall_forall.
      intros c Hc. apply in_map_iff in Hc. now destruct Hc as [_ [<- _]].
Qed.

Lemma filter_all_true {A : Type} (p : A -> bool) (l : list A) :
  (forall x, In x l -> p x = true) -> filter p l = l.
Proof.
  intro H. rewrite (filter_ext_in p (fun _ => true) l H). apply filter_true.
Qed.

(** C8, as the code has it. When the run returns, its table is the
    processed groups in the order of the loop, one after the other; the
    keys of the groups ascend strictly, so the [character_id]s of the
    output ascend; the rows of the output, without the two score cells,
    are the input rows that have a [character_id], each once. The rows
    without one are in no group and are not in the output: the output has
    as many rows as the input when every row has a [character_id]. *)
Theorem output_is_groups_in_key_order
  (M : Float64Model) (argsort : list Z -> list nat)
  (df : list Row) (out : list (ScoredRow M)) :
  argsort_spec argsort ->
  run M argsort df = Ok out ->
  (exists parts,
     Forall2 (fun g part => process_group M argsort (snd g) = Ok part)
             (groupby df) parts /\
     out = List.concat parts) /\
  StronglySorted Z.lt (map fst (groupby df)) /\
  (exists ks, map (fun r => character_id (base M r)) out = map Some ks /\
              Sorted Z.le ks) /\
  Permutation (map (base M) out) (filter has_character df) /\
  List.length out = List.length (filter has_character df) /\
  ((forall r, In r df -> has_character r = true) ->
   List.length out = List.length df /\ Permutation (map (base M) out) df).
Proof.
  intros Hspec. unfold run. intro H.
  destruct (mapM (fun g => process_group M argsort (snd g)) (groupby df))
    as [parts|e] eqn:Hparts; cbn [bind] in H; [|discriminate].
  apply mapM_Forall2 in Hparts.
  assert (Hout : out = List.concat parts).
  { destruct parts; [discriminate|]. cbn [pd_concat] in H. now injection H as <-. }
  clear H. subst out.
  assert (Hperm : Permutation (map (base M) (List.concat parts))
                              (filter has_character df)).
  { rewrite concat_map.
    rewrite (Permutation_concat _ _ (processed_groups_Permutation M argsort Hspec _ _ Hparts)).
    apply concat_groupby_Permutation. }
  assert (Hlen : List.length (List.concat parts)
                 = List.length (filter has_character df)).
  { apply Permutation_length in Hperm. now rewrite length_map in Hperm. }
  split; [now exists parts|].
  split; [rewrite map_fst_groupby; apply group_keys_StronglySorted|].
  split; [|split; [exact Hperm | split; [exact Hlen|]]].
  - destruct (blocks_of_present_keys _ _
                (processed_groups_blocks M argsort Hspec _ _
                   (groupby_rows_have_key df) Hparts)) as [zblocks [Hmap Hz]].
    exists (List.concat zblocks). split.
    + rewrite concat_map, <- Hmap, <- concat_map. reflexivity.
    + apply StronglySorted_Sorted.
      apply (StronglySorted_blocks (map fst (groupby df))); [assumption|].
      rewrite map_fst_groupby. apply group_keys_StronglySorted.
  - intro Hall. rewrite (filter_all_true has_character df Hall) in Hperm, Hlen.
    split; assumption.
Qed.

Lemma output_is_groups_in_key_order_witness :
  exists out,
    run IEEEModel argsort_stable sample_table = Ok out /\
    map (fun r => (character_id (base IEEEModel r), killmail_id (base IEEEModel r))) out
    = [(Some 10, 1); (Some 10, 2); (Some 20, 4); (Some 20, 5)]%Z /\
    List.length out = List.length sample_table /\
    Permutation (map (base IEEEModel) out) sample_table.
Proof.
  assert (Hrun : exists out,
             run IEEEModel argsort_stable sample_table = Ok out /\
             map (fun r => (character_id (base IEEEModel r),
                            killmail_id (base IEEEModel r))) out
             = [(Some 10, 1); (Some 10, 2); (Some 20, 4); (Some 20, 5)]%Z).
  { eexists. split; [vm_compute; reflexivity | reflexivity]. }
  destruct Hrun as [out [Hrun Hids]]. exists out.
  destruct (output_is_groups_in_key_order IEEEModel argsort_stable sample_table out
              argsort_stable_spec Hrun) as (_ & _ & _ & _ & _ & Hall).
  destruct Hall as [Hlen Hperm].
  - intros r Hr. cbn [sample_table In] in Hr.
    repeat (destruct Hr as [<- | Hr]; [reflexivity|]). destruct Hr.
  - repeat split; assumption.
Defined.

(** With one row, every sorter that keeps the promise of [argsort] leaves
    the group as it is. *)
Lemma sort_values_singleton (argsort : list Z -> list nat) (r : Row) :
  argsort_spec argsort -> sort_values argsort [r] = [r].
Proof.
  intro Hspec. unfold sort_values. cbn [map].
  destruct (Hspec [killmail_id r]) as [Hperm _]. cbn [List.length seq] in Hperm.
  apply Permutation_sym, Permutation_length_1_inv in Hperm.
  now rewrite Hperm.
Qed.

(** On a table with a row whose [character_id] is missing, the row is in
    no group, whatever the sorter. *)
Lemma keyless_row_is_in_no_group :
  forall argsort : list Z -> list nat, argsort_spec argsort ->
    exists out,
      run IEEEModel argsort table_with_keyless_row = Ok out /\
      map (fun r => killmail_id (base IEEEModel r)) out = [1; 3]%Z.
Proof.
  intros argsort Hspec. unfold run.
  assert (Hg : groupby table_with_keyless_row
               = [(10%Z, [nth 0 table_with_keyless_row keyless_row]);
                  (20%Z, [nth 2 table_with_keyless_row keyless_row])])
    by (vm_compute; reflexivity).
  rewrite Hg. cbn [mapM map snd]. unfold process_group.
  rewrite !(sort_values_singleton argsort _ Hspec).
  eexists. split; vm_compute; reflexivity.
Qed.

(** C8, as stated, fails on a table with a row whose [character_id] is
    missing: the output has two rows where the input has three. *)
Lemma keyless_row_is_dropped :
  exists out,
    run IEEEModel argsort_stable table_with_keyless_row = Ok out /\
    map (fun r => killmail_id (base IEEEModel r)) out = [1; 3]%Z /\
    List.length out = 2%nat /\
    List.length table_with_keyless_row = 3%nat.
Proof.
  eexists. split; [vm_compute; reflexivity|].
  repeat split; reflexivity.
Qed.

(** The end-to-end example, in the float arithmetic of the script: the
    second killmail of character 100 scores 1.0 twice, every first killmail
    has [nan]. *)
Example run_two_characters :
  exists out,
    run IEEEModel argsort_stable two_characters = Ok out /\
    map (fun r => (killmail_id (base IEEEModel r),
                   cos_dist_lt IEEEModel r, cos_dist_st IEEEModel r)) out
    = [(1%Z, NpNaN, NpNaN);
       (2%Z, NpFloat64 1%float, NpFloat64 1%float);
       (3%Z, NpNaN, NpNaN)].
Proof. eexists. split; vm_compute; reflexivity. Qed.

(** * Further properties *)

(** ** Letter case *)

Lemma lower_concat (l : list string) :
  lower (String.concat " " l) = String.concat " " (map lower l).
Proof.
  induction l as [|x l IH]; [reflexivity|].
  destruct l as [|y l]; [reflexivity|].
  change (String.concat " " (x :: y :: l))
    with (x ++ " " ++ String.concat " " (y :: l))%string.
  rewrite !lower_app, IH. reflexivity.
Qed.

Lemma analyze_case (l l' : list string) :
  map lower l = map lower l' ->
  analyze (String.concat " " l) = analyze (String.concat " " l').
Proof.
  intro H. unfold analyze. now rewrite !lower_concat, H.
Qed.

(** X2. Letter case has no influence on either score: two pairs of lists
    whose items agree once their texts are put in lower case have the same
    result, in every float64 model. *)
Theorem letter_case_is_irrelevant (M : Float64Model) (l1 l1' l2 l2' : list item) :
  map lower_item l1 = map lower_item l1' ->
  map lower_item l2 = map lower_item l2' ->
  get_long_text_cosine_distance M (PyList l1) (PyList l2)
  = get_long_text_cosine_distance M (PyList l1') (PyList l2') /\
  get_short_text_cosine_distance M (PyList l1) (PyList l2)
  = get_short_text_cosine_distance M (PyList l1') (PyList l2').
Proof.
  intros H1 H2.
  assert (Hf : forall l l' : list item,
            map lower_item l = map lower_item l' ->
            map lower (map fst l) = map lower (map fst l') /\
            map lower (map snd l) = map lower (map snd l')).
  { intros l l' H. rewrite !map_map.
    change (fun x : item => lower (fst x)) with (fun x : item => fst (lower_item x)).
    change (fun x : item => lower (snd x)) with (fun x : item => snd (lower_item x)).
    rewrite <- !(map_map lower_item fst), <- !(map_map lower_item snd), H.
    split; reflexivity. }
  destruct (Hf _ _ H1) as [Hl1 Hs1]. destruct (Hf _ _ H2) as [Hl2 Hs2].
  destruct l1 as [|x1 r1], l1' as [|y1 s1]; try discriminate H1;
    [split; reflexivity|].
  destruct l2 as [|x2 r2], l2' as [|y2 s2]; try discriminate H2;
    [split; reflexivity|].
  rewrite !get_long_nonempty, !get_short_nonempty.
  rewrite (analyze_case _ _ Hl1), (analyze_case _ _ Hl2).
  rewrite (analyze_case _ _ Hs1), (analyze_case _ _ Hs2).
  split; reflexivity.
Qed.

Lemma letter_case_is_irrelevant_witness :
  get_long_text_cosine_distance IEEEModel (PyList laser_upper_case) (PyList laser_and_plate)
  = get_long_text_cosine_distance IEEEModel (PyList laser_only) (PyList laser_and_plate) /\
  get_short_text_cosine_distance IEEEModel (PyList laser_upper_case) (PyList laser_and_plate)
  = get_short_text_cosine_distance IEEEModel (PyList laser_only) (PyList laser_and_plate).
Proof.
  apply (letter_case_is_irrelevant IEEEModel
           laser_upper_case laser_only laser_and_plate laser_and_plate);
    vm_compute; reflexivity.
Defined.

(** ** When the similarity functions raise, and when they return zero *)

Section ScoreShape.

Variable M : Float64Model.

Lemma weight_None (docs : list (list string)) (d : list string) (t : string) :
  weight M docs d t = None <-> ~ In t d.
Proof.
  unfold weight. rewrite (count_occ_not_In string_dec).
  destruct (count_occ string_dec d t =? 0)%nat eqn:Hc.
  - apply Nat.eqb_eq in Hc. tauto.
  - apply Nat.eqb_neq in Hc. split; [discriminate | contradiction].
Qed.

Lemma unit_weight_None (docs : list (list string)) (V d : list string) (t : string) :
  unit_weight M docs V d t = None <-> ~ In t d.
Proof.
  unfold unit_weight. rewrite <- (weight_None docs d t).
  destruct (weight M docs d t); cbn [option_map]; split; congruence.
Qed.

Lemma fold_dot_step_disjoint (f g : string -> option M) (V : list string) (acc : M) :
  (forall t, f t = None \/ g t = None) ->
  fold_left (dot_step M f g) V acc = acc.
Proof.
  intro H. revert acc. induction V as [|t V IH]; intro acc; [reflexivity|].
  cbn [fold_left]. rewrite IH. unfold dot_step.
  destruct (H t) as [-> | Hg]; [reflexivity|]. rewrite Hg.
  now destruct (f t).
Qed.

Lemma score_of_tokens_shape (d1 d2 : list string) :
  (d1 = [] /\ d2 = [] /\ score_of_tokens M d1 d2 = Raise empty_vocabulary) \/
  (~ (d1 = [] /\ d2 = []) /\ exists x, score_of_tokens M d1 d2 = Ok (NpFloat64 x)).
Proof.
  unfold score_of_tokens.
  destruct (vocabulary [d1; d2]) as [|t V] eqn:HV.
  - left. apply vocabulary_nil in HV. cbn [List.concat] in HV.
    rewrite app_nil_r in HV. apply app_eq_nil in HV. tauto.
  - right. split; [|eauto].
    intros [-> ->]. cbv in HV. discriminate.
Qed.

Lemma score_of_tokens_disjoint (d1 d2 : list string) :
  no_shared_token d1 d2 -> ~ (d1 = [] /\ d2 = []) ->
  score_of_tokens M d1 d2 = Ok (NpFloat64 (f_of_nat M 0)).
Proof.
  intros Hdis Hne. unfold score_of_tokens.
  destruct (vocabulary [d1; d2]) as [|t V] eqn:HV.
  - exfalso. apply Hne. apply vocabulary_nil in HV. cbn [List.concat] in HV.
    rewrite app_nil_r in HV. apply app_eq_nil in HV. exact HV.
  - do 2 f_equal. apply fold_dot_step_disjoint. intro u.
    destruct (in_dec string_dec u d1) as [Hin|Hout].
    + right. apply unit_weight_None. now apply Hdis.
    + left. now apply unit_weight_None.
Qed.

End ScoreShape.

Lemma tokenless_pair_dec (field : item -> string) (los1 los2 : pyitems) :
  tokenless_pair field los1 los2 \/ ~ tokenless_pair field los1 los2.
Proof.
  unfold tokenless_pair, has_items.
  destruct los1 as [f1|[|x1 r1]]; try (right; tauto).
  destruct los2 as [f2|[|x2 r2]]; try (right; tauto).
  destruct (document_tokens field (PyList (x1 :: r1))) as [|t1 d1];
    [|right; intros (_ & _ & H & _); discriminate H].
  destruct (document_tokens field (PyList (x2 :: r2))) as [|t2 d2];
    [|right; intros (_ & _ & _ & H); discriminate H].
  left. tauto.
Qed.

(** X3. On arguments that are values of the data model (a float, or a list
    of pairs of strings), what a similarity function does is decided by the
    items and the tokens: without items on one side it returns the integer
    0; with items on both sides and no token in either document it raises
    the [ValueError] of the vectorizer; in every other case it returns a
    float64. *)
Theorem similarity_raises_only_without_tokens
  (M : Float64Model) (los1 los2 : pyitems) :
  outcome_by_tokens M fst los1 los2 (get_long_text_cosine_distance M los1 los2) /\
  outcome_by_tokens M snd los1 los2 (get_short_text_cosine_distance M los1 los2).
Proof.
  unfold outcome_by_tokens.
  destruct los1 as [f1|[|x1 r1]], los2 as [f2|[|x2 r2]];
    try (split; left; (split; [unfold has_items; tauto | reflexivity])).
  rewrite get_long_nonempty, get_short_nonempty.
  unfold tokenless_pair, has_items, document_tokens.
  split; right.
  - destruct (score_of_tokens_shape M
                (analyze (String.concat " " (map fst (x1 :: r1))))
                (analyze (String.concat " " (map fst (x2 :: r2)))))
      as [(H1 & H2 & Hr) | [Hne [x Hx]]].
    + left. tauto.
    + right. repeat split; [tauto | now exists x].
  - destruct (score_of_tokens_shape M
                (analyze (String.concat " " (map snd (x1 :: r1))))
                (analyze (String.concat " " (map snd (x2 :: r2)))))
      as [(H1 & H2 & Hr) | [Hne [x Hx]]].
    + left. tauto.
    + right. repeat split; [tauto | now exists x].
Qed.

(** X4. Two lists with items whose documents share no token, one of the
    documents at least holding a token, score the float64 zero, to the bit
    in every float64 model: no product is added to the initial [0.0]. *)
Theorem no_shared_token_scores_zero (M : Float64Model) (los1 los2 : pyitems) :
  has_items los1 ->
  has_items los2 ->
  (no_shared_token (document_tokens fst los1) (document_tokens fst los2) ->
   ~ tokenless_pair fst los1 los2 ->
   get_long_text_cosine_distance M los1 los2 = Ok (NpFloat64 (f_of_nat M 0))) /\
  (no_shared_token (document_tokens snd los1) (document_tokens snd los2) ->
   ~ tokenless_pair snd los1 los2 ->
   get_short_text_cosine_distance M los1 los2 = Ok (NpFloat64 (f_of_nat M 0))).
Proof.
  intros H1 H2.
  destruct los1 as [f1|[|x1 r1]], los2 as [f2|[|x2 r2]]; try contradiction.
  rewrite get_long_nonempty, get_short_nonempty.
  unfold tokenless_pair, has_items, document_tokens.
  split; intros Hdis Hne; apply score_of_tokens_disjoint; try assumption; tauto.
Qed.

Lemma no_shared_token_scores_zero_witness :
  get_long_text_cosine_distance IEEEModel (PyList laser_only) (PyList plate_only)
  = Ok (NpFloat64 0%float) /\
  get_short_text_cosine_distance IEEEModel (PyList laser_only) (PyList plate_only)
  = Ok (NpFloat64 0%float).
Proof.
  destruct (no_shared_token_scores_zero IEEEModel (PyList laser_only) (PyList plate_only))
    as [Hl Hs]; [exact I | exact I |].
  split; [apply Hl | apply Hs].
  - intros t Ht Hu. vm_compute in Ht, Hu.
    repeat (destruct Ht as [Ht | Ht]; [subst t;
      repeat (destruct Hu as [Hu | Hu]; [discriminate Hu|]); destruct Hu|]).
    destruct Ht.
  - intros (_ & _ & H & _). vm_compute in H. discriminate H.
  - intros t Ht Hu. vm_compute in Ht, Hu.
    repeat (destruct Ht as [Ht | Ht]; [subst t;
      repeat (destruct Hu as [Hu | Hu]; [discriminate Hu|]); destruct Hu|]).
    destruct Ht.
  - intros (_ & _ & H & _). vm_compute in H. discriminate H.
Defined.

(** ** How a run can fail *)

Lemma mapM_Raise_first {A B : Type} (f : A -> result B) (xs : list A) (e : exn) :
  mapM f xs = Raise e <->
  exists pre x post,
    xs = pre ++ x :: post /\
    (forall y, In y pre -> exists b, f y = Ok b) /\
    f x = Raise e.
Proof.
  split.
  - revert e. induction xs as [|a xs IH]; intros e H; cbn [mapM] in H; [discriminate|].
    destruct (f a) as [b|e1] eqn:Ha; cbn [bind] in H.
    + destruct (mapM f xs) as [ys|e2] eqn:Hxs; cbn [bind] in H; [discriminate|].
      injection H as <-. destruct (IH e2 eq_refl) as (pre & x & post & -> & Hpre & Hx).
      exists (a :: pre), x, post. split; [reflexivity|]. split; [|assumption].
      intros y [<- | Hy]; [eauto | now apply Hpre].
    + injection H as <-. exists [], a, xs. split; [reflexivity|].
      split; [intros y [] | assumption].
  - intros (pre & x & post & -> & Hpre & Hx).
    induction pre as [|a pre IH]; cbn [app mapM].
    + now rewrite Hx.
    + destruct (Hpre a (or_introl eq_refl)) as [b ->]. cbn [bind].
      rewrite IH; [reflexivity|]. intros y Hy. apply Hpre. now right.
Qed.

Section RunFailure.

Variable M : Float64Model.
Variable argsort : list Z -> list nat.
Hypothesis argsort_ok : argsort_spec argsort.

Lemma get_long_Raise (a b : pyitems) (e : exn) :
  get_long_text_cosine_distance M a b = Raise e -> e = empty_vocabulary.
Proof.
  destruct a as [f1|[|x1 r1]], b as [f2|[|x2 r2]]; try discriminate.
  rewrite get_long_nonempty.
  destruct (score_of_tokens_shape M
              (analyze (String.concat " " (map fst (x1 :: r1))))
              (analyze (String.concat " " (map fst (x2 :: r2)))))
    as [(_ & _ & ->) | [_ [x ->]]]; [|discriminate].
  intro H. now injection H as <-.
Qed.

Lemma get_short_Raise (a b : pyitems) (e : exn) :
  get_short_text_cosine_distance M a b = Raise e -> e = empty_vocabulary.
Proof.
  destruct a as [f1|[|x1 r1]], b as [f2|[|x2 r2]]; try discriminate.
  rewrite get_short_nonempty.
  destruct (score_of_tokens_shape M
              (analyze (String.concat " " (map snd (x1 :: r1))))
              (analyze (String.concat " " (map snd (x2 :: r2)))))
    as [(_ & _ & ->) | [_ [x ->]]]; [|discriminate].
  intro H. now injection H as <-.
Qed.

Lemma distance_series_outcome (pairs : list (pyitems * pyitems)) :
  forall a b,
    distance_series M pairs a b = Raise empty_vocabulary \/
    exists lt st,
      distance_series M pairs a b = Ok (lt, st) /\
      List.length lt = List.length a + List.length pairs /\
      List.length st = List.length b + List.length pairs.
Proof.
  induction pairs as [|p pairs IH]; intros a b; cbn [distance_series].
  - right. exists a, b. cbn [List.length]. repeat split; lia.
  - destruct (get_long_text_cosine_distance M (fst p) (snd p)) as [v|e] eqn:Hl;
      cbn [bind]; [|left; now rewrite (get_long_Raise _ _ _ Hl)].
    destruct (get_short_text_cosine_distance M (fst p) (snd p)) as [w|e] eqn:Hs;
      cbn [bind]; [|left; now rewrite (get_short_Raise _ _ _ Hs)].
    destruct (IH (a ++ [v]) (b ++ [w])) as [Hr | (lt & st & Hok & H1 & H2)];
      [now left|].
    right. exists lt, st. rewrite !length_app in *. cbn [List.length] in *.
    repeat split; try assumption; lia.
Qed.

Lemma score_group_outcome (gp : list Row) :
  gp <> [] ->
  score_group M gp = Raise empty_vocabulary \/ exists out, score_group M gp = Ok out.
Proof.
  intro Hne. unfold score_group.
  destruct (make_pairs_spec gp) as [pairs [Hp [Hlen _]]].
  rewrite Hp; cbn [bind].
  destruct (distance_series_outcome pairs [NpNaN] [NpNaN])
    as [-> | (lt & st & -> & H1 & H2)]; [now left|].
  right. cbn [bind fst snd]. cbn [List.length] in H1, H2.
  assert (0 < List.length gp) by (destruct gp; [contradiction | cbn; lia]).
  apply insert_scores_returns; lia.
Qed.

Lemma groupby_group_nonempty (df : list Row) (g : Z * list Row) :
  In g (groupby df) -> snd g <> [].
Proof.
  unfold groupby. intro H. apply in_map_iff in H. destruct H as [k [<- Hk]].
  cbn [snd]. apply group_keys_In in Hk. apply in_map_iff in Hk.
  destruct Hk as [r [Hr Hin]]. intro Hnil.
  assert (Hf : In r (filter (has_key k) df)).
  { apply filter_In. split; [assumption | now apply has_key_true]. }
  rewrite Hnil in Hf. destruct Hf.
Qed.

(** There is no group exactly when no row has a key. *)
Lemma groupby_nil (df : list Row) :
  groupby df = [] <-> filter has_character df = [].
Proof.
  split; intro H.
  - destruct (filter has_character df) as [|r rest] eqn:Hf; [reflexivity|].
    exfalso.
    assert (Hr : In r (filter has_character df)) by (rewrite Hf; now left).
    apply filter_In in Hr. destruct Hr as [Hin Hc]. unfold has_character in Hc.
    destruct (character_id r) as [c|] eqn:Hc'; [|discriminate].
    assert (Hk : In c (group_keys df)).
    { apply group_keys_In. rewrite <- Hc'. now apply in_map. }
    unfold groupby in H. apply map_eq_nil in H. rewrite H in Hk. destruct Hk.
  - destruct (groupby df) as [|g gs] eqn:Hg; [reflexivity|]. exfalso.
    assert (Hin : In g (groupby df)) by (rewrite Hg; now left).
    unfold groupby in Hin. apply in_map_iff in Hin. destruct Hin as [k [_ Hk]].
    apply group_keys_In in Hk. apply in_map_iff in Hk. destruct Hk as [r [Hr Hin]].
    assert (Hf : In r (filter has_character df)).
    { apply filter_In. split; [assumption|]. unfold has_character. now rewrite Hr. }
    rewrite H in Hf. destruct Hf.
Qed.

Lemma process_group_outcome (df : list Row) (g : Z * list Row) :
  In g (groupby df) ->
  process_group M argsort (snd g) = Raise empty_vocabulary \/
  exists out, process_group M argsort (snd g) = Ok out.
Proof.
  intro Hin. unfold process_group. apply score_group_outcome.
  intro Hnil. apply (groupby_group_nonempty df g Hin).
  apply length_zero_iff_nil.
  rewrite <- (sort_values_length argsort argsort_ok), Hnil. reflexivity.
Qed.

Lemma run_outcome (df : list Row) :
  (filter has_character df = [] /\ run M argsort df = Raise no_objects) \/
  (filter has_character df <> [] /\ run M argsort df = Raise empty_vocabulary) \/
  (filter has_character df <> [] /\
   exists out, run M argsort df = Ok out /\ out <> []).
Proof.
  destruct (filter has_character df) as [|r0 rest] eqn:Hkeyed.
  - left. split; [reflexivity|]. unfold run.
    rewrite (proj2 (groupby_nil df) Hkeyed). reflexivity.
  - right.
    assert (Hdf : r0 :: rest <> []) by discriminate.
    assert (Hgroups : groupby df <> []).
    { intro Hg. apply groupby_nil in Hg. congruence. }
    unfold run.
    destruct (mapM (fun g => process_group M argsort (snd g)) (groupby df))
      as [parts|e] eqn:Hm; cbn [bind].
    + right. split; [assumption|].
      apply mapM_Forall2 in Hm.
      destruct parts as [|p parts].
      * inversion Hm as [Hg|]. symmetry in Hg. contradiction.
      * exists (List.concat (p :: parts)). split; [reflexivity|].
        inversion Hm as [|g p' gs ps Hg Hrest]; subst.
        unfold process_group in Hg. apply score_group_columns in Hg.
        destruct Hg as (Hne & Hbase & _).
        cbn [List.concat]. intro Hnil. apply app_eq_nil in Hnil.
        destruct Hnil as [-> _]. cbn [map] in Hbase. now apply Hne.
    + left. split; [assumption|]. f_equal.
      apply mapM_Raise_first in Hm. destruct Hm as (pre & g & post & Hsplit & _ & Hg).
      assert (Hin : In g (groupby df)) by (rewrite Hsplit; apply in_elt).
      destruct (process_group_outcome df g Hin) as [Hr | [out Hok]].
      * rewrite Hr in Hg. now injection Hg as <-.
      * rewrite Hok in Hg. discriminate Hg.
Qed.

Lemma scorable_pair_returns (a b : pyitems) :
  scorable a ->
  exists lt st,
    get_long_text_cosine_distance M a b = Ok lt /\
    get_short_text_cosine_distance M a b = Ok st.
Proof.
  intro Ha.
  destruct a as [f1|[|x1 r1]], b as [f2|[|x2 r2]];
    try (exists (PyInt 0), (PyInt 0); split; reflexivity).
  destruct (Ha I) as [Hl Hs]. unfold document_tokens in Hl, Hs.
  rewrite get_long_nonempty, get_short_nonempty.
  destruct (score_of_tokens_shape M
              (analyze (String.concat " " (map fst (x1 :: r1))))
              (analyze (String.concat " " (map fst (x2 :: r2)))))
    as [(H1 & _) | [_ [x Hx]]]; [contradiction|].
  destruct (score_of_tokens_shape M
              (analyze (String.concat " " (map snd (x1 :: r1))))
              (analyze (String.concat " " (map snd (x2 :: r2)))))
    as [(H1 & _) | [_ [y Hy]]]; [contradiction|].
  eauto.
Qed.

End RunFailure.

(** X6. On a table whose [items] cells are values of the data model (a
    float, or a list of pairs of strings), a run fails in two ways only:
    when no row has a [character_id] there is no group and [pd.concat]
    raises its [ValueError]; otherwise the only exception is the
    [ValueError] of the vectorizer on an empty vocabulary. A run that
    returns returns at least one row. *)
Theorem run_failure_modes
  (M : Float64Model) (argsort : list Z -> list nat) (df : list Row) :
  argsort_spec argsort ->
  (filter has_character df = [] -> run M argsort df = Raise no_objects) /\
  (forall e, run M argsort df = Raise e ->
             (filter has_character df = [] /\ e = no_objects) \/
             (filter has_character df <> [] /\ e = empty_vocabulary)) /\
  (forall out, run M argsort df = Ok out ->
               filter has_character df <> [] /\ out <> []).
Proof.
  intro Hspec.
  destruct (run_outcome M argsort Hspec df)
    as [[Hnil Hr] | [[Hne Hr] | [Hne [out [Hr Hout]]]]].
  - split; [intros _; exact Hr|]. split.
    + intros e He. left. split; [assumption|]. rewrite Hr in He. now injection He as <-.
    + intros out Hout. rewrite Hr in Hout. discriminate Hout.
  - split; [intro; contradiction|]. split.
    + intros e He. right. split; [assumption|]. rewrite Hr in He. now injection He as <-.
    + intros out Hout. rewrite Hr in Hout. discriminate Hout.
  - split; [intro; contradiction|]. split.
    + intros e He. rewrite Hr in He. discriminate He.
    + intros out' Hout'. rewrite Hr in Hout'. injection Hout' as <-.
      split; assumption.
Qed.

(** A table whose only row has no [character_id]: [pd.concat] raises. *)
Lemma run_failure_modes_witness :
  run IEEEModel argsort_stable [keyless_row] = Raise no_objects.
Proof.
  apply (run_failure_modes IEEEModel argsort_stable [keyless_row] argsort_stable_spec).
  reflexivity.
Defined.

(** X7. A run returns on every table in which some row has a
    [character_id] and the item list of each row that has one is missing,
    empty, or has a token in its long-text document and one in its
    short-text document. *)
Theorem run_returns_on_scorable_table
  (M : Float64Model) (argsort : list Z -> list nat) (df : list Row) :
  argsort_spec argsort ->
  filter has_character df <> [] ->
  (forall r, In r df -> has_character r = true -> scorable (items r)) ->
  exists out, run M argsort df = Ok out.
Proof.
  intros Hspec Hne Hall.
  destruct (run_outcome M argsort Hspec df)
    as [[Hnil _] | [[_ Hr] | [_ [out [Hr _]]]]]; [contradiction | | eauto].
  exfalso. unfold run in Hr.
  destruct (mapM (fun g => process_group M argsort (snd g)) (groupby df))
    as [parts|e] eqn:Hm; cbn [bind] in Hr.
  - destruct parts; discriminate Hr.
  - apply mapM_Raise_first in Hm. destruct Hm as (pre & g & post & Hsplit & _ & Hg).
    assert (Hin : In g (groupby df)) by (rewrite Hsplit; apply in_elt).
    assert (Hrows : forall r, In r (sort_values argsort (snd g)) ->
                              In r df /\ has_character r = true).
    { intros r Hr0.
      apply (Permutation_in _ (sort_values_Permutation argsort Hspec (snd g))) in Hr0.
      unfold groupby in Hin. apply in_map_iff in Hin. destruct Hin as [k [<- _]].
      cbn [snd] in Hr0. apply filter_In in Hr0. destruct Hr0 as [Hr0 Hk].
      split; [assumption|]. apply has_key_true in Hk.
      unfold has_character. now rewrite Hk. }
    assert (Hgp : sort_values argsort (snd g) <> []).
    { intro Hnil. apply (groupby_group_nonempty df g Hin).
      apply length_zero_iff_nil.
      rewrite <- (sort_values_length argsort Hspec), Hnil. reflexivity. }
    destruct (score_group_returns M (sort_values argsort (snd g)) Hgp) as [out Hok].
    + intros i Hi.
      destruct (nth_error (sort_values argsort (snd g)) (i - 1)) as [prev|] eqn:Hp;
        [|apply nth_error_None in Hp; lia].
      destruct (nth_error (sort_values argsort (snd g)) i) as [cur|] eqn:Hc;
        [|apply nth_error_None in Hc; lia].
      assert (Hs : scorable (items prev)).
      { destruct (Hrows prev (nth_error_In _ _ Hp)) as [Hdf Hkey]. now apply Hall. }
      destruct (scorable_pair_returns M (items prev) (items cur) Hs) as (lt & st & Hl & Hst).
      exists prev, cur, lt, st. repeat split; assumption.
    + unfold process_group in Hg. rewrite Hok in Hg. discriminate Hg.
Qed.

Lemma run_returns_on_scorable_table_witness :
  exists out, run IEEEModel argsort_stable sample_table = Ok out.
Proof.
  apply (run_returns_on_scorable_table IEEEModel argsort_stable sample_table
           argsort_stable_spec).
  - discriminate.
  - intros r Hr _. unfold sample_table in Hr. cbn [In] in Hr.
    destruct Hr as [<- | [<- | [<- | [<- | []]]]]; intro Hi;
      try (split; vm_compute; discriminate).
    destruct Hi.
Defined.

(** ** The conversion of the items column *)

Lemma literal_eval_Ok (parse_literal : string -> result pyitems)
  (c : csv_cell) (v : pyitems) :
  literal_eval parse_literal c = Ok v <->
  exists s, c = CellStr s /\ parse_literal s = Ok v.
Proof.
  destruct c as [s|]; cbn [literal_eval]; split.
  - intro H. now exists s.
  - intros [s' [Heq H]]. now injection Heq as ->.
  - discriminate.
  - intros [s' [Heq _]]. discriminate Heq.
Qed.

(** X9. The conversion of the items column returns exactly when every cell
    is text that parses, with one value per cell, in the order of the
    cells; when it raises, the exception is that of the first cell that is
    missing or does not parse, and the cells in front of it are text that
    parses. *)
Theorem conversion_outcome
  (parse_literal : string -> result pyitems) (col : list csv_cell) :
  (forall out,
     convert_items parse_literal col = Ok out <->
     Forall2 (fun c v => exists s, c = CellStr s /\ parse_literal s = Ok v) col out) /\
  (forall e,
     convert_items parse_literal col = Raise e <->
     exists pre c post,
       col = pre ++ c :: post /\
       (forall c', In c' pre -> exists s v, c' = CellStr s /\ parse_literal s = Ok v) /\
       literal_eval parse_literal c = Raise e).
Proof.
  unfold convert_items, apply. split.
  - intro out. rewrite mapM_Forall2. split; intro H.
    + eapply Forall2_impl; [|exact H]. intros c v Hc. now apply literal_eval_Ok.
    + eapply Forall2_impl; [|exact H]. intros c v Hc. now apply literal_eval_Ok.
  - intro e. rewrite mapM_Raise_first. split.
    + intros (pre & c & post & Hsplit & Hpre & Hc).
      exists pre, c, post. split; [assumption|]. split; [|assumption].
      intros c' Hin. destruct (Hpre c' Hin) as [v Hv].
      apply literal_eval_Ok in Hv. destruct Hv as [s [Hs Hp]]. now exists s, v.
    + intros (pre & c & post & Hsplit & Hpre & Hc).
      exists pre, c, post. split; [assumption|]. split; [|assumption].
      intros c' Hin. destruct (Hpre c' Hin) as (s & v & Hs & Hp).
      exists v. apply literal_eval_Ok. now exists s.
Qed.

(** ** The loader as a whole *)

Section Frames.

Context {A : Type}.

Lemma getitem_cons (label : string) (col : string * list A) (df : DataFrame A) :
  getitem label (col :: df)
  = if String.eqb (fst col) label then Ok (snd col) else getitem label df.
Proof.
  unfold getitem. cbn [find]. now destruct (String.eqb (fst col) label).
Qed.

Lemma getitem_absent (label : string) (df : DataFrame A) :
  ~ In label (map fst df) -> getitem label df = Raise (KeyError label).
Proof.
  induction df as [|col df IH]; intro Hnot.
  - reflexivity.
  - rewrite getitem_cons. destruct (String.eqb (fst col) label) eqn:Heq.
    + apply String.eqb_eq in Heq. exfalso. apply Hnot. now left.
    + apply IH. intro Hin. apply Hnot. now right.
Qed.

Lemma getitem_present (label : string) (df : DataFrame A) :
  In label (map fst df) -> exists values, getitem label df = Ok values.
Proof.
  induction df as [|col df IH]; intro Hin.
  - destruct Hin.
  - rewrite getitem_cons. destruct (String.eqb (fst col) label) eqn:Heq.
    + now exists (snd col).
    + apply IH. destruct Hin as [Hhd | Htl]; [|assumption].
      apply String.eqb_neq in Heq. contradiction.
Qed.

Lemma getitem_Ok_In (label : string) (df : DataFrame A) (values : list A) :
  getitem label df = Ok values -> In label (map fst df).
Proof.
  induction df as [|col df IH]; intro H.
  - discriminate H.
  - rewrite getitem_cons in H. destruct (String.eqb (fst col) label) eqn:Heq.
    + apply String.eqb_eq in Heq. now left.
    + right. now apply IH.
Qed.

Lemma getitem_filter_kept (keep : string -> bool) (label : string) (df : DataFrame A) :
  keep label = true ->
  getitem label (filter (fun col => keep (fst col)) df) = getitem label df.
Proof.
  intro Hkeep. induction df as [|col df IH].
  - reflexivity.
  - cbn [filter]. rewrite getitem_cons.
    destruct (String.eqb (fst col) label) eqn:Heq.
    + assert (Hk : keep (fst col) = true).
      { apply String.eqb_eq in Heq. now rewrite Heq. }
      now rewrite Hk, getitem_cons, Heq.
    + destruct (keep (fst col)).
      * now rewrite getitem_cons, Heq.
      * exact IH.
Qed.

Lemma getitem_filter_dropped (keep : string -> bool) (label : string) (df : DataFrame A) :
  keep label = false ->
  getitem label (filter (fun col => keep (fst col)) df) = Raise (KeyError label).
Proof.
  intro Hkeep. apply getitem_absent. intro Hin.
  apply in_map_iff in Hin. destruct Hin as [col [Hfst Hcol]].
  apply filter_In in Hcol. destruct Hcol as [_ Hk].
  rewrite Hfst in Hk. congruence.
Qed.

Lemma labels_of_filter (keep : string -> bool) (df : DataFrame A) :
  map fst (filter (fun col => keep (fst col)) df) = filter keep (map fst df).
Proof.
  induction df as [|col df IH]; [reflexivity|].
  cbn [filter map]. destruct (keep (fst col)); cbn [map]; now rewrite IH.
Qed.

Lemma labels_of_replace (label : string) (values : list A) (df : DataFrame A) :
  map fst (map (fun col : string * list A =>
                  if String.eqb (fst col) label then (fst col, values) else col) df)
  = map fst df.
Proof.
  induction df as [|col df IH]; [reflexivity|].
  cbn [map]. rewrite IH. now destruct (String.eqb (fst col) label).
Qed.

Lemma labels_of_setitem (label : string) (values : list A) (df : DataFrame A) :
  In label (map fst df) -> map fst (setitem label values df) = map fst df.
Proof.
  intro Hin. unfold setitem. apply has_label_In in Hin. rewrite Hin.
  apply labels_of_replace.
Qed.

Lemma getitem_replace_same (label : string) (values : list A) (df : DataFrame A) :
  In label (map fst df) ->
  getitem label (map (fun col : string * list A =>
                        if String.eqb (fst col) label then (fst col, values) else col) df)
  = Ok values.
Proof.
  induction df as [|col df IH]; intro Hin.
  - destruct Hin.
  - cbn [map]. rewrite getitem_cons.
    destruct (String.eqb (fst col) label) eqn:Heq; cbn [fst snd].
    + now rewrite Heq.
    + rewrite Heq. apply IH. destruct Hin as [Hhd | Htl]; [|assumption].
      apply String.eqb_neq in Heq. contradiction.
Qed.

Lemma getitem_app_absent (label : string) (df more : DataFrame A) :
  ~ In label (map fst df) -> getitem label (df ++ more) = getitem label more.
Proof.
  induction df as [|col df IH]; intro Hnot.
  - reflexivity.
  - cbn [app]. rewrite getitem_cons.
    destruct (String.eqb (fst col) label) eqn:Heq.
    + apply String.eqb_eq in Heq. exfalso. apply Hnot. now left.
    + apply IH. intro Hin. apply Hnot. now right.
Qed.

Lemma getitem_setitem_same (label : string) (values : list A) (df : DataFrame A) :
  getitem label (setitem label values df) = Ok values.
Proof.
  unfold setitem. destruct (has_label (map fst df) label) eqn:Hhas.
  - apply getitem_replace_same. now apply has_label_In.
  - rewrite getitem_app_absent.
    + rewrite getitem_cons. cbn [fst snd]. now rewrite String.eqb_refl.
    + intro Hin. apply has_label_In in Hin. congruence.
Qed.

Lemma getitem_replace_other (label other : string) (values : list A) (df : DataFrame A) :
  other <> label ->
  getitem other (map (fun col : string * list A =>
                        if String.eqb (fst col) label then (fst col, values) else col) df)
  = getitem other df.
Proof.
  intro Hne. induction df as [|col df IH]; [reflexivity|].
  cbn [map]. rewrite !getitem_cons.
  destruct (String.eqb (fst col) label) eqn:Heq; cbn [fst snd].
  - apply String.eqb_eq in Heq.
    assert (Hno : String.eqb (fst col) other = false).
    { apply String.eqb_neq. congruence. }
    now rewrite Hno.
  - now rewrite IH.
Qed.

Lemma getitem_app_other (label other : string) (values : list A) (df : DataFrame A) :
  other <> label ->
  getitem other (df ++ [(label, values)]) = getitem other df.
Proof.
  intro Hne. induction df as [|col df IH].
  - cbn [app]. rewrite getitem_cons. cbn [fst snd].
    assert (Hno : String.eqb label other = false).
    { apply String.eqb_neq. congruence. }
    now rewrite Hno.
  - cbn [app]. rewrite !getitem_cons. now rewrite IH.
Qed.

Lemma getitem_setitem_other (label other : string) (values : list A) (df : DataFrame A) :
  other <> label ->
  getitem other (setitem label values df) = getitem other df.
Proof.
  intro Hne. unfold setitem. destruct (has_label (map fst df) label).
  - now apply getitem_replace_other.
  - now apply getitem_app_other.
Qed.

End Frames.

Lemma labels_of_as_objects (df : DataFrame csv_cell) :
  map fst (as_objects df) = map fst df.
Proof.
  unfold as_objects. rewrite map_map. reflexivity.
Qed.

Lemma getitem_as_objects (label : string) (df : DataFrame csv_cell) :
  getitem label (as_objects df)
  = match getitem label df with
    | Ok raw => Ok (map Raw raw)
    | Raise e => Raise e
    end.
Proof.
  induction df as [|col df IH]; [reflexivity|].
  unfold as_objects in *. cbn [map]. rewrite !getitem_cons. cbn [fst snd].
  now destruct (String.eqb (fst col) label).
Qed.

Lemma isk_columns_present_dec (labels : list string) :
  {forall l, In l isk_columns -> In l labels}
  + {exists l, In l isk_columns /\ ~ In l labels}.
Proof.
  destruct (filter (fun l => negb (has_label labels l)) isk_columns) as [|m ms] eqn:Hmiss.
  - left. now apply missing_labels_nil.
  - right. exists m.
    assert (Hin : In m (filter (fun l => negb (has_label labels l)) isk_columns))
      by (rewrite Hmiss; now left).
    apply filter_In in Hin. destruct Hin as [Hin Hneg]. split; [assumption|].
    intro Hhave. apply has_label_In in Hhave. rewrite Hhave in Hneg. discriminate.
Qed.

Lemma drop_isk_Ok (A : Type) (df : DataFrame A) :
  (forall l, In l isk_columns -> In l (map fst df)) ->
  drop_columns isk_columns df
  = Ok (filter (fun col => negb (has_label isk_columns (fst col))) df).
Proof.
  intro Hall. unfold drop_columns.
  apply missing_labels_nil in Hall. now rewrite Hall.
Qed.

Lemma drop_isk_Raise (A : Type) (df : DataFrame A) :
  (exists l, In l isk_columns /\ ~ In l (map fst df)) ->
  drop_columns isk_columns df = Raise (KeyError "labels not found in axis").
Proof.
  intros [l [Hl Hnot]]. unfold drop_columns.
  destruct (filter (fun l => negb (has_label (map fst df) l)) isk_columns) eqn:Hmiss.
  - exfalso. apply Hnot. apply (proj1 (missing_labels_nil _ _) Hmiss). exact Hl.
  - reflexivity.
Qed.

Lemma Ok_injective (A : Type) (x y : A) : Ok x = Ok y -> x = y.
Proof. congruence. Qed.

Lemma items_is_kept : negb (has_label isk_columns "items") = true.
Proof. reflexivity. Qed.

(** The loader in terms of the table it is given. *)
Lemma load_unfold (parse_literal : string -> result pyitems) (df : DataFrame csv_cell) :
  (forall l, In l isk_columns -> In l (map fst df)) ->
  load parse_literal df
  = (col <- getitem "items" df ;;
     converted <- convert_items parse_literal col ;;
     Ok (setitem "items" (map Parsed converted)
           (as_objects (filter (fun col => negb (has_label isk_columns (fst col))) df)))).
Proof.
  intro Hall. unfold load. rewrite (drop_isk_Ok _ df Hall). cbn [bind].
  rewrite (getitem_filter_kept (fun l => negb (has_label isk_columns l)) "items" df
             items_is_kept).
  reflexivity.
Qed.

(** X10. A table that has been loaded has the labels of the table read
    without the three ISK labels, in the order read; its [items] column
    holds the parsed values of the cells read, one per cell; the three ISK
    columns are gone, and every other column holds the cells read. *)
Theorem loaded_table_shape
  (parse_literal : string -> result pyitems) (df : DataFrame csv_cell)
  (out : DataFrame cell)
  (Hload : load parse_literal df = Ok out) :
  map fst out = filter (fun l => negb (has_label isk_columns l)) (map fst df) /\
  (exists raw values,
     getitem "items" df = Ok raw /\
     Forall2 (fun c v => exists s, c = CellStr s /\ parse_literal s = Ok v) raw values /\
     getitem "items" out = Ok (map Parsed values)) /\
  (forall label, label <> "items"%string ->
     getitem label out
     = if has_label isk_columns label then Raise (KeyError label)
       else match getitem label df with
            | Ok raw => Ok (map Raw raw)
            | Raise e => Raise e
            end).
Proof.
  destruct (isk_columns_present_dec (map fst df)) as [Hall | Hmiss].
  2:{ unfold load in Hload. rewrite (drop_isk_Raise _ df Hmiss) in Hload.
      discriminate Hload. }
  rewrite (load_unfold _ _ Hall) in Hload.
  destruct (getitem "items" df) as [raw|e] eqn:Hraw; [|discriminate Hload].
  cbn [bind] in Hload.
  destruct (convert_items parse_literal raw) as [values|e] eqn:Hconv;
    [|discriminate Hload].
  cbn [bind] in Hload. apply Ok_injective in Hload. subst out.
  set (kept := filter (fun col : string * list csv_cell =>
                         negb (has_label isk_columns (fst col))) df).
  assert (Hitems : In "items"%string (map fst (as_objects kept))).
  { rewrite labels_of_as_objects. unfold kept.
    rewrite (labels_of_filter (fun l => negb (has_label isk_columns l))).
    apply filter_In. split; [|reflexivity].
    now apply getitem_Ok_In in Hraw. }
  split; [|split].
  - rewrite labels_of_setitem by assumption.
    rewrite labels_of_as_objects. unfold kept.
    apply (labels_of_filter (fun l => negb (has_label isk_columns l))).
  - exists raw, values. split; [reflexivity|]. split.
    + unfold convert_items, apply in Hconv. apply mapM_Forall2 in Hconv.
      eapply Forall2_impl; [|exact Hconv].
      intros c v Hc. destruct c as [s|]; cbn [literal_eval] in Hc.
      * now exists s.
      * discriminate Hc.
    + apply getitem_setitem_same.
  - intros label Hne. rewrite getitem_setitem_other by assumption.
    rewrite getitem_as_objects. unfold kept.
    destruct (has_label isk_columns label) eqn:Hisk.
    + rewrite (getitem_filter_dropped (fun l => negb (has_label isk_columns l)) label df)
        by (now rewrite Hisk).
      reflexivity.
    + rewrite (getitem_filter_kept (fun l => negb (has_label isk_columns l)) label df)
        by (now rewrite Hisk).
      reflexivity.
Qed.

Lemma loaded_table_shape_witness :
  load parse_rifle table_with_isk
  = Ok [("killmail_id", [Raw (CellStr "1")]);
        ("character_id", [Raw (CellStr "90000001")]);
        ("items", [Parsed (PyList [("Rifle", "Gun")])])]%string /\
  map fst [("killmail_id", [Raw (CellStr "1")]);
           ("character_id", [Raw (CellStr "90000001")]);
           ("items", [Parsed (PyList [("Rifle", "Gun")])])]%string
  = filter (fun l => negb (has_label isk_columns l)) (map fst table_with_isk).
Proof.
  assert (H : load parse_rifle table_with_isk
              = Ok [("killmail_id", [Raw (CellStr "1")]);
                    ("character_id", [Raw (CellStr "90000001")]);
                    ("items", [Parsed (PyList [("Rifle", "Gun")])])]%string)
    by reflexivity.
  split; [exact H|].
  exact (proj1 (loaded_table_shape parse_rifle table_with_isk _ H)).
Defined.

(** X11. The loader raises in three cases only, and in this order: one of
    the three ISK columns is not in the table ([KeyError] of the drop);
    else the table has no [items] column ([KeyError] of the column
    access); else a cell of the [items] column is missing or does not
    parse, and the exception is that of the conversion. *)
Theorem load_failure_modes
  (parse_literal : string -> result pyitems) (df : DataFrame csv_cell) (e : exn) :
  load parse_literal df = Raise e <->
  ((exists l, In l isk_columns /\ ~ In l (map fst df)) /\
   e = KeyError "labels not found in axis") \/
  ((forall l, In l isk_columns -> In l (map fst df)) /\
   ~ In "items"%string (map fst df) /\ e = KeyError "items") \/
  ((forall l, In l isk_columns -> In l (map fst df)) /\
   exists raw, getitem "items" df = Ok raw /\
               convert_items parse_literal raw = Raise e).
Proof.
  destruct (isk_columns_present_dec (map fst df)) as [Hall | Hmiss].
  - rewrite (load_unfold _ _ Hall).
    destruct (getitem "items" df) as [raw|e'] eqn:Hraw; cbn [bind].
    + destruct (convert_items parse_literal raw) as [values|e'] eqn:Hconv; cbn [bind].
      * split; [discriminate|].
        intros [[[l [Hl Hnot]] _] | [(_ & Hno & _) | (_ & raw' & Hraw' & Hconv')]].
        -- exfalso. apply Hnot. now apply Hall.
        -- exfalso. apply Hno. now apply getitem_Ok_In in Hraw.
        -- injection Hraw' as <-. congruence.
      * split.
        -- intro H. injection H as <-. right. right.
           split; [assumption|]. now exists raw.
        -- intros [[[l [Hl Hnot]] _] | [(_ & Hno & _) | (_ & raw' & Hraw' & Hconv')]].
           ++ exfalso. apply Hnot. now apply Hall.
           ++ exfalso. apply Hno. now apply getitem_Ok_In in Hraw.
           ++ injection Hraw' as <-. congruence.
    + assert (Hno : ~ In "items"%string (map fst df)).
      { intro Hin. apply getitem_present in Hin. destruct Hin as [values Hv].
        congruence. }
      rewrite (getitem_absent _ _ Hno) in Hraw. injection Hraw as <-.
      split.
      * intro H. injection H as <-. right. left. now repeat split.
      * intros [[[l [Hl Hnot]] _] | [(_ & _ & ->) | (_ & raw' & Hraw' & _)]].
        -- exfalso. apply Hnot. now apply Hall.
        -- reflexivity.
        -- discriminate Hraw'.
  - unfold load. rewrite (drop_isk_Raise _ df Hmiss). cbn [bind].
    split.
    + intro H. injection H as <-. left. now split.
    + intros [[_ ->] | [(Hall & _) | (Hall & _)]].
      * reflexivity.
      * exfalso. destruct Hmiss as [l [Hl Hnot]]. apply Hnot. now apply Hall.
      * exfalso. destruct Hmiss as [l [Hl Hnot]]. apply Hnot. now apply Hall.
Qed.

(** ** The order of the rows of the table *)

Lemma StronglySorted_lt_ext (l l' : list Z) :
  StronglySorted Z.lt l -> StronglySorted Z.lt l' ->
  (forall k, In k l <-> In k l') -> l = l'.
Proof.
  intros Hl. revert l'. induction Hl as [|a l Hl IH Ha]; intros l' Hl' Hext.
  - destruct l' as [|b l']; [reflexivity|].
    exfalso. apply (proj2 (Hext b)). now left.
  - destruct Hl' as [|b l' Hl' Hb].
    + exfalso. apply (proj1 (Hext a)). now left.
    + rewrite Forall_forall in Ha, Hb.
      assert (Hab : a = b).
      { destruct (proj1 (Hext a) (or_introl eq_refl)) as [Hba | Hin];
          [now symmetry|].
        destruct (proj2 (Hext b) (or_introl eq_refl)) as [Hba | Hin'];
          [assumption|].
        specialize (Hb a Hin). specialize (Ha b Hin'). lia. }
      subst b. f_equal. apply IH; [assumption|].
      intro k. split; intro Hk.
      * destruct (proj1 (Hext k) (or_intror Hk)) as [Hak | Hin]; [|assumption].
        subst k. specialize (Ha a Hk). lia.
      * destruct (proj2 (Hext k) (or_intror Hk)) as [Hak | Hin]; [|assumption].
        subst k. specialize (Hb a Hk). lia.
Qed.






Section RowOrder.

Variable M : Float64Model.
Variable argsort : list Z -> list nat.
Hypothesis argsort_ok : argsort_spec argsort.


End RowOrder.



(** ** One character at a time *)

Lemma filter_idempotent {A : Type} (p : A -> bool) (l : list A) :
  filter p (filter p l) = filter p l.
Proof.
  induction l as [|x l IH]; [reflexivity|].
  cbn [filter]. destruct (p x) eqn:Hp; [|exact IH].
  cbn [filter]. now rewrite Hp, IH.
Qed.

Lemma filter_all {A : Type} (p : A -> bool) (l : list A) :
  (forall x, In x l -> p x = true) -> filter p l = l.
Proof.
  induction l as [|x l IH]; intro H; [reflexivity|].
  cbn [filter]. rewrite (H x) by now left.
  f_equal. apply IH. intros y Hy. apply H. now right.
Qed.

Lemma filter_none {A : Type} (p : A -> bool) (l : list A) :
  (forall x, In x l -> p x = false) -> filter p l = [].
Proof.
  induction l as [|x l IH]; intro H; [reflexivity|].
  cbn [filter]. rewrite (H x) by now left.
  apply IH. intros y Hy. apply H. now right.
Qed.

Lemma Forall2_map_left {A B C : Type} (P : B -> C -> Prop) (f : A -> B)
  (l : list A) (l' : list C) :
  Forall2 P (map f l) l' -> Forall2 (fun x y => P (f x) y) l l'.
Proof.
  revert l'. induction l as [|x l IH]; intros l' H; inversion H; subst.
  - constructor.
  - constructor; [assumption | now apply IH].
Qed.

Lemma group_keys_of_character (df : list Row) (k : Z) :
  In (Some k) (map character_id df) ->
  group_keys (filter (has_key k) df) = [k].
Proof.
  intro Hin. apply StronglySorted_lt_ext.
  - apply group_keys_StronglySorted.
  - repeat constructor.
  - intro j. rewrite group_keys_In. split.
    + intro Hj. apply in_map_iff in Hj. destruct Hj as [r [Hr Hrin]].
      apply filter_In in Hrin. destruct Hrin as [_ Hk].
      apply has_key_true in Hk. left. congruence.
    + intros [<- | []]. apply in_map_iff in Hin. destruct Hin as [r [Hr Hrin]].
      apply in_map_iff. exists r. split; [assumption|].
      apply filter_In. split; [assumption|]. now apply has_key_true.
Qed.

Section OneCharacter.

Variable M : Float64Model.
Variable argsort : list Z -> list nat.
Hypothesis argsort_ok : argsort_spec argsort.

(** The rows of a processed group are rows of the group. *)
Lemma processed_rows_have_key (df : list Row) (j : Z) (part : list (ScoredRow M)) :
  process_group M argsort (filter (has_key j) df) = Ok part ->
  forall r, In r part -> character_id (base M r) = Some j.
Proof.
  intros Hpart r Hr.
  apply (process_group_Permutation M argsort _ _ argsort_ok) in Hpart.
  assert (Hin : In (base M r) (filter (has_key j) df)).
  { eapply Permutation_in; [exact Hpart|]. now apply in_map. }
  apply filter_In in Hin. destruct Hin as [_ Hj]. now apply has_key_true.
Qed.

Lemma rows_of_character_in_parts (df : list Row) (k : Z) (keys : list Z)
  (parts : list (list (ScoredRow M))) :
  NoDup keys ->
  Forall2 (fun j part =>
             process_group M argsort (filter (has_key j) df)
             = Ok part) keys parts ->
  (~ In k keys ->
   filter (fun r => has_key k (base M r)) (List.concat parts) = []) /\
  (In k keys ->
   exists part,
     process_group M argsort (filter (has_key k) df) = Ok part /\
     filter (fun r => has_key k (base M r)) (List.concat parts) = part).
Proof.
  intros Hnd Hparts. induction Hparts as [|j part keys parts Hj Hrest IH].
  - split; [reflexivity | intros []].
  - inversion Hnd as [|? ? Hnotin Hnd']; subst.
    destruct (IH Hnd') as [IHout IHin].
    cbn [List.concat]. rewrite filter_app.
    pose proof (processed_rows_have_key df j part Hj) as Hkey.
    split.
    + intro Hk. rewrite IHout by (intro H; apply Hk; now right).
      rewrite filter_none; [reflexivity|].
      intros r Hr. unfold has_key. rewrite (Hkey r Hr). apply Z.eqb_neq.
      intro Heq. apply Hk. now left.
    + intros [Heq | Hk].
      * subst j. exists part. split; [assumption|].
        rewrite IHout by assumption. rewrite app_nil_r.
        apply filter_all. intros r Hr. apply has_key_true. now apply Hkey.
      * destruct (IHin Hk) as [part' [Hp' Hf']]. exists part'.
        split; [assumption|]. rewrite Hf'.
        rewrite filter_none; [reflexivity|].
        intros r Hr. unfold has_key. rewrite (Hkey r Hr). apply Z.eqb_neq.
        intro Heq. subst j. contradiction.
Qed.

End OneCharacter.

(** X15. Characters are scored independently of each other: when the run
    on a table returns, the run on the rows of one of its characters alone
    returns the rows that the full result has for this character, with the
    same scores and in the same order. *)
Theorem characters_are_scored_independently
  (M : Float64Model) (argsort : list Z -> list nat)
  (df : list Row) (out : list (ScoredRow M)) (k : Z)
  (Hsort : argsort_spec argsort)
  (Hrun : run M argsort df = Ok out)
  (Hk : In (Some k) (map character_id df)) :
  run M argsort (filter (has_key k) df)
  = Ok (filter (fun r => has_key k (base M r)) out).
Proof.
  unfold run in Hrun.
  destruct (mapM (fun g => process_group M argsort (snd g)) (groupby df))
    as [parts|e] eqn:Hparts; cbn [bind] in Hrun; [|discriminate Hrun].
  apply mapM_Forall2 in Hparts.
  assert (Hout : out = List.concat parts).
  { destruct parts; [discriminate Hrun|]. cbn [pd_concat] in Hrun. congruence. }
  clear Hrun. subst out.
  unfold groupby in Hparts. apply Forall2_map_left in Hparts. cbn [snd] in Hparts.
  destruct (rows_of_character_in_parts M argsort Hsort df k (group_keys df) parts)
    as [_ Hin].
  - apply StronglySorted_lt_NoDup, group_keys_StronglySorted.
  - exact Hparts.
  - destruct Hin as [part [Hpart Hfilter]]; [now apply group_keys_In|].
    rewrite Hfilter. unfold run, groupby.
    rewrite (group_keys_of_character df k Hk). cbn [map mapM snd].
    rewrite filter_idempotent, Hpart. cbn [bind pd_concat List.concat].
    now rewrite app_nil_r.
Qed.

Lemma characters_are_scored_independently_witness :
  exists out,
    run IEEEModel argsort_stable two_characters = Ok out /\
    run IEEEModel argsort_stable
      (filter (has_key 100) two_characters)
    = Ok (filter (fun r => has_key 100 (base IEEEModel r)) out).
Proof.
  assert (Hrun : exists out, run IEEEModel argsort_stable two_characters = Ok out).
  { eexists. vm_compute. reflexivity. }
  destruct Hrun as [out Hrun]. exists out. split; [exact Hrun|].
  apply (characters_are_scored_independently IEEEModel argsort_stable
           two_characters out 100%Z argsort_stable_spec Hrun).
  cbn [two_characters map character_id]. right. now left.
Defined.
